(** * Result-shaping pipeline of the enhanced Memos client

    A shallow embedding of [enhanced_memos.py]: the search parameters and
    their clamping, the filter, sort, paginate, format and relevance stages
    of [EnhancedMemos.search_memos_enhanced], together with the string and
    float primitives of Python they are written with.

    Conventions of the embedding:
    - a Python [str] is a [list ascii], the list of its code points, all
      below U+0100; [lower], [isalnum] and [strip] are Python's on these.
      What depends on the positions of a lowered text being those of the
      text is stated for ASCII text ([isascii]), and the module [Wide] has
      the snippet scan on code points beyond U+00FF, for the one letter
      whose lowering is longer than the letter;
    - a Python [int] is a [Z]; indices and slices follow Python's rules
      (negative indices count from the end, slices clip);
    - a Python [float] is a binary64 [spec_float] of the standard library,
      every operation rounding to nearest even as IEEE 754 prescribes;
    - a raised exception is an [Err] of the [result] monad. *)

From Stdlib Require Import Ascii String.
From Stdlib Require Import ZArith List Bool Lia Setoid.
From Stdlib Require Import Permutation Sorted SpecFloat.
Import ListNotations.

Local Open Scope Z_scope.

(* ================================================================== *)
(** * Python strings *)
(* ================================================================== *)

Module PyStr.

Definition str := list ascii.

(** A string literal. *)
Definition lit (s : string) : str := list_ascii_of_string s.

Definition str_eq_dec : forall a b : str, {a = b} + {a <> b} :=
  list_eq_dec ascii_dec.

Definition str_eqb (a b : str) : bool :=
  if str_eq_dec a b then true else false.

(** [len(s)] *)
Definition len {A} (s : list A) : Z := Z.of_nat (length s).

(** Truthiness of a sequence: [if s:] *)
Definition truthy {A} (s : list A) : bool :=
  match s with [] => false | _ :: _ => true end.

(** Index normalisation of a slice bound: a negative bound counts from
    the end, and every bound is clipped to [0, len]. *)
Definition clip_index (n i : Z) : Z :=
  if i <? 0 then Z.max 0 (i + n) else Z.min i n.

(** [s[lo:hi]] *)
Definition slice {A} (s : list A) (lo hi : Z) : list A :=
  let n := len s in
  skipn (Z.to_nat (clip_index n lo)) (firstn (Z.to_nat (clip_index n hi)) s).

(** [s[:hi]] *)
Definition slice_to {A} (s : list A) (hi : Z) : list A :=
  firstn (Z.to_nat (clip_index (len s) hi)) s.

(** [s[lo:]] *)
Definition slice_from {A} (s : list A) (lo : Z) : list A :=
  skipn (Z.to_nat (clip_index (len s) lo)) s.

(** [s[i]], [None] standing for IndexError. *)
Definition getitem {A} (s : list A) (i : Z) : option A :=
  let j := if i <? 0 then i + len s else i in
  if (0 <=? j) && (j <? len s) then nth_error s (Z.to_nat j) else None.

(** [s.startswith(p)] *)
Fixpoint startswith (s p : str) : bool :=
  match p, s with
  | [], _ => true
  | _ :: _, [] => false
  | a :: p', b :: s' => if ascii_dec a b then startswith s' p' else false
  end.

(** The scan of [str.find]: first position at or after [i] (the position
    of the head of [s]) where [sub] starts, [-1] when there is none. *)
Fixpoint find_at (s sub : str) (i : Z) : Z :=
  if startswith s sub then i
  else match s with
       | [] => -1
       | _ :: s' => find_at s' sub (i + 1)
       end.

(** [s.find(sub, start)] *)
Definition find_from (s sub : str) (start : Z) : Z :=
  let n := len s in
  let st := if start <? 0 then Z.max 0 (start + n) else start in
  if n <? st then -1 else find_at (skipn (Z.to_nat st) s) sub st.

(** [s.find(sub)] *)
Definition find (s sub : str) : Z := find_from s sub 0.

(** [sub in s] *)
Definition contains (s sub : str) : bool := negb (find s sub =? -1).

(** The scan of [str.count] for a non-empty [sub]: occurrences are
    counted left to right and do not overlap; [skip] is the number of
    characters still covered by the occurrence counted last. *)
Fixpoint count_scan (s sub : str) (skip : nat) : Z :=
  match s with
  | [] => 0
  | _ :: s' =>
      match skip with
      | S k => count_scan s' sub k
      | O => if startswith s sub
             then 1 + count_scan s' sub (length sub - 1)
             else count_scan s' sub 0
      end
  end.

(** [s.count(sub)] *)
Definition count (s sub : str) : Z :=
  match sub with
  | [] => len s + 1
  | _ :: _ => count_scan s sub 0
  end.

(** A character is a code point below U+0100.  [n] is one of the code
    points from [lo] to [hi]. *)
Definition between (lo hi n : N) : bool := ((lo <=? n) && (n <=? hi))%N.

(** [c.isupper()]: the capital letters of ASCII and those of U+00C0 to
    U+00DE, the multiplication sign U+00D7 apart. *)
Definition is_upper (c : ascii) : bool :=
  let n := N_of_ascii c in
  between 65 90 n || between 192 214 n || between 216 222 n.

(** [c.isalpha()]: the letters of ASCII, the two ordinal indicators, the
    micro sign and the letters from U+00C0 on, the multiplication and the
    division sign apart. *)
Definition isalpha (c : ascii) : bool :=
  let n := N_of_ascii c in
  between 65 90 n || between 97 122 n ||
  (n =? 170)%N || (n =? 181)%N || (n =? 186)%N ||
  between 192 214 n || between 216 246 n || between 248 255 n.

(** [c.isnumeric()], which holds of what [isdecimal] and [isdigit] hold
    of: the digits, the superscripts two, three and one, and the three
    fractions. *)
Definition isnumeric (c : ascii) : bool :=
  let n := N_of_ascii c in
  between 48 57 n || between 178 179 n || (n =? 185)%N || between 188 190 n.

(** [c.isalnum()] *)
Definition isalnum (c : ascii) : bool := isalpha c || isnumeric c.

(** [c.isspace()]: tab, line feed, vertical tab, form feed, carriage
    return, the four separators 28..31, the space, the next line U+0085
    and the no-break space U+00A0. *)
Definition isspace (c : ascii) : bool :=
  let n := N_of_ascii c in
  between 9 13 n || between 28 32 n || (n =? 133)%N || (n =? 160)%N.

(** [c.lower()]: a capital letter has its small letter 32 code points
    further. *)
Definition lower_char (c : ascii) : ascii :=
  if is_upper c then ascii_of_N (N_of_ascii c + 32) else c.

(** [s.lower()] *)
Definition lower (s : str) : str := map lower_char s.

Fixpoint lstrip (s : str) : str :=
  match s with
  | c :: s' => if isspace c then lstrip s' else s
  | [] => []
  end.

Definition rstrip (s : str) : str := rev (lstrip (rev s)).

(** [s.strip()] *)
Definition strip (s : str) : str := rstrip (lstrip s).

(** [s.split(sep)] for a one-character separator, as a scan carrying the
    reversed piece under construction. *)
Fixpoint split_scan (sep : ascii) (s cur : str) : list str :=
  match s with
  | [] => [rev cur]
  | c :: s' => if ascii_dec c sep
               then rev cur :: split_scan sep s' []
               else split_scan sep s' (c :: cur)
  end.

Definition split_char (sep : ascii) (s : str) : list str :=
  split_scan sep s [].

Definition newline : ascii := ascii_of_N 10.
Definition space : ascii := ascii_of_N 32.

(** [s.split('\n')] *)
Definition split_lines (s : str) : list str := split_char newline s.

(** [sep.join(parts)] *)
Fixpoint join (sep : str) (parts : list str) : str :=
  match parts with
  | [] => []
  | [p] => p
  | p :: ps => p ++ sep ++ join sep ps
  end.

(** The scan of [str.replace] for a non-empty [old]; [skip] counts the
    characters of the occurrence replaced last that are still to be
    dropped. *)
Fixpoint replace_scan (s old new : str) (skip : nat) : str :=
  match s with
  | [] => []
  | c :: s' =>
      match skip with
      | S k => replace_scan s' old new k
      | O => if startswith s old
             then new ++ replace_scan s' old new (length old - 1)
             else c :: replace_scan s' old new 0
      end
  end.

(** [s.replace(old, new)] *)
Definition replace (s old new : str) : str :=
  match old with
  | [] => new ++ flat_map (fun c => c :: new) s
  | _ :: _ => replace_scan s old new 0
  end.

(** [s.rsplit(' ', 1)[0]]: what precedes the last space, or all of [s]
    when it has none. *)
Definition rsplit_space_head (s : str) : str :=
  match split_char space (rev s) with
  | _ :: (_ :: _) as rest => rev (join [space] rest)
  | _ => s
  end.

(** [a <= b], the lexicographic order on code points. *)
Fixpoint str_leb (a b : str) : bool :=
  match a, b with
  | [], _ => true
  | _ :: _, [] => false
  | x :: a', y :: b' =>
      match (N_of_ascii x ?= N_of_ascii y)%N with
      | Lt => true
      | Gt => false
      | Eq => str_leb a' b'
      end
  end.

(** [a < b] *)
Definition str_ltb (a b : str) : bool := negb (str_leb b a).

End PyStr.
Import PyStr.


(* ================================================================== *)
(** * Exceptions *)
(* ================================================================== *)

(** What a call can raise.  [OutOfFuel] is no exception of Python: it marks
    a loop of the embedding that used up its iteration bound. *)
Inductive exn := ZeroDivisionError | TypeError | IndexError | OutOfFuel.

Inductive result (A : Type) :=
| Ok (a : A)
| Err (e : exn).
Arguments Ok {A} a.
Arguments Err {A} e.

Definition bind {A B} (r : result A) (k : A -> result B) : result B :=
  match r with
  | Ok a => k a
  | Err e => Err e
  end.

Notation "x <- r ;; k" := (bind r (fun x => k))
  (at level 61, r at next level, right associativity).

(** [s[i]] as an expression that can raise. *)
Definition getitem_r {A} (s : list A) (i : Z) : result A :=
  match getitem s i with
  | Some a => Ok a
  | None => Err IndexError
  end.

(** A list comprehension whose element expression can raise. *)
Fixpoint mapM {A B} (f : A -> result B) (l : list A) : result (list B) :=
  match l with
  | [] => Ok []
  | a :: l' => b <- f a;; bs <- mapM f l';; Ok (b :: bs)
  end.

(* ================================================================== *)
(** * Python floats *)
(* ================================================================== *)

Module PyFloat.

Definition prec : Z := 53.
Definition emax : Z := 1024.

Definition float := spec_float.

Definition fadd : float -> float -> float := SFadd prec emax.
Definition fsub : float -> float -> float := SFsub prec emax.
Definition fmul : float -> float -> float := SFmul prec emax.
Definition fdiv : float -> float -> float := SFdiv prec emax.
Definition fltb : float -> float -> bool := SFltb.
Definition fleb : float -> float -> bool := SFleb.

(** [float(z)]: the nearest binary64.  (Python raises OverflowError
    from 2^1024 on, far beyond the length of any string.) *)
Definition of_int (z : Z) : float := binary_normalize prec emax z 0 false.

(** An integer as an exact, not normalised, float. *)
Definition int_exact (z : Z) : float :=
  match z with
  | Z0 => S754_zero false
  | Zpos p => S754_finite false p 0
  | Zneg p => S754_finite true p 0
  end.

(** [a / b] on two ints: the correctly rounded quotient, and
    ZeroDivisionError for a zero divisor. *)
Definition int_truediv (a b : Z) : result float :=
  if b =? 0 then Err ZeroDivisionError
  else Ok (fdiv (int_exact a) (int_exact b)).

(** [n < x] for an int and a float, which Python compares exactly. *)
Definition int_lt_float (n : Z) (x : float) : bool :=
  match x with
  | S754_nan => false
  | S754_infinity s => negb s
  | S754_zero _ => n <? 0
  | S754_finite s m e =>
      let v := cond_Zopp s (Zpos m) in
      if 0 <=? e then n <? v * 2 ^ e else n * 2 ^ (- e) <? v
  end.

(** [x < n] for a float and an int. *)
Definition float_lt_int (x : float) (n : Z) : bool :=
  match x with
  | S754_nan => false
  | S754_infinity s => s
  | S754_zero _ => 0 <? n
  | S754_finite s m e =>
      let v := cond_Zopp s (Zpos m) in
      if 0 <=? e then v * 2 ^ e <? n else v <? n * 2 ^ (- e)
  end.

(** The literals of the source. *)
Definition f_zero : float := S754_zero false.                        (* 0.0 *)
Definition f_half : float := S754_finite false 4503599627370496 (-53). (* 0.5 *)
Definition f_one : float := S754_finite false 4503599627370496 (-52).  (* 1.0 *)
Definition f_two : float := S754_finite false 4503599627370496 (-51).  (* 2.0 *)
Definition f_ten : float := S754_finite false 5629499534213120 (-49).  (* 10.0 *)
Definition f_0_7 : float := S754_finite false 6305039478318694 (-53).  (* 0.7 *)

(** [min(a, b)]: the built-in keeps its first argument unless the second
    is smaller. *)
Definition pymin (a b : float) : float := if fltb b a then b else a.

End PyFloat.
Import PyFloat.

(* ================================================================== *)
(** * Python values, dicts and sorting *)
(* ================================================================== *)

(** The values a record field or a field of a formatted note holds. *)
Inductive pyval :=
| VStr (s : str)
| VList (l : list str)
| VFloat (x : float)
| VInt (z : Z).

(** A [dict] keyed by strings, in insertion order, keys unique. *)
Definition dict := list (str * pyval).

(** [d.get(k)] *)
Fixpoint dict_get (d : dict) (k : str) : option pyval :=
  match d with
  | [] => None
  | (k', v) :: d' => if str_eq_dec k k' then Some v else dict_get d' k
  end.

(** [k in d] *)
Definition dict_has (d : dict) (k : str) : bool :=
  match dict_get d k with Some _ => true | None => false end.

(** [d[k] = v] *)
Fixpoint dict_set (d : dict) (k : str) (v : pyval) : dict :=
  match d with
  | [] => [(k, v)]
  | (k', v') :: d' =>
      if str_eq_dec k k' then (k', v) :: d' else (k', v') :: dict_set d' k v
  end.

(** [del d[k]] *)
Fixpoint dict_del (d : dict) (k : str) : dict :=
  match d with
  | [] => []
  | (k', v') :: d' =>
      if str_eq_dec k k' then d' else (k', v') :: dict_del d' k
  end.

(** [a < b] on lists of strings. *)
Fixpoint strs_ltb (a b : list str) : bool :=
  match a, b with
  | _, [] => false
  | [], _ :: _ => true
  | x :: a', y :: b' =>
      if str_eq_dec x y then strs_ltb a' b' else str_ltb x y
  end.

(** [a < b] on values: numbers compare with numbers, strings with strings,
    lists with lists, and any other pair raises TypeError. *)
Definition py_lt (a b : pyval) : result bool :=
  match a, b with
  | VStr x, VStr y => Ok (str_ltb x y)
  | VList x, VList y => Ok (strs_ltb x y)
  | VFloat x, VFloat y => Ok (fltb x y)
  | VInt x, VInt y => Ok (x <? y)
  | VInt x, VFloat y => Ok (int_lt_float x y)
  | VFloat x, VInt y => Ok (float_lt_int x y)
  | _, _ => Err TypeError
  end.

Section Sorting.
Context {A K : Type}.
Variable key : A -> K.

(** [l.sort(key=key, reverse=True)] for keys with a total [<]: a stable
    sort into descending order, written as an insertion sort (an element
    goes before the first one whose key its own is not below, so equal
    keys keep their order). *)
Section Total.
Variable ltb : K -> K -> bool.

Fixpoint insert_desc (x : A) (l : list A) : list A :=
  match l with
  | [] => [x]
  | y :: l' => if ltb (key x) (key y) then y :: insert_desc x l'
               else x :: l
  end.

Fixpoint sort_desc (l : list A) : list A :=
  match l with
  | [] => []
  | x :: l' => insert_desc x (sort_desc l')
  end.
End Total.

(** The same sort where comparing two keys can raise. *)
Section Raising.
Variable lt : K -> K -> result bool.

Fixpoint insert_desc_r (x : A) (l : list A) : result (list A) :=
  match l with
  | [] => Ok [x]
  | y :: l' =>
      b <- lt (key x) (key y);;
      if b then (r <- insert_desc_r x l';; Ok (y :: r))
      else Ok (x :: l)
  end.

Fixpoint sort_desc_r (l : list A) : result (list A) :=
  match l with
  | [] => Ok []
  | x :: l' => r <- sort_desc_r l';; insert_desc_r x r
  end.
End Raising.
End Sorting.

(* ================================================================== *)
(** * The data model of [enhanced_memos.py] *)
(* ================================================================== *)

Inductive ResponseFormat := FULL | SUMMARY | MINIMAL | ID_ONLY.

Definition ResponseFormat_eqb (a b : ResponseFormat) : bool :=
  match a, b with
  | FULL, FULL | SUMMARY, SUMMARY | MINIMAL, MINIMAL | ID_ONLY, ID_ONLY => true
  | _, _ => false
  end.

(** [ResponseFormat.value] *)
Definition format_value (f : ResponseFormat) : str :=
  match f with
  | FULL => lit "full"
  | SUMMARY => lit "summary"
  | MINIMAL => lit "minimal"
  | ID_ONLY => lit "id_only"
  end.

Record EnhancedMemosSearchParams := {
  query : str;
  limit : Z;
  offset : Z;
  fields : list str;
  summary_only : bool;
  content_max_length : Z;
  date_from : option str;
  date_to : option str;
  tags_filter : list str;
  response_format : ResponseFormat;
  group_by_tag : bool
}.

(** [EnhancedMemosSearchParams.__post_init__]: five assignments in
    sequence, each guarded by its test on the current value. *)
Definition post_init (p : EnhancedMemosSearchParams) : EnhancedMemosSearchParams :=
  let limit1 := if limit p >? 50 then 50 else limit p in
  let limit2 := if limit1 <? 1 then 1 else limit1 in
  let offset1 := if offset p <? 0 then 0 else offset p in
  let cml1 := if content_max_length p <? 50 then 50 else content_max_length p in
  let cml2 := if cml1 >? 2000 then 2000 else cml1 in
  {| query := query p; limit := limit2; offset := offset1;
     fields := fields p; summary_only := summary_only p;
     content_max_length := cml2;
     date_from := date_from p; date_to := date_to p;
     tags_filter := tags_filter p; response_format := response_format p;
     group_by_tag := group_by_tag p |}.

(** The constructor of the dataclass: the fields as given, then
    [__post_init__]. *)
Definition mk_params (query : str) (limit offset : Z) (fields : list str)
    (summary_only : bool) (content_max_length : Z)
    (date_from date_to : option str) (tags_filter : list str)
    (response_format : ResponseFormat) (group_by_tag : bool)
  : EnhancedMemosSearchParams :=
  post_init
    {| query := query; limit := limit; offset := offset; fields := fields;
       summary_only := summary_only; content_max_length := content_max_length;
       date_from := date_from; date_to := date_to; tags_filter := tags_filter;
       response_format := response_format; group_by_tag := group_by_tag |}.

(** The default of [fields]. *)
Definition default_fields : list str :=
  [lit "id"; lit "content"; lit "tags"; lit "createTime"].

(** A note record of the store, a [Dict[str, Any]] in the source.  The keys
    the pipeline reads with [memo.get] are typed fields, [None] when the
    key is absent; every other key of the mapping is in [m_extra]. *)
Record memo := {
  m_name : option str;
  m_content : option str;
  m_tags : option (list str);
  m_createTime : option str;
  m_updateTime : option str;
  m_snippet : option str;
  m_extra : dict
}.

(** [memo.get(key, "")] and [memo.get("tags", [])] *)
Definition get_str (o : option str) : str :=
  match o with Some s => s | None => [] end.
Definition get_tags (m : memo) : list str :=
  match m_tags m with Some l => l | None => [] end.

(** [memo.get(k)] for an arbitrary key [k]. *)
Definition memo_get (m : memo) (k : str) : option pyval :=
  if str_eq_dec k (lit "name") then option_map VStr (m_name m)
  else if str_eq_dec k (lit "content") then option_map VStr (m_content m)
  else if str_eq_dec k (lit "tags") then option_map VList (m_tags m)
  else if str_eq_dec k (lit "createTime") then option_map VStr (m_createTime m)
  else if str_eq_dec k (lit "updateTime") then option_map VStr (m_updateTime m)
  else if str_eq_dec k (lit "snippet") then option_map VStr (m_snippet m)
  else dict_get (m_extra m) k.

Record SearchResponse := {
  memos : list dict;
  total_count : Z;
  has_more : bool;
  next_offset : Z;
  query_metadata : dict
}.

(* ================================================================== *)
(** * Paginate stage *)
(* ================================================================== *)

(** [EnhancedMemos._paginate_results] *)
Definition _paginate_results {A} (all_items : list A)
    (params : EnhancedMemosSearchParams) : list A * bool * Z :=
  let total_count := len all_items in
  let start_idx := offset params in
  let end_idx := start_idx + limit params in
  let paginated_items := slice all_items start_idx end_idx in
  let has_more := end_idx <? total_count in
  (paginated_items, has_more, total_count).

(** The three components of the tuple [_paginate_results] returns. *)
Definition page_of {A} (items : list A) (p : EnhancedMemosSearchParams)
  : list A := fst (fst (_paginate_results items p)).
Definition has_more_of {A} (items : list A) (p : EnhancedMemosSearchParams)
  : bool := snd (fst (_paginate_results items p)).
Definition total_of {A} (items : list A) (p : EnhancedMemosSearchParams)
  : Z := snd (_paginate_results items p).

(* ================================================================== *)
(** * Filter stage *)
(* ================================================================== *)

(** Truthiness of an [Optional[str]]: [None] and the empty string are
    both false. *)
Definition truthy_opt (o : option str) : bool :=
  match o with Some s => truthy s | None => false end.

(** [EnhancedMemos._apply_date_filter] *)
Definition _apply_date_filter (memos : list memo)
    (date_from date_to : option str) : list memo :=
  let filtered := memos in
  let filtered :=
    if truthy_opt date_from
    then filter (fun memo => str_leb (get_str date_from)
                                     (get_str (m_createTime memo))) filtered
    else filtered in
  let filtered :=
    if truthy_opt date_to
    then filter (fun memo => str_leb (get_str (m_createTime memo))
                                     (get_str date_to)) filtered
    else filtered in
  filtered.

(** The three filters of [search_memos_enhanced], in its order. *)
Definition filter_stage (all_memos : list memo)
    (params : EnhancedMemosSearchParams) : list memo :=
  let filtered_memos :=
    if truthy (query params)
    then filter (fun memo => contains (lower (get_str (m_content memo)))
                                      (lower (query params))) all_memos
    else all_memos in
  let filtered_memos :=
    if truthy (tags_filter params)
    then filter (fun memo =>
                   existsb (fun tag => existsb (str_eqb tag) (get_tags memo))
                           (tags_filter params)) filtered_memos
    else filtered_memos in
  let filtered_memos :=
    if truthy_opt (date_from params) || truthy_opt (date_to params)
    then _apply_date_filter filtered_memos (date_from params) (date_to params)
    else filtered_memos in
  filtered_memos.

(* ================================================================== *)
(** * Match snippets *)
(* ================================================================== *)

(** [while snippet_start > 0 and content[snippet_start - 1].isalnum():
       snippet_start -= 1], the loop variable being [n]. *)
Fixpoint extend_start (content : str) (n : nat) : result Z :=
  match n with
  | O => Ok 0
  | S n' =>
      c <- getitem_r content (Z.of_nat n - 1);;
      if isalnum c then extend_start content n' else Ok (Z.of_nat n)
  end.

(** [while snippet_end < len(content) and content[snippet_end].isalnum():
       snippet_end += 1] *)
Fixpoint extend_end (fuel : nat) (content : str) (snippet_end : Z) : result Z :=
  if snippet_end <? len content then
    match fuel with
    | O => Err OutOfFuel
    | S fuel' =>
        c <- getitem_r content snippet_end;;
        if isalnum c then extend_end fuel' content (snippet_end + 1)
        else Ok snippet_end
    end
  else Ok snippet_end.

(** The emphasis marking of one snippet (lines 342 to 345):
    [snippet.replace(matched, f"**{matched}**")]. *)
Definition highlight (snippet matched : str) : str :=
  replace snippet matched (lit "**" ++ matched ++ lit "**").

(** The body of the scan loop for the match at [pos]. *)
Definition snippet_at (content query : str) (context_chars pos : Z)
  : result str :=
  let snippet_start := Z.max 0 (pos - context_chars) in
  let snippet_end := Z.min (len content) (pos + len query + context_chars) in
  snippet_start <- extend_start content (Z.to_nat snippet_start);;
  snippet_end <- extend_end (Z.to_nat (len content - snippet_end)) content
                            snippet_end;;
  let snippet := slice content snippet_start snippet_end in
  let snippet := if snippet_start >? 0 then lit "..." ++ snippet else snippet in
  let snippet := if snippet_end <? len content then snippet ++ lit "..."
                 else snippet in
  Ok (highlight snippet (slice content pos (pos + len query))).

(** The [while True] loop of the scan, [start] and [snippets] being its
    variables. *)
Fixpoint scan_matches (fuel : nat) (content query content_lower query_lower : str)
    (context_chars start : Z) (snippets : list str) : result (list str) :=
  match fuel with
  | O => Err OutOfFuel
  | S fuel' =>
      let pos := find_from content_lower query_lower start in
      if pos =? -1 then Ok snippets
      else
        highlighted <- snippet_at content query context_chars pos;;
        scan_matches fuel' content query content_lower query_lower
                     context_chars (pos + 1) (snippets ++ [highlighted])
  end.

(** [EnhancedMemos._extract_snippet_around_match] *)
Definition _extract_snippet_around_match (content query : str)
    (context_chars : Z) : result (list str) :=
  if negb (truthy query) || negb (truthy content) then Ok []
  else
    let query_lower := lower query in
    let content_lower := lower content in
    scan_matches (S (length content)) content query content_lower query_lower
                 context_chars 0 [].

(* ================================================================== *)
(** * Relevance score *)
(* ================================================================== *)

(** [EnhancedMemos._calculate_relevance_score]; [tags] is [None] by
    default. *)
Definition _calculate_relevance_score (content query : str)
    (tags : option (list str)) : result float :=
  if negb (truthy query) then Ok f_half
  else
    let query_lower := lower query in
    let content_lower := lower content in
    let match_count := count content_lower query_lower in
    let first_line :=
      if truthy content then hd [] (split_lines content) else [] in
    let title_bonus :=
      if contains (lower first_line) query_lower then f_two else f_zero in
    let tag_bonus :=
      match tags with
      | Some ((_ :: _) as tags) =>
          if existsb (fun tag => contains (lower tag) query_lower) tags
          then f_one else f_zero
      | _ => f_zero
      end in
    let first_match := find content_lower query_lower in
    position_score <-
      (if negb (first_match =? -1)
       then q <- int_truediv first_match (len content);; Ok (fsub f_one q)
       else Ok f_zero);;
    let raw_score :=
      fadd (fadd (fadd (of_int match_count) title_bonus) tag_bonus)
           position_score in
    Ok (pymin f_one (fdiv raw_score f_ten)).

(* ================================================================== *)
(** * Smart summary *)
(* ================================================================== *)

(** The test of the first pass: a header or a list item. *)
Definition is_header_or_list (line : str) : bool :=
  startswith line (lit "#") || startswith line (lit "-") ||
  startswith line (lit "*") || startswith line (lit "1.").

(** One iteration of the first [for line in lines[1:]] loop. *)
Definition first_pass_step (remaining_length : Z) (summary_parts : list str)
    (line : str) : list str :=
  let line := strip line in
  if negb (truthy line) then summary_parts
  else if is_header_or_list line then
    if len (join (lit " ") summary_parts) + len line <? remaining_length
    then summary_parts ++ [line]
    else summary_parts
  else summary_parts.

(** The test of the second pass. *)
Definition is_regular_line (line : str) : bool :=
  truthy line && negb (startswith line (lit "#")) &&
  negb (startswith line (lit "-")).

(** One iteration of the second [for line in lines[1:]] loop. *)
Definition second_pass_step (remaining_length : Z) (summary_parts : list str)
    (line : str) : list str :=
  let line := strip line in
  if is_regular_line line then
    if len (join (lit " ") summary_parts) + len line <? remaining_length
    then summary_parts ++ [line]
    else summary_parts
  else summary_parts.

(** The guard of the second pass:
    [len(' '.join(summary_parts)) < max_length * 0.7]. *)
Definition under_70_percent (summary_parts : list str) (max_length : Z) : bool :=
  int_lt_float (len (join (lit " ") summary_parts))
               (fmul (of_int max_length) f_0_7).

(** The general summary of [_generate_smart_summary], from
    [lines = content.split('\n')] on; the two passes are kept apart so
    that each can be observed. *)
Definition summary_first_pass (content : str) (max_length : Z)
  : list str * Z :=
  let lines := split_lines content in
  let summary_parts := match lines with l0 :: _ => [l0] | [] => [] end in
  let remaining_length :=
    match summary_parts with
    | p0 :: _ => max_length - len p0
    | [] => max_length
    end in
  (fold_left (first_pass_step remaining_length) (slice_from lines 1)
             summary_parts,
   remaining_length).

Definition summary_second_pass (content : str) (max_length : Z)
    (summary_parts : list str) (remaining_length : Z) : list str :=
  if under_70_percent summary_parts max_length
  then fold_left (second_pass_step remaining_length)
                 (slice_from (split_lines content) 1) summary_parts
  else summary_parts.

Definition structural_summary (content : str) (max_length : Z) : str :=
  let '(summary_parts, remaining_length) :=
    summary_first_pass content max_length in
  let summary_parts :=
    summary_second_pass content max_length summary_parts remaining_length in
  let summary := join [newline] summary_parts in
  if len summary >? max_length
  then rsplit_space_head (slice_to summary max_length) ++ lit "..."
  else summary.

(** [EnhancedMemos._generate_smart_summary] *)
Definition _generate_smart_summary (m : memo) (query : str) (max_length : Z)
  : result str :=
  let content := get_str (m_content m) in
  if negb (truthy content) then Ok []
  else
    snippets <- (if truthy query
                 then _extract_snippet_around_match content query 50
                 else Ok []);;
    if truthy query && truthy snippets then
      let summary := join (lit " [...] ") (slice_to snippets 3) in
      Ok (if len summary >? max_length
          then slice_to summary max_length ++ lit "..."
          else summary)
    else Ok (structural_summary content max_length).

(* ================================================================== *)
(** * Format stage *)
(* ================================================================== *)

(** The FULL branch: [for field in params.fields: if field in memo:
    formatted[field] = memo[field]]. *)
Definition copy_field (m : memo) (formatted : dict) (field : str) : dict :=
  match memo_get m field with
  | Some v => dict_set formatted field v
  | None => formatted
  end.

(** The SUMMARY branch up to the assignment of [tags]. *)
Definition summary_content (m : memo) (params : EnhancedMemosSearchParams)
    (query : str) (formatted : dict) : result dict :=
  let content := get_str (m_content m) in
  if summary_only params || truthy query then
    summary <- _generate_smart_summary m query (content_max_length params);;
    let formatted := dict_set formatted (lit "content") (VStr summary) in
    if truthy query then
      snippets <- _extract_snippet_around_match content query 50;;
      let formatted :=
        if truthy snippets
        then dict_set formatted (lit "match_snippets")
                      (VList (slice_to snippets 3))
        else formatted in
      score <- _calculate_relevance_score content query (Some (get_tags m));;
      Ok (dict_set formatted (lit "relevance_score") (VFloat score))
    else Ok formatted
  else
    let truncated_content := slice_to content (content_max_length params) in
    let truncated_content :=
      if len content >? content_max_length params
      then truncated_content ++ lit "..."
      else truncated_content in
    Ok (dict_set formatted (lit "content") (VStr truncated_content)).

(** [EnhancedMemos._apply_response_format] *)
Definition _apply_response_format (m : memo)
    (params : EnhancedMemosSearchParams) (query : str) : result dict :=
  let memo_id := get_str (m_name m) in
  match response_format params with
  | ID_ONLY => Ok [(lit "id", VStr memo_id)]
  | fmt =>
      let formatted :=
        [(lit "id", VStr memo_id);
         (lit "createTime", VStr (get_str (m_createTime m)));
         (lit "updateTime", VStr (get_str (m_updateTime m)))] in
      let content := get_str (m_content m) in
      formatted <-
        match fmt with
        | MINIMAL =>
            let first_line :=
              if truthy content
              then slice_to (hd [] (split_lines content)) 100 else [] in
            let formatted :=
              dict_set formatted (lit "snippet") (VStr first_line) in
            Ok (dict_set formatted (lit "tags") (VList (get_tags m)))
        | SUMMARY =>
            formatted <- summary_content m params query formatted;;
            let formatted :=
              dict_set formatted (lit "tags") (VList (get_tags m)) in
            Ok (dict_set formatted (lit "snippet")
                         (VStr (get_str (m_snippet m))))
        | _ => Ok (fold_left (copy_field m) (fields params) formatted)
        end;;
      Ok (if dict_has formatted (lit "nodes") &&
             negb (ResponseFormat_eqb fmt FULL)
          then dict_del formatted (lit "nodes")
          else formatted)
  end.

(* ================================================================== *)
(** * The search operation *)
(* ================================================================== *)

(** The key of the first sort: [x.get("createTime", "")]. *)
Definition createTime_key (m : memo) : str := get_str (m_createTime m).

(** The key of the second sort: [x.get('relevance_score', 0)]. *)
Definition relevance_key (formatted : dict) : pyval :=
  match dict_get formatted (lit "relevance_score") with
  | Some v => v
  | None => VInt 0
  end.

(** The condition of the relevance sort. *)
Definition resort_condition (params : EnhancedMemosSearchParams)
    (formatted_memos : list dict) : bool :=
  truthy (query params) &&
  existsb (fun memo => dict_has memo (lit "relevance_score")) formatted_memos.

(** [EnhancedMemos.search_memos_enhanced], from the decoded answer of the
    store ([all_memos]) on. *)
Definition search_memos_enhanced (all_memos : list memo)
    (params : EnhancedMemosSearchParams) : result SearchResponse :=
  let filtered_memos := filter_stage all_memos params in
  let filtered_memos := sort_desc createTime_key str_ltb filtered_memos in
  let '(paginated_memos, has_more, total_count) :=
    _paginate_results filtered_memos params in
  formatted_memos <-
    mapM (fun memo => _apply_response_format memo params (query params))
         paginated_memos;;
  formatted_memos <-
    (if resort_condition params formatted_memos
     then sort_desc_r relevance_key py_lt formatted_memos
     else Ok formatted_memos);;
  let next_offset :=
    if has_more then offset params + limit params else -1 in
  Ok {| memos := formatted_memos;
        total_count := total_count;
        has_more := has_more;
        next_offset := next_offset;
        query_metadata :=
          [(lit "query", VStr (query params));
           (lit "limit", VInt (limit params));
           (lit "offset", VInt (offset params));
           (lit "format", VStr (format_value (response_format params)));
           (lit "filtered_count", VInt total_count);
           (lit "returned_count", VInt (len formatted_memos))] |}.

(* ================================================================== *)
(** * Example inputs *)
(* ================================================================== *)

Module Examples.

(** A record with the typed fields given and no other key. *)
Definition note (name content createTime : string) (tags : list str) : memo :=
  {| m_name := Some (lit name); m_content := Some (lit content);
     m_tags := Some tags; m_createTime := Some (lit createTime);
     m_updateTime := None; m_snippet := None; m_extra := [] |}.

(** Parameters with the defaults of the dataclass except those given. *)
Definition params_of (q : string) (lim off : Z) (fmt : ResponseFormat)
  : EnhancedMemosSearchParams :=
  mk_params (lit q) lim off default_fields false 500 None None [] fmt false.

Definition three_notes : list memo :=
  [note "memos/1" "alpha beta" "2024-01-01" [];
   note "memos/2" "beta beta alpha" "2024-01-03" [];
   note "memos/3" "gamma" "2024-01-02" []].

(** Two records whose order by relevance to "beta" is the reverse of
    their order by creation time. *)
Definition two_notes : list memo :=
  [note "memos/1" "beta beta alpha" "2024-01-01" [];
   note "memos/2" "alpha beta" "2024-01-03" []].

(** A record of the store that has a key [relevance_score] of its own. *)
Definition scored_note (name content createTime : string) (score : Z) : memo :=
  {| m_name := Some (lit name); m_content := Some (lit content);
     m_tags := None; m_createTime := Some (lit createTime);
     m_updateTime := None; m_snippet := None;
     m_extra := [(lit "relevance_score", VInt score)] |}.

Definition scored_notes : list memo :=
  [scored_note "memos/1" "alpha" "2024-01-02" 1;
   scored_note "memos/2" "alpha" "2024-01-01" 5].

(** FULL format, the field [relevance_score] asked for. *)
Definition scored_params : EnhancedMemosSearchParams :=
  mk_params (lit "alpha") 10 0 [lit "id"; lit "relevance_score"] false 500
            None None [] FULL false.

(** A title followed by one list item: "T", a line feed, "* item". *)
Definition title_and_item : str := lit "T" ++ [newline] ++ lit "* item".

Definition title_and_item_note : memo :=
  {| m_name := Some (lit "memos/9"); m_content := Some title_and_item;
     m_tags := None; m_createTime := None; m_updateTime := None;
     m_snippet := None; m_extra := [] |}.

End Examples.

(** The records the paginate stage of the search selects: the filtered
    collection, sorted by creation time, sliced. *)
Definition selected_page (all_memos : list memo)
    (params : EnhancedMemosSearchParams) : list memo :=
  page_of (sort_desc createTime_key str_ltb (filter_stage all_memos params))
          params.

(* ================================================================== *)
(** * Specification vocabulary *)
(* ================================================================== *)

(** [sub] occurs in [s] with [i] characters before it. *)
Definition OccursAt (sub s : str) (i : nat) : Prop :=
  exists pre post, s = pre ++ sub ++ post /\ length pre = i.

(** [sub] is a substring of [s]. *)
Definition Substring (sub s : str) : Prop :=
  exists pre post, s = pre ++ sub ++ post.

(** [i] is the first position where [sub] occurs in [s]. *)
Definition FirstOccurrence (sub s : str) (i : nat) : Prop :=
  OccursAt sub s i /\ forall j, (j < i)%nat -> ~ OccursAt sub s j.

(** [a <= b] in the lexicographic order on character codes. *)
Inductive lex_le : str -> str -> Prop :=
| lex_le_nil b : lex_le [] b
| lex_le_lt x a y b : (N_of_ascii x < N_of_ascii y)%N -> lex_le (x :: a) (y :: b)
| lex_le_eq x a b : lex_le a b -> lex_le (x :: a) (x :: b).

(** A record satisfies every active predicate of the parameters: the text
    predicate when the query is not empty, the tag predicate when the tag
    filter is not empty, and each date bound that is set (the source takes
    a bound that is [None] or the empty string as not set). *)
Definition satisfies (p : EnhancedMemosSearchParams) (m : memo) : Prop :=
  (query p <> [] ->
   Substring (lower (query p)) (lower (get_str (m_content m)))) /\
  (tags_filter p <> [] ->
   exists tag, In tag (tags_filter p) /\ In tag (get_tags m)) /\
  (forall d, date_from p = Some d -> d <> [] ->
             lex_le d (get_str (m_createTime m))) /\
  (forall d, date_to p = Some d -> d <> [] ->
             lex_le (get_str (m_createTime m)) d).

(** The same as a test. *)
Definition keeps (p : EnhancedMemosSearchParams) (m : memo) : bool :=
  (negb (truthy (query p)) ||
   contains (lower (get_str (m_content m))) (lower (query p))) &&
  (negb (truthy (tags_filter p)) ||
   existsb (fun tag => existsb (str_eqb tag) (get_tags m)) (tags_filter p)) &&
  (negb (truthy_opt (date_from p)) ||
   str_leb (get_str (date_from p)) (get_str (m_createTime m))) &&
  (negb (truthy_opt (date_to p)) ||
   str_leb (get_str (m_createTime m)) (get_str (date_to p))).

(** Every position at which [sub] occurs in [s], overlapping occurrences
    included, in increasing order; [i] is the position of the head of
    [s]. *)
Fixpoint occurrences_from (s sub : str) (i : Z) : list Z :=
  (if startswith s sub then [i] else []) ++
  match s with
  | [] => []
  | _ :: s' => occurrences_from s' sub (i + 1)
  end.

Definition occurrences (s sub : str) : list Z := occurrences_from s sub 0.

(** The pieces of [s] between the occurrences of a non-empty [sep] that a
    left-to-right scan without overlaps finds, as [s.split(sep)] returns
    them; [skip] counts the characters of the separator found last that
    are still to be passed, [cur] is the reversed piece under way. *)
Fixpoint pieces_scan (s sep : str) (skip : nat) (cur : str) : list str :=
  match s with
  | [] => [rev cur]
  | c :: s' =>
      match skip with
      | S k => pieces_scan s' sep k cur
      | O => if startswith s sep
             then rev cur :: pieces_scan s' sep (length sep - 1) []
             else pieces_scan s' sep 0 (c :: cur)
      end
  end.

Definition pieces (s sep : str) : list str := pieces_scan s sep 0 [].

(** The emphasis marking as C5 words it: the marker is put around the
    first occurrence of [matched] in the snippet and nowhere else. *)
Definition mark_first_occurrence (snippet matched : str) : str :=
  let pos := find snippet matched in
  if pos =? -1 then snippet
  else slice_to snippet pos ++ lit "**" ++ matched ++ lit "**"
       ++ slice_from snippet (pos + len matched).

(** A float that is not negative: a zero, a positive finite number or the
    positive infinity. *)
Definition nonneg (x : spec_float) : bool :=
  match x with
  | S754_zero _ => true
  | S754_infinity s => negb s
  | S754_nan => false
  | S754_finite s _ _ => negb s
  end.

(** A float of a value in [0, 1]. *)
Definition unit_range (x : spec_float) : Prop :=
  match x with
  | S754_zero _ => True
  | S754_finite false m e => e <= 0 /\ Z.pos m <= 2 ^ (- e)
  | _ => False
  end.

(** The first line of a content: what precedes its first line feed. *)
Fixpoint before_newline (s : str) : str :=
  match s with
  | [] => []
  | c :: s' => if ascii_dec c newline then [] else c :: before_newline s'
  end.

(** The tags of a call of the score, [None] being no tags. *)
Definition tags_of (tags : option (list str)) : list str :=
  match tags with Some l => l | None => [] end.

(** The place of a float that is not a NaN in the order of [SFcompare]:
    a class for sign and kind, then exponent and mantissa. *)
Definition float_rank (x : float) : Z * Z * Z :=
  match x with
  | S754_zero _ => (0, 0, 0)
  | S754_infinity false => (2, 0, 0)
  | S754_infinity true => (-2, 0, 0)
  | S754_nan => (0, 0, 0)
  | S754_finite false m e => (1, e, Z.pos m)
  | S754_finite true m e => (-1, - e, - Z.pos m)
  end.

Definition rank_compare (a b : Z * Z * Z) : comparison :=
  let '(a1, a2, a3) := a in
  let '(b1, b2, b3) := b in
  match a1 ?= b1 with
  | Eq => match a2 ?= b2 with
          | Eq => a3 ?= b3
          | c => c
          end
  | c => c
  end.

Definition is_nan (x : float) : bool :=
  match x with S754_nan => true | _ => false end.


(** [a < b] on values as a test, an exception counting as false. *)
Definition pyval_ltb (a b : pyval) : bool :=
  match py_lt a b with Ok b => b | Err _ => false end.

(** [a <= b] on two values that are floats. *)
Definition pyval_fleb (a b : pyval) : bool :=
  match a, b with
  | VFloat x, VFloat y => fleb x y
  | _, _ => false
  end.

(** The order of a page sorted by relevance: no later note has a higher
    score. *)
Definition score_desc (a b : dict) : Prop :=
  pyval_fleb (relevance_key b) (relevance_key a) = true.

(** The order of a page sorted by creation time: no later record is
    newer. *)
Definition createTime_desc (a b : memo) : Prop :=
  str_leb (createTime_key b) (createTime_key a) = true.

(** The identifier a formatted note carries. *)
Definition id_of (formatted : dict) : option pyval :=
  dict_get formatted (lit "id").

(** A key that is a float and no NaN. *)
Definition float_key (k : pyval) : Prop :=
  exists x, k = VFloat x /\ is_nan x = false.

(* ================================================================== *)
(** * The callers of the search *)
(* ================================================================== *)

(** [EnhancedMemos.search_memos], the backward compatible search. *)
Definition search_memos (all_memos : list memo) (query : str)
  : result (list dict) :=
  let params :=
    mk_params query 20 0 default_fields false 500 None None [] FULL false in
  response <- search_memos_enhanced all_memos params;;
  Ok (memos response).

(** [EnhancedMemos.get_latest_memos] *)
Definition get_latest_memos (all_memos : list memo) (limit : Z)
  : result (list dict) :=
  let params :=
    mk_params [] limit 0 default_fields false 500 None None [] SUMMARY false in
  response <- search_memos_enhanced all_memos params;;
  Ok (memos response).

(** [EnhancedMemos.get_memos_by_tag] *)
Definition get_memos_by_tag (all_memos : list memo) (tag : str) (limit : Z)
  : result (list dict) :=
  let tag := if negb (startswith tag (lit "#")) then lit "#" ++ tag else tag in
  let params :=
    mk_params [] limit 0 default_fields false 500 None None
              [replace tag (lit "#") []] SUMMARY false in
  response <- search_memos_enhanced all_memos params;;
  Ok (memos response).

(* ================================================================== *)
(** * The write paths and the memo identifiers *)
(* ================================================================== *)

(** The content of the payload of [create_memo] and [update_memo]: the
    tags, when there are any, go after a blank line, joined by spaces. *)
Definition formatted_content (content : str) (tags : option (list str)) : str :=
  match tags with
  | Some ((_ :: _) as tags) =>
      content ++ ([newline; newline] ++ join (lit " ") tags)
  | _ => content
  end.

Definition slash : ascii := ascii_of_N 47.

(** The name [get_memo_by_id], [update_memo] and [delete_memo] put in the
    address: [memo_id.split("/")[1]] for an id that starts with "memos/",
    the id itself otherwise. *)
Definition memo_name_of (memo_id : str) : result str :=
  if startswith memo_id (lit "memos/")
  then getitem_r (split_char slash memo_id) 1
  else Ok memo_id.

(* ================================================================== *)
(** * The tools of [main_enhanced.py] *)
(* ================================================================== *)

(** The [format_map] of the tool [search_memos_enhanced]. *)
Definition format_map : list (str * ResponseFormat) :=
  [(lit "id_only", ID_ONLY); (lit "minimal", MINIMAL);
   (lit "summary", SUMMARY); (lit "full", FULL)].

(** The [format_map] of the tools [get_latest_memos] and
    [get_memos_by_tag], which has no entry for "id_only". *)
Definition format_map_short : list (str * ResponseFormat) :=
  [(lit "minimal", MINIMAL); (lit "summary", SUMMARY); (lit "full", FULL)].

(** [map.get(key, default)] *)
Fixpoint map_get (map : list (str * ResponseFormat)) (key : str)
    (default : ResponseFormat) : ResponseFormat :=
  match map with
  | [] => default
  | (k, v) :: map' => if str_eq_dec key k then v else map_get map' key default
  end.

(** [format_map.get(response_format.lower(), ResponseFormat.SUMMARY)] *)
Definition parse_format (response_format : str) : ResponseFormat :=
  map_get format_map (lower response_format) SUMMARY.

Definition parse_format_short (response_format : str) : ResponseFormat :=
  map_get format_map_short (lower response_format) SUMMARY.

(** The parameters the tool [search_memos_enhanced] builds. *)
Definition tool_search_params (query : str) (limit offset : Z)
    (response_format : str) (content_max_length : Z)
    (date_from date_to : option str) (tags_filter : option (list str))
  : EnhancedMemosSearchParams :=
  let format_enum := parse_format response_format in
  mk_params query (if 50 <? limit then 50 else limit) offset default_fields
            (ResponseFormat_eqb format_enum SUMMARY) content_max_length
            date_from date_to
            (match tags_filter with
             | Some ((_ :: _) as l) => l
             | _ => []
             end)
            format_enum false.

(** The tags the tool [create_memo] passes on: the default tag is appended
    unless it is among them. *)
Definition tags_with_default (DEFAULT_TAG : str) (tags : list str) : list str :=
  if existsb (str_eqb DEFAULT_TAG) tags then tags else tags ++ [DEFAULT_TAG].

(** The content of the payload of a memo the tool [create_memo] creates. *)
Definition tool_create_content (DEFAULT_TAG content : str) (tags : list str)
  : str :=
  formatted_content content (Some (tags_with_default DEFAULT_TAG tags)).

(* ================================================================== *)
(** * The first client, [memos.py] *)
(* ================================================================== *)

Module Memos.

(** [Memos.search_memos], from the decoded answer of the store on. *)
Definition search_memos (memos : list memo) (query : str) : list memo :=
  if truthy query
  then filter (fun memo => contains (lower (get_str (m_content memo)))
                                    (lower query)) memos
  else memos.

(** [tag.lstrip("#")] *)
Fixpoint lstrip_hash (tag : str) : str :=
  match tag with
  | c :: tag' => if ascii_dec c (ascii_of_N 35) then lstrip_hash tag' else tag
  | [] => []
  end.

(** The two tests of the loop of [get_memos_by_tag]: the tag without its
    leading marks is one of the tags, or the tag occurs in the content. *)
Definition tag_matches (tag : str) (memo : memo) : bool :=
  if existsb (str_eqb (lstrip_hash tag)) (get_tags memo) then true
  else contains (get_str (m_content memo)) tag.

(** The [for memo in all_memos] loop of [get_memos_by_tag] with its
    [break]; [tagged_memos] is the list built so far. *)
Fixpoint tag_loop (tag : str) (limit : Z) (all_memos tagged_memos : list memo)
  : list memo :=
  match all_memos with
  | [] => tagged_memos
  | memo :: rest =>
      let tagged_memos :=
        if existsb (str_eqb (lstrip_hash tag)) (get_tags memo)
        then tagged_memos ++ [memo]
        else if contains (get_str (m_content memo)) tag
             then tagged_memos ++ [memo]
             else tagged_memos in
      if len tagged_memos >=? limit then tagged_memos
      else tag_loop tag limit rest tagged_memos
  end.

(** [Memos.get_memos_by_tag], from the decoded answer of the store on. *)
Definition get_memos_by_tag (all_memos : list memo) (tag : str) (limit : Z)
  : list memo :=
  let tag := if negb (startswith tag (lit "#")) then lit "#" ++ tag else tag in
  slice_to (tag_loop tag limit all_memos []) limit.

End Memos.

(* ================================================================== *)
(** * Vocabulary of the further properties *)
(* ================================================================== *)

(** The keys of a dict, in insertion order. *)
Definition keys (d : dict) : list str := map fst d.

(** The mark of a tag. *)
Definition hash : ascii := ascii_of_N 35.

(** A tag with every mark removed. *)
Definition without_hashes (tag : str) : str :=
  filter (fun c => negb (Ascii.eqb c hash)) tag.

(** What precedes the first [sep] of [s], all of [s] when it has none. *)
Fixpoint before (sep : ascii) (s : str) : str :=
  match s with
  | [] => []
  | c :: s' => if ascii_dec c sep then [] else c :: before sep s'
  end.

(** What the two passes keep true of the parts: the title stays first,
    every part after it is a stripped, non-empty line of the content, and
    once a part was added the parts joined fit in the remaining length. *)
Definition parts_ok (content : str) (remaining : Z) (parts : list str) : Prop :=
  exists rest,
    parts = before_newline content :: rest /\
    Forall (fun line => line <> [] /\
                        exists l, In l (split_lines content) /\ line = strip l)
           rest /\
    (rest <> [] -> len (join (lit " ") parts) <= remaining).

(** 0.1 as a binary64 number. *)
Definition f_tenth : float := S754_finite false 7205759403792794 (-56).

(** The tool [get_latest_memos] of [main_enhanced.py], from the decoded
    answer of the store on. *)
Definition tool_get_latest_memos (all_memos : list memo) (limit : Z)
    (response_format : str) : result (list dict) :=
  let limit := if limit >? 20 then 20 else limit in
  let format_enum := parse_format_short response_format in
  let params :=
    mk_params [] limit 0 default_fields false 300 None None [] format_enum
              false in
  response <- search_memos_enhanced all_memos params;;
  Ok (memos response).

(** The tool [get_memos_by_tag] of [main_enhanced.py]. *)
Definition tool_get_memos_by_tag (all_memos : list memo) (tag : str)
    (limit : Z) (response_format : str) : result (list dict) :=
  let limit := if limit >? 20 then 20 else limit in
  let tag := if negb (startswith tag (lit "#")) then lit "#" ++ tag else tag in
  let format_enum := parse_format_short response_format in
  let params :=
    mk_params [] limit 0 default_fields false 400 None None
              [replace tag (lit "#") []] format_enum false in
  response <- search_memos_enhanced all_memos params;;
  Ok (memos response).


(** The notes whose score equals [v], as floats compare. *)
Definition same_score (v : float) (note : dict) : bool :=
  match relevance_key note with
  | VFloat x => SFeqb x v
  | _ => false
  end.

(** [s.isascii()]: every character is below U+0080. *)
Definition isascii (s : str) : bool :=
  forallb (fun c => (N_of_ascii c <? 128)%N) s.

(* ================================================================== *)
(** * Text beyond ASCII *)
(* ================================================================== *)

(** [_extract_snippet_around_match] once more, on a [str] as the list of
    its code points, for text that a [list ascii] cannot hold.  Of all
    code points U+0130, the capital I with a dot above, is the only one
    that [str.lower()] turns into two (U+0069 U+0307), so that a position
    found in [content.lower()] is no longer the same position of
    [content].  [lower] and [isalnum] are Python's on the code points
    below U+0100, on U+0130 and on U+0307; they are used on no other. *)
Module Wide.

Definition str := list N.

Definition lit (s : string) : str := map N_of_ascii (list_ascii_of_string s).

(** U+0130 and what [lower] makes of it. *)
Definition capital_i_dot : N := 304.
Definition small_i : N := 105.
Definition combining_dot : N := 775.

(** [s.startswith(p)] *)
Fixpoint startswith (s p : str) : bool :=
  match p, s with
  | [], _ => true
  | _ :: _, [] => false
  | a :: p', b :: s' => if N.eq_dec a b then startswith s' p' else false
  end.

Fixpoint find_at (s sub : str) (i : Z) : Z :=
  if startswith s sub then i
  else match s with
       | [] => -1
       | _ :: s' => find_at s' sub (i + 1)
       end.

(** [s.find(sub, start)] *)
Definition find_from (s sub : str) (start : Z) : Z :=
  let n := len s in
  let st := if start <? 0 then Z.max 0 (start + n) else start in
  if n <? st then -1 else find_at (skipn (Z.to_nat st) s) sub st.

Fixpoint replace_scan (s old new : str) (skip : nat) : str :=
  match s with
  | [] => []
  | c :: s' =>
      match skip with
      | S k => replace_scan s' old new k
      | O => if startswith s old
             then new ++ replace_scan s' old new (length old - 1)
             else c :: replace_scan s' old new 0
      end
  end.

(** [s.replace(old, new)] *)
Definition replace (s old new : str) : str :=
  match old with
  | [] => new ++ flat_map (fun c => c :: new) s
  | _ :: _ => replace_scan s old new 0
  end.

Definition is_upper (c : N) : bool :=
  between 65 90 c || between 192 214 c || between 216 222 c.

Definition isalpha (c : N) : bool :=
  between 65 90 c || between 97 122 c ||
  (c =? 170)%N || (c =? 181)%N || (c =? 186)%N ||
  between 192 214 c || between 216 246 c || between 248 255 c ||
  (c =? capital_i_dot)%N.

Definition isnumeric (c : N) : bool :=
  between 48 57 c || between 178 179 c || (c =? 185)%N || between 188 190 c.

(** [c.isalnum()]: U+0130 is a letter, U+0307 a combining mark. *)
Definition isalnum (c : N) : bool := isalpha c || isnumeric c.

(** [c.lower()], one or two code points. *)
Definition lower_char (c : N) : str :=
  if is_upper c then [(c + 32)%N]
  else if (c =? capital_i_dot)%N then [small_i; combining_dot]
  else [c].

(** [s.lower()] *)
Definition lower (s : str) : str := flat_map lower_char s.

Fixpoint extend_start (content : str) (n : nat) : result Z :=
  match n with
  | O => Ok 0
  | S n' =>
      c <- getitem_r content (Z.of_nat n - 1);;
      if isalnum c then extend_start content n' else Ok (Z.of_nat n)
  end.

Fixpoint extend_end (fuel : nat) (content : str) (snippet_end : Z) : result Z :=
  if snippet_end <? len content then
    match fuel with
    | O => Err OutOfFuel
    | S fuel' =>
        c <- getitem_r content snippet_end;;
        if isalnum c then extend_end fuel' content (snippet_end + 1)
        else Ok snippet_end
    end
  else Ok snippet_end.

Definition highlight (snippet matched : str) : str :=
  replace snippet matched (lit "**" ++ matched ++ lit "**").

(** The body of the scan loop for the match at [pos], a position of
    [content.lower()] that lines 324 to 344 use on [content]. *)
Definition snippet_at (content query : str) (context_chars pos : Z)
  : result str :=
  let snippet_start := Z.max 0 (pos - context_chars) in
  let snippet_end := Z.min (len content) (pos + len query + context_chars) in
  snippet_start <- extend_start content (Z.to_nat snippet_start);;
  snippet_end <- extend_end (Z.to_nat (len content - snippet_end)) content
                            snippet_end;;
  let snippet := slice content snippet_start snippet_end in
  let snippet := if snippet_start >? 0 then lit "..." ++ snippet else snippet in
  let snippet := if snippet_end <? len content then snippet ++ lit "..."
                 else snippet in
  Ok (highlight snippet (slice content pos (pos + len query))).

Fixpoint scan_matches (fuel : nat) (content query content_lower query_lower : str)
    (context_chars start : Z) (snippets : list str) : result (list str) :=
  match fuel with
  | O => Err OutOfFuel
  | S fuel' =>
      let pos := find_from content_lower query_lower start in
      if pos =? -1 then Ok snippets
      else
        highlighted <- snippet_at content query context_chars pos;;
        scan_matches fuel' content query content_lower query_lower
                     context_chars (pos + 1) (snippets ++ [highlighted])
  end.

(** [EnhancedMemos._extract_snippet_around_match]; the scan finds at most
    one match for each position of the lowered content. *)
Definition _extract_snippet_around_match (content query : str)
    (context_chars : Z) : result (list str) :=
  if negb (truthy query) || negb (truthy content) then Ok []
  else
    let query_lower := lower query in
    let content_lower := lower content in
    scan_matches (S (length content_lower)) content query content_lower
                 query_lower context_chars 0 [].

(** A text of [list ascii] as its code points. *)
Definition of_ascii (s : PyStr.str) : str := map N_of_ascii s.

End Wide.

(** Inputs beyond ASCII. *)
Module WideExamples.

(** Two capital I with a dot above, a space, an x. *)
Definition two_dotted : Wide.str :=
  [Wide.capital_i_dot; Wide.capital_i_dot] ++ Wide.lit " x".

(** Fifty-two capital I with a dot above, a space, an x. *)
Definition many_dotted : Wide.str :=
  repeat Wide.capital_i_dot 52 ++ Wide.lit " x".

(** A capital I with a dot above, then "stanbul trip". *)
Definition istanbul_trip : Wide.str :=
  Wide.capital_i_dot :: Wide.lit "stanbul trip".

End WideExamples.

(* ================================================================== *)
(** * Part II: facts and theorems *)
(* ================================================================== *)

(** ** Slices *)

Section SliceFacts.
Context {A : Type}.
Implicit Types (s : list A) (lo hi : Z).

Lemma len_nonneg s : 0 <= len s.
Proof. unfold len; lia. Qed.

Lemma clip_index_nonneg s i : 0 <= i -> clip_index (len s) i = Z.min i (len s).
Proof. intros Hi; unfold clip_index. destruct (Z.ltb_spec i 0); lia. Qed.

(** A slice with bounds that are not negative takes [hi - lo] elements
    after dropping [lo], whatever the length of the list. *)
Lemma slice_nonneg s lo hi :
  0 <= lo -> lo <= hi ->
  slice s lo hi = firstn (Z.to_nat (hi - lo)) (skipn (Z.to_nat lo) s).
Proof.
  intros Hlo Hhi. unfold slice.
  rewrite !clip_index_nonneg by lia.
  rewrite skipn_firstn_comm. unfold len.
  destruct (Z.le_gt_cases (Z.of_nat (length s)) lo) as [Hge | Hlt].
  - rewrite (skipn_all2 s) by lia.
    rewrite (skipn_all2 s) by lia.
    now rewrite !firstn_nil.
  - replace (Z.to_nat (Z.min lo (Z.of_nat (length s)))) with (Z.to_nat lo) by lia.
    destruct (Z.le_gt_cases hi (Z.of_nat (length s))) as [Hh | Hh].
    + f_equal; lia.
    + rewrite !firstn_all2; trivial; rewrite length_skipn; lia.
Qed.

Lemma slice_to_nonneg s hi :
  0 <= hi -> slice_to s hi = firstn (Z.to_nat hi) s.
Proof.
  intros Hhi. unfold slice_to. rewrite clip_index_nonneg by trivial.
  unfold len. destruct (Z.le_gt_cases hi (Z.of_nat (length s))).
  - f_equal; lia.
  - rewrite !firstn_all2; trivial; lia.
Qed.

Lemma slice_from_nonneg s lo :
  0 <= lo -> slice_from s lo = skipn (Z.to_nat lo) s.
Proof.
  intros Hlo. unfold slice_from. rewrite clip_index_nonneg by trivial.
  unfold len. destruct (Z.le_gt_cases lo (Z.of_nat (length s))).
  - f_equal; lia.
  - rewrite !skipn_all2; trivial; lia.
Qed.

Lemma slice_from_1 a s : slice_from (a :: s) 1 = s.
Proof. now rewrite slice_from_nonneg by lia. Qed.

End SliceFacts.

(* ================================================================== *)
(** * Search parameters *)
(* ================================================================== *)

Lemma post_init_limit p : 1 <= limit (post_init p) <= 50.
Proof.
  unfold post_init; simpl.
  destruct (Z.gtb_spec (limit p) 50);
    match goal with |- context [?a <? 1] => destruct (Z.ltb_spec a 1) end; lia.
Qed.

Lemma post_init_offset p : 0 <= offset (post_init p).
Proof. unfold post_init; simpl. destruct (Z.ltb_spec (offset p) 0); lia. Qed.

Lemma post_init_limit_le_50 p :
  0 < limit p <= 50 -> limit (post_init p) = limit p.
Proof.
  intros H. unfold post_init; simpl.
  destruct (Z.gtb_spec (limit p) 50); [lia|].
  destruct (Z.ltb_spec (limit p) 1); lia.
Qed.

Lemma post_init_limit_gt_50 p : 50 < limit p -> limit (post_init p) = 50.
Proof.
  intros H. unfold post_init; simpl.
  destruct (Z.gtb_spec (limit p) 50); [reflexivity | lia].
Qed.

Lemma post_init_offset_nonneg p : 0 <= offset p -> offset (post_init p) = offset p.
Proof.
  intros H. unfold post_init; simpl.
  destruct (Z.ltb_spec (offset p) 0); lia.
Qed.

(* ================================================================== *)
(** * Paginate stage: facts *)
(* ================================================================== *)

Section Paginate.
Context {A : Type}.
Implicit Types (items : list A) (p : EnhancedMemosSearchParams).

Lemma page_of_window items p :
  0 <= offset p -> 0 <= limit p ->
  page_of items p
  = firstn (Z.to_nat (limit p)) (skipn (Z.to_nat (offset p)) items).
Proof.
  intros Ho Hl. unfold page_of, _paginate_results; simpl.
  rewrite slice_nonneg by lia. do 2 f_equal; lia.
Qed.

Lemma page_of_nth items p i :
  0 <= offset p -> 0 <= limit p ->
  nth_error (page_of items p) i
  = if Z.of_nat i <? limit p
    then nth_error items (Z.to_nat (offset p) + i)
    else None.
Proof.
  intros Ho Hl. rewrite page_of_window by trivial.
  rewrite nth_error_firstn, nth_error_skipn.
  destruct (Nat.ltb_spec i (Z.to_nat (limit p)));
    destruct (Z.ltb_spec (Z.of_nat i) (limit p)); trivial; lia.
Qed.

Lemma page_of_beyond items p :
  0 <= offset p -> 0 <= limit p -> len items <= offset p ->
  page_of items p = [].
Proof.
  intros Ho Hl Hb. rewrite page_of_window by trivial.
  rewrite skipn_all2 by (unfold len in Hb; lia). apply firstn_nil.
Qed.

(** The slice itself is the identity when the record holds the length of
    the list as limit, whatever that length. *)
Lemma page_of_whole items p :
  offset p = 0 -> limit p = len items ->
  page_of items p = items /\ has_more_of items p = false.
Proof.
  intros Ho Hl. pose proof (len_nonneg items) as Hn. split.
  - rewrite page_of_window by lia. rewrite Ho, Hl.
    change (Z.to_nat 0) with 0%nat. rewrite skipn_O.
    apply firstn_all2. unfold len. lia.
  - unfold has_more_of, _paginate_results; cbn [fst snd]. rewrite Ho, Hl.
    apply Z.ltb_ge. lia.
Qed.

Lemma page_of_length items p :
  0 <= offset p -> 0 <= limit p -> len (page_of items p) <= limit p.
Proof.
  intros Ho Hl. rewrite page_of_window by trivial. unfold len.
  rewrite length_firstn. lia.
Qed.

End Paginate.

(** The scenario of the specification: twelve items, limit 5, offset 10. *)
Example paginate_last_page :
  _paginate_results [1; 2; 3; 4; 5; 6; 7; 8; 9; 10; 11; 12]
                    (Examples.params_of "" 5 10 SUMMARY)
  = ([11; 12], false, 12).
Proof. reflexivity. Qed.

(* ================================================================== *)
(** ** The result monad *)
(* ================================================================== *)

Lemma bind_Ok_inv {A B} (r : result A) (k : A -> result B) b :
  (x <- r;; k x) = Ok b -> exists a, r = Ok a /\ k a = Ok b.
Proof. destruct r as [a | e]; simpl; [eauto | discriminate]. Qed.

Ltac inv_bind H :=
  let a := fresh "a" in
  let Ha := fresh "Ha" in
  apply bind_Ok_inv in H; destruct H as (a & Ha & H).

Lemma mapM_Ok_inv {A B} (f : A -> result B) l bs :
  mapM f l = Ok bs -> Forall2 (fun a b => f a = Ok b) l bs.
Proof.
  revert bs; induction l as [| a l IH]; simpl; intros bs H.
  - injection H as <-. constructor.
  - inv_bind H. inv_bind H. injection H as <-. constructor; auto.
Qed.

Lemma mapM_total {A B} (f : A -> result B) l :
  Forall (fun a => exists b, f a = Ok b) l -> exists bs, mapM f l = Ok bs.
Proof.
  induction 1 as [| a l [b Hb] _ [bs IH]]; simpl.
  - eauto.
  - rewrite Hb, IH. simpl. eauto.
Qed.

Lemma mapM_length {A B} (f : A -> result B) l bs :
  mapM f l = Ok bs -> length bs = length l.
Proof. intros H. apply mapM_Ok_inv in H. symmetry. eapply Forall2_length; eauto. Qed.

(* ================================================================== *)
(** ** Sorting: both sorts permute their argument *)
(* ================================================================== *)

Section SortPerm.
Context {A K : Type}.
Variable key : A -> K.

Lemma insert_desc_perm ltb x l :
  Permutation (insert_desc key ltb x l) (x :: l).
Proof.
  induction l as [| y l IH]; simpl; [reflexivity|].
  destruct (ltb (key x) (key y)); [|reflexivity].
  rewrite IH. apply perm_swap.
Qed.

Lemma sort_desc_perm ltb l : Permutation (sort_desc key ltb l) l.
Proof.
  induction l as [| x l IH]; simpl; [reflexivity|].
  rewrite insert_desc_perm. now constructor.
Qed.

Lemma sort_desc_length ltb l : length (sort_desc key ltb l) = length l.
Proof. apply Permutation_length, sort_desc_perm. Qed.

Lemma insert_desc_r_perm lt x l r :
  insert_desc_r key lt x l = Ok r -> Permutation r (x :: l).
Proof.
  revert r; induction l as [| y l IH]; simpl; intros r H.
  - injection H as <-. reflexivity.
  - inv_bind H. destruct a.
    + inv_bind H. injection H as <-.
      rewrite (IH _ Ha0). apply perm_swap.
    + injection H as <-. reflexivity.
Qed.

Lemma sort_desc_r_perm lt l r :
  sort_desc_r key lt l = Ok r -> Permutation r l.
Proof.
  revert r; induction l as [| x l IH]; simpl; intros r H.
  - injection H as <-. reflexivity.
  - inv_bind H. rewrite (insert_desc_r_perm _ _ _ _ H).
    constructor. now apply IH.
Qed.
End SortPerm.

(* ================================================================== *)
(** ** The search operation, step by step *)
(* ================================================================== *)

(** What an answer of the search is made of. *)
Lemma search_memos_enhanced_inv all_memos p r :
  search_memos_enhanced all_memos p = Ok r ->
  exists formatted,
    mapM (fun memo => _apply_response_format memo p (query p))
         (selected_page all_memos p) = Ok formatted /\
    (if resort_condition p formatted
     then sort_desc_r relevance_key py_lt formatted
     else Ok formatted) = Ok (memos r) /\
    total_count r = len (filter_stage all_memos p) /\
    has_more r = (offset p + limit p <? len (filter_stage all_memos p)) /\
    next_offset r = (if has_more r then offset p + limit p else -1).
Proof.
  unfold search_memos_enhanced, selected_page, page_of, _paginate_results.
  cbn zeta; simpl fst. intros H.
  inv_bind H. inv_bind H. injection H as <-. simpl.
  exists a. unfold len. rewrite !sort_desc_length. auto.
Qed.

(** C1 (paginate stage). For parameters built by the constructor, the page
    is the window of indices [offset, offset + limit) of the list, clipped
    to its bounds and empty when the offset is at or beyond its length;
    the total is the length of the list; hasMore holds exactly when
    [offset + limit < total]; and the search operation answers
    [offset + limit] as next offset when hasMore holds and [-1] when it
    does not. *)
Theorem C1_paginate_window :
  forall (q : str) (lim off : Z) (flds : list str) (so : bool) (cml : Z)
         (df dt : option str) (tf : list str) (fmt : ResponseFormat)
         (gbt : bool),
    let p := mk_params q lim off flds so cml df dt tf fmt gbt in
    (forall (A : Type) (items : list A),
        (forall i : nat,
            nth_error (page_of items p) i
            = if Z.of_nat i <? limit p
              then nth_error items (Z.to_nat (offset p) + i)
              else None) /\
        page_of items p
        = firstn (Z.to_nat (limit p)) (skipn (Z.to_nat (offset p)) items) /\
        (len items <= offset p -> page_of items p = []) /\
        total_of items p = len items /\
        (has_more_of items p = true <-> offset p + limit p < len items)) /\
    (forall (all_memos : list memo) (r : SearchResponse),
        search_memos_enhanced all_memos p = Ok r ->
        total_count r = len (filter_stage all_memos p) /\
        (has_more r = true <-> offset p + limit p < total_count r) /\
        next_offset r = (if has_more r then offset p + limit p else -1)).
Proof.
  intros q lim off flds so cml df dt tf fmt gbt p.
  assert (Ho : 0 <= offset p) by apply post_init_offset.
  assert (Hl : 0 <= limit p) by (pose proof (post_init_limit
    {| query := q; limit := lim; offset := off; fields := flds;
       summary_only := so; content_max_length := cml; date_from := df;
       date_to := dt; tags_filter := tf; response_format := fmt;
       group_by_tag := gbt |}); unfold p, mk_params; lia).
  split.
  - intros A items. repeat split.
    + intros i. now apply page_of_nth.
    + now apply page_of_window.
    + now apply page_of_beyond.
    + unfold has_more_of, _paginate_results; simpl. apply Z.ltb_lt.
    + unfold has_more_of, _paginate_results; simpl. apply Z.ltb_lt.
  - intros all_memos r H.
    apply search_memos_enhanced_inv in H.
    destruct H as (formatted & _ & _ & Ht & Hm & Hn).
    repeat split; trivial.
    + rewrite Hm, Ht. apply Z.ltb_lt.
    + rewrite Hm, Ht. apply Z.ltb_lt.
Qed.

Lemma C1_paginate_window_witness :
  let p := Examples.params_of "beta" 1 0 SUMMARY in
  exists r,
    search_memos_enhanced Examples.three_notes p = Ok r /\
    total_count r = 2 /\ has_more r = true /\ next_offset r = 1.
Proof.
  intro p.
  destruct (search_memos_enhanced Examples.three_notes p) as [r | e] eqn:E.
  2: { vm_compute in E. discriminate E. }
  exists r. split; [reflexivity|].
  destruct (C1_paginate_window (lit "beta") 1 0 default_fields false 500
              None None [] SUMMARY false) as [_ H].
  destruct (H Examples.three_notes r E) as (Ht & Hm & Hn).
  assert (Hm' : has_more r = true).
  { apply Hm. rewrite Ht. vm_compute. reflexivity. }
  rewrite Hn, Hm', Ht. vm_compute. auto.
Defined.

(** C8 (paginate identity). For every list of items, the paginate stage
    called with offset 0 and a limit equal to the length of the list
    returns the whole list as page, hasMore false and the length as
    total.  The parameters are the ones the stage receives; what the
    constructor does to a limit is the matter of [post_init]. *)
Theorem C8_paginate_identity :
  forall (A : Type) (items : list A) (p : EnhancedMemosSearchParams),
    offset p = 0 -> limit p = len items ->
    _paginate_results items p = (items, false, len items) /\
    page_of items p = items /\
    has_more_of items p = false /\
    total_of items p = len items.
Proof.
  intros A items p Ho Hl.
  destruct (page_of_whole items p Ho Hl) as [Hpage Hmore].
  assert (Htotal : total_of items p = len items) by reflexivity.
  split; [|auto].
  rewrite (surjective_pairing (_paginate_results items p)).
  rewrite (surjective_pairing (fst (_paginate_results items p))).
  fold (page_of items p) (has_more_of items p) (total_of items p).
  now rewrite Hpage, Hmore, Htotal.
Qed.

Lemma C8_paginate_identity_witness :
  let items := [1; 2; 3] in
  let p := mk_params [] (len items) 0 default_fields false 500 None None []
                     SUMMARY false in
  offset p = 0 /\ limit p = len items /\
  _paginate_results items p = (items, false, len items).
Proof.
  intros items p.
  assert (Ho : offset p = 0) by reflexivity.
  assert (Hl : limit p = len items) by reflexivity.
  split; [exact Ho|]. split; [exact Hl|].
  exact (proj1 (C8_paginate_identity Z items p Ho Hl)).
Defined.

(* ================================================================== *)
(** ** Strings: prefixes, occurrences and [find] *)
(* ================================================================== *)

Lemma startswith_spec s p : startswith s p = true <-> exists t, s = p ++ t.
Proof.
  revert s; induction p as [| a p IH]; intros s; simpl.
  - split; [intros _; now exists s | now destruct s].
  - destruct s as [| b s]; simpl.
    + split; [discriminate | intros [t H]; discriminate H].
    + destruct (ascii_dec a b) as [<- | Hne].
      * split.
        -- intros H. apply IH in H as [t ->]. now exists t.
        -- intros [t H]. injection H as ->. apply IH. now exists t.
      * split; [discriminate | intros [t H]; injection H; congruence].
Qed.

Lemma startswith_nil s : startswith s [] = true.
Proof. now destruct s. Qed.

Lemma OccursAt_0 sub s : OccursAt sub s 0 <-> startswith s sub = true.
Proof.
  rewrite startswith_spec. split.
  - intros (pre & post & -> & Hl). destruct pre; [|discriminate]. now exists post.
  - intros [t ->]. now exists [], t.
Qed.

Lemma OccursAt_S sub c s j : OccursAt sub (c :: s) (S j) <-> OccursAt sub s j.
Proof.
  split.
  - intros (pre & post & H & Hl). destruct pre as [| c' pre]; [discriminate|].
    injection H as -> ->. injection Hl as Hl. now exists pre, post.
  - intros (pre & post & -> & Hl). exists (c :: pre), post. simpl. auto.
Qed.

Lemma OccursAt_nil_inv sub j : OccursAt sub [] j -> sub = [] /\ j = 0%nat.
Proof.
  intros (pre & post & H & Hl). symmetry in H.
  apply app_eq_nil in H as [-> H]. apply app_eq_nil in H as [-> _]. auto.
Qed.

Lemma OccursAt_bound sub s j :
  OccursAt sub s j -> (j + length sub <= length s)%nat.
Proof. intros (pre & post & -> & <-). rewrite !length_app. lia. Qed.

Lemma Substring_OccursAt sub s : Substring sub s <-> exists i, OccursAt sub s i.
Proof.
  split.
  - intros (pre & post & H). now exists (length pre), pre, post.
  - intros (i & pre & post & H & _). now exists pre, post.
Qed.

(** What the scan of [find] returns: [-1] when [sub] occurs nowhere, and
    otherwise the start index plus the first position where it occurs. *)
Lemma find_at_spec s sub i :
  (find_at s sub i = -1 /\ forall j, ~ OccursAt sub s j) \/
  (exists k, find_at s sub i = i + Z.of_nat k /\ FirstOccurrence sub s k).
Proof.
  revert i; induction s as [| c s IH]; intros i.
  - simpl. destruct sub as [| a sub]; simpl.
    + right. exists 0%nat. split; [lia|]. split; [|lia].
      now apply OccursAt_0.
    + left. split; trivial. intros j H. now apply OccursAt_nil_inv in H as [H _].
  - change (find_at (c :: s) sub i)
      with (if startswith (c :: s) sub then i else find_at s sub (i + 1)).
    destruct (startswith (c :: s) sub) eqn:E.
    + right. exists 0%nat. split; [lia|]. split; [|lia].
      now apply OccursAt_0.
    + destruct (IH (i + 1)) as [[H1 H2] | (k & H1 & H2 & H3)].
      * left. split; trivial. intros [| j] H.
        -- apply OccursAt_0 in H. congruence.
        -- apply OccursAt_S in H. now apply (H2 j).
      * right. exists (S k). split; [lia|]. split.
        -- now apply OccursAt_S.
        -- intros [| j] Hj H.
           ++ apply OccursAt_0 in H. congruence.
           ++ apply OccursAt_S in H. apply (H3 j); [lia | trivial].
Qed.

Lemma find_unfold s sub : find s sub = find_at s sub 0.
Proof.
  unfold find, find_from. simpl.
  destruct (Z.ltb_spec (len s) 0) as [H | H]; [|reflexivity].
  pose proof (len_nonneg s). lia.
Qed.

Lemma find_spec s sub :
  (find s sub = -1 /\ ~ Substring sub s) \/
  (exists k, find s sub = Z.of_nat k /\ FirstOccurrence sub s k).
Proof.
  rewrite find_unfold.
  destruct (find_at_spec s sub 0) as [[H1 H2] | (k & H1 & H2)].
  - left. split; trivial. rewrite Substring_OccursAt. intros [i Hi].
    now apply (H2 i).
  - right. exists k. split; [lia | trivial].
Qed.

(** [sub in s] decides whether [sub] is a substring of [s]. *)
Lemma contains_spec s sub : contains s sub = true <-> Substring sub s.
Proof.
  unfold contains.
  destruct (find_spec s sub) as [[H1 H2] | (k & H1 & H2 & _)]; rewrite H1.
  - simpl. split; [discriminate | tauto].
  - replace (Z.of_nat k =? -1) with false by (symmetry; apply Z.eqb_neq; lia).
    simpl. split; trivial. intros _. apply Substring_OccursAt. eauto.
Qed.

(* ================================================================== *)
(** ** Strings: the lexicographic order *)
(* ================================================================== *)

Lemma str_leb_spec a b : str_leb a b = true <-> lex_le a b.
Proof.
  revert b; induction a as [| x a IH]; intros b; simpl.
  - split; [constructor | trivial].
  - destruct b as [| y b].
    + split; [discriminate | inversion 1].
    + destruct (N.compare_spec (N_of_ascii x) (N_of_ascii y)) as [E | L | G].
      * assert (x = y) as ->.
        { rewrite <- (ascii_N_embedding x), <- (ascii_N_embedding y). now f_equal. }
        rewrite IH. split; [now constructor|].
        inversion 1; subst; trivial. lia.
      * split; [now constructor | trivial].
      * split; [discriminate|]. inversion 1; subst; lia.
Qed.

Lemma str_leb_refl a : str_leb a a = true.
Proof. induction a as [| x a IH]; simpl; trivial. now rewrite N.compare_refl. Qed.

Lemma str_leb_total a b : str_leb a b = true \/ str_leb b a = true.
Proof.
  revert b; induction a as [| x a IH]; intros [| y b]; simpl; auto.
  rewrite (N.compare_antisym (N_of_ascii x) (N_of_ascii y)).
  destruct (N_of_ascii x ?= N_of_ascii y)%N; simpl; auto.
Qed.

Lemma str_leb_trans a b c :
  str_leb a b = true -> str_leb b c = true -> str_leb a c = true.
Proof.
  revert b c; induction a as [| x a IH]; intros [| y b] [| z c]; simpl;
    trivial; try discriminate.
  destruct (N.compare_spec (N_of_ascii x) (N_of_ascii y)) as [E | L | G];
    destruct (N.compare_spec (N_of_ascii y) (N_of_ascii z)) as [E' | L' | G'];
    try discriminate; intros H1 H2.
  - rewrite E, E', N.compare_refl. eauto.
  - rewrite E. now apply N.compare_lt_iff in L' as ->.
  - rewrite <- E'. now apply N.compare_lt_iff in L as ->.
  - assert (N_of_ascii x < N_of_ascii z)%N as L'' by lia.
    now apply N.compare_lt_iff in L'' as ->.
Qed.

(* ================================================================== *)
(** ** Filter stage: facts *)
(* ================================================================== *)

Lemma truthy_true {A} (l : list A) : truthy l = true <-> l <> [].
Proof. destruct l; simpl; split; congruence. Qed.

Lemma truthy_false {A} (l : list A) : truthy l = false <-> l = [].
Proof. destruct l; simpl; split; congruence. Qed.

Lemma str_eqb_eq a b : str_eqb a b = true <-> a = b.
Proof. unfold str_eqb. destruct (str_eq_dec a b); split; congruence. Qed.

Section FilterFacts.
Context {A : Type}.
Implicit Types (f g : A -> bool) (l : list A).

Lemma filter_twice f g l :
  filter f (filter g l) = filter (fun x => g x && f x) l.
Proof.
  induction l as [| x l IH]; simpl; trivial.
  destruct (g x); simpl; [destruct (f x)|]; now rewrite IH.
Qed.

(** A filter applied under a condition is one filter. *)
Lemma filter_when (b : bool) f l :
  (if b then filter f l else l) = filter (fun x => negb b || f x) l.
Proof.
  destruct b; simpl; [reflexivity|].
  induction l as [| x l IH]; simpl; congruence.
Qed.
End FilterFacts.

Lemma _apply_date_filter_as_filter memos df dt :
  _apply_date_filter memos df dt
  = filter (fun memo =>
              (negb (truthy_opt df) ||
               str_leb (get_str df) (get_str (m_createTime memo))) &&
              (negb (truthy_opt dt) ||
               str_leb (get_str (m_createTime memo)) (get_str dt))) memos.
Proof.
  unfold _apply_date_filter. now rewrite !filter_when, filter_twice.
Qed.

(** The filter stage is one pass of [filter] with the test [keeps]. *)
Lemma filter_stage_as_filter all_memos p :
  filter_stage all_memos p = filter (keeps p) all_memos.
Proof.
  unfold filter_stage.
  assert (Hd : forall l,
    (if truthy_opt (date_from p) || truthy_opt (date_to p)
     then _apply_date_filter l (date_from p) (date_to p) else l)
    = _apply_date_filter l (date_from p) (date_to p)).
  { intros l. unfold _apply_date_filter.
    destruct (truthy_opt (date_from p)), (truthy_opt (date_to p)); reflexivity. }
  rewrite Hd, _apply_date_filter_as_filter, !filter_when, !filter_twice.
  apply filter_ext. intros m. unfold keeps.
  now rewrite !andb_assoc.
Qed.

Lemma truthy_opt_true o : truthy_opt o = true <-> exists d, o = Some d /\ d <> [].
Proof.
  destruct o as [d |]; simpl.
  - rewrite truthy_true. split; [eauto | now intros (d' & [= <-] & H)].
  - split; [discriminate | now intros (d & H & _)].
Qed.

Lemma tag_test_spec (filter_tags tags : list str) :
  existsb (fun tag => existsb (str_eqb tag) tags) filter_tags = true
  <-> exists tag, In tag filter_tags /\ In tag tags.
Proof.
  rewrite existsb_exists. split.
  - intros (t & Ht & H). apply existsb_exists in H as (t' & Ht' & E).
    apply str_eqb_eq in E as <-. eauto.
  - intros (t & Ht & Ht'). exists t. split; trivial.
    apply existsb_exists. exists t. split; trivial. now apply str_eqb_eq.
Qed.

(** The test [keeps] decides [satisfies]. *)
Lemma keeps_spec p m : keeps p m = true <-> satisfies p m.
Proof.
  unfold keeps, satisfies.
  rewrite !andb_true_iff, !orb_true_iff, !negb_true_iff.
  rewrite contains_spec, tag_test_spec, !str_leb_spec, !truthy_false.
  split.
  - intros (((Hq & Ht) & Hf) & Hd). repeat split.
    + tauto.
    + tauto.
    + intros d E Hne. destruct Hf as [Hf | Hf].
      * rewrite E in Hf. simpl in Hf. apply truthy_false in Hf. contradiction.
      * now rewrite E in Hf.
    + intros d E Hne. destruct Hd as [Hd | Hd].
      * rewrite E in Hd. simpl in Hd. apply truthy_false in Hd. contradiction.
      * now rewrite E in Hd.
  - intros (Hq & Ht & Hf & Hd). repeat split.
    + destruct (query p); [now left | right; apply Hq; discriminate].
    + destruct (tags_filter p); [now left | right; apply Ht; discriminate].
    + destruct (date_from p) as [[| c d] |]; simpl; auto.
      right. now apply Hf.
    + destruct (date_to p) as [[| c d] |]; simpl; auto.
      right. now apply Hd.
Qed.

(** C2 (filter stage). The filter stage keeps exactly the records that
    satisfy every active predicate, in their order: the query, when not
    empty, is a substring of the content once both are lowercased; some
    filter tag, when there are any, equals some tag of the record; the
    creation time is at or after [date_from] and at or before [date_to],
    when set, in the lexicographic order of the raw strings.  When no
    record satisfies them the result is the empty list. *)
Theorem C2_filter_stage_conjunction :
  forall (all_memos : list memo) (p : EnhancedMemosSearchParams),
    (exists keep : memo -> bool,
        filter_stage all_memos p = filter keep all_memos /\
        forall m, keep m = true <-> satisfies p m) /\
    (forall m, In m (filter_stage all_memos p)
               <-> In m all_memos /\ satisfies p m) /\
    ((forall m, In m all_memos -> ~ satisfies p m) ->
     filter_stage all_memos p = []).
Proof.
  intros all_memos p. rewrite filter_stage_as_filter. split; [|split].
  - exists (keeps p). split; [reflexivity | apply keeps_spec].
  - intros m. rewrite filter_In, keeps_spec. tauto.
  - intros H. induction all_memos as [| m l IH]; simpl; trivial.
    destruct (keeps p m) eqn:E.
    + apply keeps_spec in E. exfalso. apply (H m); simpl; auto.
    + apply IH. intros m' Hm'. apply H. simpl; auto.
Qed.

Lemma C2_filter_stage_conjunction_witness :
  let p := Examples.params_of "delta" 10 0 SUMMARY in
  (forall m, In m Examples.three_notes -> ~ satisfies p m) /\
  filter_stage Examples.three_notes p = [].
Proof.
  intros p.
  assert (H : forall m, In m Examples.three_notes -> ~ satisfies p m).
  { intros m Hm Hs. apply keeps_spec in Hs.
    simpl in Hm. destruct Hm as [<- | [<- | [<- | []]]];
      vm_compute in Hs; discriminate Hs. }
  split; [exact H|].
  exact (proj2 (proj2 (C2_filter_stage_conjunction Examples.three_notes p)) H).
Defined.

(* ================================================================== *)
(** ** Match snippets: the scan finds every occurrence *)
(* ================================================================== *)

Lemma lower_length s : length (lower s) = length s.
Proof. apply length_map. Qed.

Lemma len_lower s : len (lower s) = len s.
Proof. unfold len. now rewrite lower_length. Qed.

Lemma lower_nonempty s : s <> [] -> lower s <> [].
Proof. destruct s; simpl; congruence. Qed.

Lemma occurrences_from_range s sub i j :
  In j (occurrences_from s sub i) -> i <= j <= i + len s.
Proof.
  revert i; induction s as [| c s IH]; intros i.
  - unfold len. destruct sub; simpl; [|tauto]. intros [<- | []]; lia.
  - change (occurrences_from (c :: s) sub i)
      with ((if startswith (c :: s) sub then [i] else [])
            ++ occurrences_from s sub (i + 1)).
    rewrite in_app_iff. unfold len in *. simpl length. intros [H | H].
    + destruct (startswith (c :: s) sub); simpl in H; [|tauto].
      destruct H as [<- | []]; lia.
    + apply IH in H. lia.
Qed.

Lemma occurrences_from_unfold c s sub i :
  occurrences_from (c :: s) sub i
  = (if startswith (c :: s) sub then [i] else [])
      ++ occurrences_from s sub (i + 1).
Proof. reflexivity. Qed.

Lemma occurrences_from_spec s sub i k :
  In (i + Z.of_nat k) (occurrences_from s sub i) <-> OccursAt sub s k.
Proof.
  revert i k; induction s as [| c s IH]; intros i k.
  - split.
    + destruct sub; simpl; [|tauto].
      intros [H | []]. assert (k = 0%nat) as -> by lia. now apply OccursAt_0.
    + intros H. pose proof (OccursAt_nil_inv _ _ H) as [-> ->].
      simpl. left. lia.
  - rewrite occurrences_from_unfold, in_app_iff. destruct k as [| k].
    + rewrite OccursAt_0. split.
      * intros [H | H].
        -- destruct (startswith (c :: s) sub); [trivial | destruct H].
        -- apply occurrences_from_range in H. lia.
      * intros ->. left. simpl. left. lia.
    + rewrite OccursAt_S, <- (IH (i + 1) k).
      replace (i + 1 + Z.of_nat k) with (i + Z.of_nat (S k)) by lia.
      split; [|auto]. intros [H | H]; trivial.
      destruct (startswith (c :: s) sub); simpl in H; [|tauto].
      destruct H as [H | []]; lia.
Qed.

(** One step of the scan: [find] returns the head of the remaining
    occurrences, and what follows it are the occurrences after it. *)
Lemma find_at_occurrences t sub i :
  sub <> [] ->
  (find_at t sub i = -1 /\ occurrences_from t sub i = []) \/
  (exists k : nat,
      find_at t sub i = i + Z.of_nat k /\ (k < length t)%nat /\
      occurrences_from t sub i
      = (i + Z.of_nat k)
          :: occurrences_from (skipn (S k) t) sub (i + Z.of_nat k + 1)).
Proof.
  intros Hsub. revert i; induction t as [| c t IH]; intros i.
  - left. destruct sub; [congruence | now simpl].
  - change (find_at (c :: t) sub i)
      with (if startswith (c :: t) sub then i else find_at t sub (i + 1)).
    change (occurrences_from (c :: t) sub i)
      with ((if startswith (c :: t) sub then [i] else [])
            ++ occurrences_from t sub (i + 1)).
    destruct (startswith (c :: t) sub).
    + right. exists 0%nat. simpl. rewrite Z.add_0_r.
      split; [reflexivity | split; [lia | reflexivity]].
    + destruct (IH (i + 1)) as [[H1 H2] | (k & H1 & H2 & H3)].
      * left. now rewrite H1, H2.
      * right. exists (S k). rewrite H1, H3. simpl app. simpl length.
        replace (i + 1 + Z.of_nat k) with (i + Z.of_nat (S k)) by lia.
        split; [reflexivity | split; [lia | reflexivity]].
Qed.

Lemma find_from_skipn s sub start :
  0 <= start <= len s ->
  find_from s sub start = find_at (skipn (Z.to_nat start) s) sub start.
Proof.
  intros H. unfold find_from.
  destruct (Z.ltb_spec start 0); [lia|].
  destruct (Z.ltb_spec (len s) start); [lia | reflexivity].
Qed.

Lemma getitem_r_in_range {A} (s : list A) i :
  0 <= i < len s -> exists a, getitem_r s i = Ok a.
Proof.
  intros H. unfold getitem_r, getitem.
  destruct (Z.ltb_spec i 0); [lia|].
  destruct (Z.leb_spec 0 i); [|lia].
  destruct (Z.ltb_spec i (len s)); [|lia]. simpl.
  destruct (nth_error s (Z.to_nat i)) eqn:E; [eauto|].
  apply nth_error_None in E. unfold len in H. lia.
Qed.

Lemma extend_start_total content n :
  (n <= length content)%nat ->
  exists z, extend_start content n = Ok z /\ 0 <= z <= Z.of_nat n.
Proof.
  induction n as [| n IH]; intros H.
  - exists 0. simpl. split; [reflexivity | lia].
  - destruct (getitem_r_in_range content (Z.of_nat (S n) - 1)) as [c Hc].
    { unfold len. lia. }
    cbn [extend_start]. rewrite Hc. cbn [bind].
    destruct (isalnum c).
    + destruct IH as (z & Hz & Hr); [lia|]. exists z. split; [trivial | lia].
    + exists (Z.of_nat (S n)). split; [reflexivity | lia].
Qed.

Lemma extend_end_total fuel content e :
  0 <= e -> len content - e <= Z.of_nat fuel ->
  exists z, extend_end fuel content e = Ok z /\ e <= z.
Proof.
  revert e; induction fuel as [| fuel IH]; intros e He Hf.
  - exists e. simpl. destruct (Z.ltb_spec e (len content)); [lia|].
    split; [reflexivity | lia].
  - cbn [extend_end]. destruct (Z.ltb_spec e (len content)).
    + destruct (getitem_r_in_range content e) as [c Hc]; [lia|].
      rewrite Hc. cbn [bind]. destruct (isalnum c).
      * destruct (IH (e + 1)) as (z & Hz & Hr); [lia | lia |].
        exists z. split; [trivial | lia].
      * exists e. split; [reflexivity | lia].
    + exists e. split; [reflexivity | lia].
Qed.

(** The body of the loop never raises at a position inside the content. *)
Lemma snippet_at_total content query context_chars pos :
  0 <= context_chars -> 0 <= pos <= len content ->
  exists snippet, snippet_at content query context_chars pos = Ok snippet.
Proof.
  intros Hc Hp. unfold snippet_at.
  destruct (extend_start_total content (Z.to_nat (Z.max 0 (pos - context_chars))))
    as (s & Hs & _).
  { unfold len in Hp. lia. }
  rewrite Hs. cbn [bind].
  destruct (extend_end_total
              (Z.to_nat (len content
                         - Z.min (len content) (pos + len query + context_chars)))
              content
              (Z.min (len content) (pos + len query + context_chars)))
    as (e & He & _).
  { pose proof (len_nonneg query). lia. }
  { lia. }
  rewrite He. cbn [bind]. eauto.
Qed.

(** With fuel for one iteration more than there are positions left, the
    loop is a comprehension over the occurrences from [start] on. *)
Lemma scan_matches_occurrences fuel content query cl ql ctx start acc :
  ql <> [] -> 0 <= start <= len cl ->
  len cl - start < Z.of_nat fuel ->
  scan_matches fuel content query cl ql ctx start acc
  = (found <- mapM (snippet_at content query ctx)
                   (occurrences_from (skipn (Z.to_nat start) cl) ql start);;
     Ok (acc ++ found)).
Proof.
  intros Hq. revert start acc; induction fuel as [| fuel IH];
    intros start acc Hs Hf; [lia|].
  cbn [scan_matches]. rewrite find_from_skipn by trivial.
  destruct (find_at_occurrences (skipn (Z.to_nat start) cl) ql start Hq)
    as [[H1 H2] | (k & H1 & H2 & H3)].
  - rewrite H1, H2. simpl. now rewrite app_nil_r.
  - rewrite H1, H3. rewrite length_skipn in H2. unfold len in *.
    destruct (Z.eqb_spec (start + Z.of_nat k) (-1)); [lia|].
    cbn [mapM]. destruct (snippet_at content query ctx (start + Z.of_nat k))
      as [h | e]; cbn [bind]; trivial.
    rewrite IH by lia.
    rewrite skipn_skipn.
    replace (S k + Z.to_nat start)%nat
      with (Z.to_nat (start + Z.of_nat k + 1)) by lia.
    destruct (mapM _ _) as [bs | e]; cbn [bind]; trivial.
    now rewrite <- app_assoc.
Qed.

(** The scan as a comprehension over all occurrences. *)
Lemma _extract_snippet_around_match_occurrences content query ctx :
  query <> [] -> content <> [] ->
  _extract_snippet_around_match content query ctx
  = mapM (snippet_at content query ctx)
         (occurrences (lower content) (lower query)).
Proof.
  intros Hq Hc. unfold _extract_snippet_around_match.
  apply truthy_true in Hq as Hq'. apply truthy_true in Hc as Hc'.
  rewrite Hq', Hc'. simpl negb. simpl orb. cbv iota.
  rewrite scan_matches_occurrences.
  - simpl skipn. unfold occurrences.
    destruct (mapM _ _); reflexivity.
  - now apply lower_nonempty.
  - pose proof (len_nonneg (lower content)). lia.
  - rewrite len_lower. unfold len. lia.
Qed.

Lemma _extract_snippet_around_match_total content query ctx :
  0 <= ctx ->
  exists snippets,
    _extract_snippet_around_match content query ctx = Ok snippets.
Proof.
  intros Hctx.
  destruct query as [| q0 query]; [now exists []|].
  destruct content as [| c0 content]; [now exists []|].
  rewrite _extract_snippet_around_match_occurrences by discriminate.
  apply mapM_total, Forall_forall. intros pos Hpos.
  apply occurrences_from_range in Hpos. rewrite len_lower in Hpos.
  apply snippet_at_total; lia.
Qed.

Lemma occurrences_from_increasing s sub i :
  StronglySorted Z.lt (occurrences_from s sub i).
Proof.
  revert i; induction s as [| c s IH]; intros i.
  - destruct sub; simpl; repeat constructor.
  - rewrite occurrences_from_unfold.
    destruct (startswith (c :: s) sub); simpl; [|apply IH].
    constructor; [apply IH|]. apply Forall_forall. intros j Hj.
    apply occurrences_from_range in Hj. lia.
Qed.

(** C4 (snippet extraction, beyond ASCII).  The scan finds its positions
    in [content.lower()] and uses them on [content]; a capital I with a
    dot above before the match makes the lowered content longer, and the
    position falls beyond the end of the content.  For two such letters
    followed by " x" and the query "x" with no context the match is at
    position 5 of the lowered text, and the loop that widens the start reads [content[4]] of a
    content of length 4: an IndexError, where the claim promises one
    snippet for the occurrence.  With the context of 50 characters that
    the callers use, fifty-two such letters before the match do the
    same. *)
Theorem C4_index_error_beyond_ascii :
  len WideExamples.two_dotted = 4 /\
  Wide.find_from (Wide.lower WideExamples.two_dotted) (Wide.lit "x") 0 = 5 /\
  Wide._extract_snippet_around_match WideExamples.two_dotted (Wide.lit "x") 0
  = Err IndexError /\
  len WideExamples.many_dotted = 54 /\
  Wide.find_from (Wide.lower WideExamples.many_dotted) (Wide.lit "x") 0 = 105 /\
  Wide._extract_snippet_around_match WideExamples.many_dotted (Wide.lit "x") 50
  = Err IndexError.
Proof. vm_compute. repeat split. Qed.

(* ================================================================== *)
(** ** The scan on code points and the scan on characters *)
(* ================================================================== *)

(** On the text both can hold, the code points below U+0100, the scan of
    [Wide] is the scan above. *)

Lemma N_of_ascii_inj a b : N_of_ascii a = N_of_ascii b -> a = b.
Proof.
  intros H. rewrite <- (ascii_N_embedding a), <- (ascii_N_embedding b).
  now rewrite H.
Qed.

Lemma wide_len s : len (Wide.of_ascii s) = len s.
Proof. unfold len, Wide.of_ascii. now rewrite length_map. Qed.

Lemma wide_app a b :
  Wide.of_ascii (a ++ b) = Wide.of_ascii a ++ Wide.of_ascii b.
Proof. apply map_app. Qed.

Lemma wide_lit s : Wide.lit s = Wide.of_ascii (lit s).
Proof. reflexivity. Qed.

Lemma wide_isalnum c : Wide.isalnum (N_of_ascii c) = isalnum c.
Proof. destruct c as [[] [] [] [] [] [] [] []]; reflexivity. Qed.

Lemma wide_lower_char c :
  Wide.lower_char (N_of_ascii c) = [N_of_ascii (lower_char c)].
Proof. destruct c as [[] [] [] [] [] [] [] []]; reflexivity. Qed.

Lemma wide_lower s : Wide.lower (Wide.of_ascii s) = Wide.of_ascii (lower s).
Proof.
  induction s as [| c s IH]; [reflexivity|].
  cbn [Wide.of_ascii map Wide.lower flat_map lower].
  rewrite wide_lower_char. cbn [app]. f_equal. exact IH.
Qed.

Lemma wide_startswith s p :
  Wide.startswith (Wide.of_ascii s) (Wide.of_ascii p) = startswith s p.
Proof.
  revert s; induction p as [| a p IH]; intros [| b s]; try reflexivity.
  cbn [Wide.of_ascii map Wide.startswith startswith].
  destruct (N.eq_dec (N_of_ascii a) (N_of_ascii b)) as [E | N];
    destruct (ascii_dec a b) as [E' | N'].
  - apply IH.
  - apply N_of_ascii_inj in E. contradiction.
  - subst. contradiction.
  - reflexivity.
Qed.

Lemma wide_find_at s sub i :
  Wide.find_at (Wide.of_ascii s) (Wide.of_ascii sub) i = find_at s sub i.
Proof.
  revert i; induction s as [| c s IH]; intros i.
  - cbn [Wide.of_ascii map Wide.find_at find_at].
    change (@nil N) with (Wide.of_ascii []). now rewrite wide_startswith.
  - change (Wide.of_ascii (c :: s)) with (N_of_ascii c :: Wide.of_ascii s).
    cbn [Wide.find_at find_at].
    change (N_of_ascii c :: Wide.of_ascii s) with (Wide.of_ascii (c :: s)).
    rewrite wide_startswith. destruct (startswith (c :: s) sub); [reflexivity|].
    apply IH.
Qed.

Lemma wide_find_from s sub start :
  Wide.find_from (Wide.of_ascii s) (Wide.of_ascii sub) start
  = find_from s sub start.
Proof.
  unfold Wide.find_from, find_from. rewrite wide_len.
  destruct (_ <? _); [reflexivity|].
  unfold Wide.of_ascii at 1. rewrite skipn_map. apply wide_find_at.
Qed.

Lemma wide_replace_scan s old new skip :
  Wide.replace_scan (Wide.of_ascii s) (Wide.of_ascii old) (Wide.of_ascii new)
                    skip
  = Wide.of_ascii (replace_scan s old new skip).
Proof.
  revert skip; induction s as [| c s IH]; intros skip; [reflexivity|].
  change (Wide.of_ascii (c :: s)) with (N_of_ascii c :: Wide.of_ascii s).
  cbn [Wide.replace_scan replace_scan]. destruct skip as [| k]; [|apply IH].
  change (N_of_ascii c :: Wide.of_ascii s) with (Wide.of_ascii (c :: s)).
  rewrite wide_startswith. destruct (startswith (c :: s) old).
  - rewrite wide_app, IH. unfold Wide.of_ascii at 3. now rewrite length_map.
  - rewrite IH. reflexivity.
Qed.

Lemma wide_replace s old new :
  Wide.replace (Wide.of_ascii s) (Wide.of_ascii old) (Wide.of_ascii new)
  = Wide.of_ascii (replace s old new).
Proof.
  destruct old as [| o old]; [|apply wide_replace_scan].
  cbn [Wide.of_ascii map Wide.replace replace].
  fold (Wide.of_ascii new). rewrite wide_app. f_equal.
  induction s as [| c s IH]; [reflexivity|].
  cbn [map flat_map]. rewrite wide_app, <- IH. reflexivity.
Qed.

Lemma wide_getitem_r s i :
  getitem_r (Wide.of_ascii s) i
  = match getitem_r s i with
    | Ok c => Ok (N_of_ascii c)
    | Err e => Err e
    end.
Proof.
  unfold getitem_r, getitem. rewrite wide_len.
  destruct (_ && _); [|reflexivity].
  unfold Wide.of_ascii. rewrite nth_error_map.
  now destruct (nth_error s _).
Qed.

Lemma wide_slice s lo hi :
  slice (Wide.of_ascii s) lo hi = Wide.of_ascii (slice s lo hi).
Proof.
  unfold slice. rewrite wide_len. unfold Wide.of_ascii.
  now rewrite firstn_map, skipn_map.
Qed.

Lemma wide_extend_start content n :
  Wide.extend_start (Wide.of_ascii content) n = extend_start content n.
Proof.
  induction n as [| n IH]; [reflexivity|].
  cbn [Wide.extend_start extend_start]. rewrite wide_getitem_r.
  destruct (getitem_r content _) as [c | e]; [|reflexivity].
  cbn [bind]. rewrite wide_isalnum. now destruct (isalnum c).
Qed.

Lemma wide_extend_end fuel content e :
  Wide.extend_end fuel (Wide.of_ascii content) e = extend_end fuel content e.
Proof.
  revert e; induction fuel as [| fuel IH]; intros e;
    cbn [Wide.extend_end extend_end]; rewrite wide_len;
    destruct (e <? len content); trivial.
  rewrite wide_getitem_r.
  destruct (getitem_r content e) as [c | x]; [|reflexivity].
  cbn [bind]. rewrite wide_isalnum. destruct (isalnum c); [apply IH|reflexivity].
Qed.

Lemma wide_snippet_at content query ctx pos :
  Wide.snippet_at (Wide.of_ascii content) (Wide.of_ascii query) ctx pos
  = match snippet_at content query ctx pos with
    | Ok snippet => Ok (Wide.of_ascii snippet)
    | Err e => Err e
    end.
Proof.
  unfold Wide.snippet_at, snippet_at. rewrite !wide_len.
  rewrite wide_extend_start.
  destruct (extend_start content _) as [ss | e]; [|reflexivity].
  cbn [bind]. rewrite wide_extend_end.
  destruct (extend_end _ content _) as [se | e]; [|reflexivity].
  cbn [bind]. f_equal. unfold Wide.highlight, highlight.
  rewrite !wide_slice, !wide_lit.
  rewrite <- !wide_app. rewrite <- wide_replace. f_equal.
  destruct (ss >? 0), (se <? len content); now rewrite ?wide_app.
Qed.

Lemma wide_scan_matches fuel content query cl ql ctx start acc :
  Wide.scan_matches fuel (Wide.of_ascii content) (Wide.of_ascii query)
                    (Wide.of_ascii cl) (Wide.of_ascii ql) ctx start
                    (map Wide.of_ascii acc)
  = match scan_matches fuel content query cl ql ctx start acc with
    | Ok snippets => Ok (map Wide.of_ascii snippets)
    | Err e => Err e
    end.
Proof.
  revert start acc; induction fuel as [| fuel IH]; intros start acc;
    [reflexivity|].
  cbn [Wide.scan_matches scan_matches]. rewrite wide_find_from.
  destruct (find_from cl ql start =? -1); [reflexivity|].
  rewrite wide_snippet_at.
  destruct (snippet_at content query ctx _) as [h | e]; [|reflexivity].
  cbn [bind]. rewrite <- IH. f_equal. now rewrite map_app.
Qed.

(** On text of code points below U+0100 the scan on code points does
    what the scan on characters does. *)
Lemma wide_extract_agrees content query ctx :
  Wide._extract_snippet_around_match (Wide.of_ascii content)
                                     (Wide.of_ascii query) ctx
  = match _extract_snippet_around_match content query ctx with
    | Ok snippets => Ok (map Wide.of_ascii snippets)
    | Err e => Err e
    end.
Proof.
  unfold Wide._extract_snippet_around_match, _extract_snippet_around_match.
  assert (Ht : forall s, truthy (Wide.of_ascii s) = truthy s)
    by (intros [|]; reflexivity).
  rewrite !Ht. destruct (negb (truthy query) || negb (truthy content));
    [reflexivity|].
  rewrite !wide_lower.
  replace (length (Wide.of_ascii (lower content))) with (length content)
    by (unfold Wide.of_ascii; now rewrite length_map, lower_length).
  apply (wide_scan_matches _ content query (lower content) (lower query)
                           ctx 0 []).
Qed.


(* ================================================================== *)
(** ** Emphasis marking: [replace] marks every occurrence *)
(* ================================================================== *)

Lemma pieces_scan_nonempty s sep skip cur : pieces_scan s sep skip cur <> [].
Proof.
  revert skip cur; induction s as [| c s IH]; intros skip cur;
    cbn [pieces_scan].
  - discriminate.
  - destruct skip; [|apply IH].
    destruct (startswith (c :: s) sep); [discriminate | apply IH].
Qed.

Lemma join_cons sep x l : l <> [] -> join sep (x :: l) = x ++ sep ++ join sep l.
Proof. destruct l; [congruence | reflexivity]. Qed.

(** [replace] rebuilds the string from its pieces with [new] between
    them. *)
Lemma replace_scan_pieces s old new skip cur :
  join new (pieces_scan s old skip cur) = rev cur ++ replace_scan s old new skip.
Proof.
  revert skip cur; induction s as [| c s IH]; intros skip cur.
  - simpl. now rewrite app_nil_r.
  - cbn [pieces_scan replace_scan]. destruct skip as [| k]; [|apply IH].
    destruct (startswith (c :: s) old).
    + rewrite join_cons by apply pieces_scan_nonempty. now rewrite IH.
    + rewrite IH. simpl. now rewrite <- app_assoc.
Qed.

Lemma replace_scan_skip u t old new :
  replace_scan (u ++ t) old new (length u) = replace_scan t old new 0.
Proof. induction u as [| a u IH]; simpl; trivial. Qed.

Lemma replace_scan_same s old : old <> [] -> replace_scan s old old 0 = s.
Proof.
  intros Hold. remember (length s) as n eqn:Hn. revert s Hn.
  induction n as [n IH] using lt_wf_ind. intros s ->.
  destruct s as [| c s]; [reflexivity|].
  cbn [replace_scan]. destruct (startswith (c :: s) old) eqn:E.
  - apply startswith_spec in E as [t E]. destruct old as [| a old]; [congruence|].
    injection E as -> ->.
    replace (length (a :: old) - 1)%nat with (length old) by (simpl; lia).
    rewrite replace_scan_skip.
    rewrite (IH (length t)); trivial. simpl. rewrite length_app. lia.
  - f_equal. apply (IH (length s)); simpl; lia.
Qed.

Lemma count_scan_pieces s sep skip cur :
  len (pieces_scan s sep skip cur) = count_scan s sep skip + 1.
Proof.
  revert skip cur; induction s as [| c s IH]; intros skip cur.
  - reflexivity.
  - cbn [pieces_scan count_scan]. destruct skip as [| k]; [|apply IH].
    destruct (startswith (c :: s) sep); [|apply IH].
    unfold len in *. simpl length. rewrite Nat2Z.inj_succ, IH. lia.
Qed.

(** No piece holds an occurrence of the separator. *)
Lemma pieces_scan_free s sep skip cur :
  sep <> [] ->
  (skip <> 0%nat -> cur = []) ->
  (forall j, (j < length cur)%nat ->
             startswith (skipn j (rev cur) ++ s) sep = false) ->
  Forall (fun piece => ~ Substring sep piece) (pieces_scan s sep skip cur).
Proof.
  intros Hsep. revert skip cur; induction s as [| c s IH]; intros skip cur Hk Hinv.
  - assert (Hfree : ~ Substring sep (rev cur)).
    { intros (pre & post & E).
      assert (Hj : (length pre < length cur)%nat).
      { rewrite <- (length_rev cur), E, !length_app. destruct sep; [congruence|].
        simpl. lia. }
      specialize (Hinv _ Hj). rewrite E, skipn_app, skipn_all, Nat.sub_diag in Hinv.
      simpl in Hinv. rewrite app_nil_r in Hinv.
      assert (startswith (sep ++ post) sep = true) by (apply startswith_spec; eauto).
      congruence. }
    simpl. now constructor.
  - cbn [pieces_scan]. destruct skip as [| k].
    + destruct (startswith (c :: s) sep) eqn:E.
      * constructor.
        -- intros (pre & post & E').
           assert (Hj : (length pre < length cur)%nat).
           { rewrite <- (length_rev cur), E', !length_app. destruct sep; [congruence|].
             simpl. lia. }
           specialize (Hinv _ Hj).
           rewrite E', skipn_app, skipn_all, Nat.sub_diag in Hinv.
           simpl in Hinv. rewrite <- !app_assoc in Hinv.
           assert (startswith (sep ++ post ++ c :: s) sep = true)
             by (apply startswith_spec; eauto).
           congruence.
        -- apply IH; [trivial | simpl; intros j Hj; lia].
      * apply IH; [congruence|]. intros j Hj. simpl in Hj. simpl rev.
        destruct (Nat.eq_dec j (length cur)) as [-> | Hne].
        -- rewrite skipn_app, length_rev, Nat.sub_diag.
           rewrite skipn_all2 by (rewrite length_rev; lia). exact E.
        -- rewrite skipn_app, length_rev.
           replace (j - length cur)%nat with 0%nat by lia.
           simpl skipn. rewrite <- app_assoc. apply Hinv. lia.
    + rewrite (Hk ltac:(discriminate)). apply IH; [trivial|].
      simpl. intros j Hj. lia.
Qed.

(** C5, as stated, fails on the snippet of "hello" in "hello world hello":
    both occurrences are wrapped, where the claim has the first one only. *)
Lemma C5_counterexample :
  let snippet := lit "hello world hello" in
  let matched := lit "hello" in
  _extract_snippet_around_match snippet matched 50
  = Ok [lit "**hello** world **hello**"; lit "**hello** world **hello**"] /\
  highlight snippet matched = lit "**hello** world **hello**" /\
  mark_first_occurrence snippet matched = lit "**hello** world hello" /\
  highlight snippet matched <> mark_first_occurrence snippet matched.
Proof.
  intros snippet matched. repeat split; try (vm_compute; reflexivity).
  vm_compute. discriminate.
Qed.

(** C5 (amended). The emphasis marking wraps with the marker every
    occurrence of the original-case matched substring that a left-to-right
    scan of the snippet without overlaps finds, not only the first: the
    snippet is its pieces joined by the matched substring, the marked
    snippet is the same pieces joined by the wrapped substring, there is
    one piece more than [count] finds occurrences, and no piece holds an
    occurrence. *)
Theorem C5_every_occurrence_marked :
  forall snippet matched : str,
    matched <> [] ->
    highlight snippet matched
    = join (lit "**" ++ matched ++ lit "**") (pieces snippet matched) /\
    snippet = join matched (pieces snippet matched) /\
    len (pieces snippet matched) = count snippet matched + 1 /\
    Forall (fun piece => ~ Substring matched piece) (pieces snippet matched).
Proof.
  intros snippet matched Hm. unfold highlight, pieces.
  assert (Hr : forall new, replace snippet matched new
                           = replace_scan snippet matched new 0)
    by (destruct matched; [congruence | reflexivity]).
  assert (Hc : count snippet matched = count_scan snippet matched 0)
    by (destruct matched; [congruence | reflexivity]).
  split; [|split; [|split]].
  - now rewrite Hr, replace_scan_pieces.
  - rewrite replace_scan_pieces. simpl. symmetry. now apply replace_scan_same.
  - rewrite Hc. apply count_scan_pieces.
  - apply pieces_scan_free; trivial. simpl. intros j Hj. lia.
Qed.

Lemma C5_every_occurrence_marked_witness :
  highlight (lit "hello world hello") (lit "hello")
  = join (lit "**hello**") [[]; lit " world "; []].
Proof.
  assert (Hm : lit "hello" <> []) by discriminate.
  exact (proj1 (C5_every_occurrence_marked (lit "hello world hello")
                  (lit "hello") Hm)).
Defined.

(* ================================================================== *)
(** ** Smart summary: the two passes *)
(* ================================================================== *)

(** The second pass is skipped when the summary is not under 70 percent
    of the maximal length. *)
Lemma summary_second_pass_guard content max_length parts remaining :
  under_70_percent parts max_length = false ->
  summary_second_pass content max_length parts remaining = parts.
Proof. unfold summary_second_pass. now intros ->. Qed.

(** A step of the second pass leaves the parts alone on a line that
    starts with "#" or "-" once stripped. *)
Lemma second_pass_step_header remaining parts line :
  startswith (strip line) (lit "#") = true \/
  startswith (strip line) (lit "-") = true ->
  second_pass_step remaining parts line = parts.
Proof.
  unfold second_pass_step, is_regular_line.
  intros [H | H]; rewrite H; simpl; now rewrite ?andb_false_r.
Qed.

(** C6. The code at the content "T", line feed, "* item" with no query and
    a maximal length of 500: the first pass appends the list item, the
    summary is under 70 percent of 500, and the second pass, whose test
    excludes the prefixes "#" and "-" only, appends the same line again. *)
Theorem C6_second_pass_repeats_list_item :
  let content := Examples.title_and_item in
  let item := lit "* item" in
  is_header_or_list item = true /\
  summary_first_pass content 500 = ([lit "T"; item], 499) /\
  under_70_percent [lit "T"; item] 500 = true /\
  summary_second_pass content 500 [lit "T"; item] 499
  = [lit "T"; item; item] /\
  _generate_smart_summary Examples.title_and_item_note [] 500
  = Ok (lit "T" ++ [newline] ++ item ++ [newline] ++ item).
Proof. vm_compute. repeat split; reflexivity. Qed.

(* ================================================================== *)
(** ** Floats: rounding keeps signs and the unit range *)
(* ================================================================== *)

Lemma shr_1_m mrs : 0 <= shr_m mrs -> shr_m (shr_1 mrs) = shr_m mrs / 2.
Proof.
  destruct mrs as [m r s]; simpl. intros Hm.
  destruct m as [| [p | p |] | p]; simpl; try reflexivity; try lia.
  - rewrite Pos2Z.inj_xI. apply Z.div_unique with (r := 1); lia.
  - rewrite Pos2Z.inj_xO. apply Z.div_unique with (r := 0); lia.
Qed.

Lemma pow2_xO p : 2 ^ Z.pos p~0 = 2 ^ Z.pos p * 2 ^ Z.pos p.
Proof. rewrite Pos2Z.inj_xO, <- Z.pow_add_r by lia. f_equal; lia. Qed.

Lemma pow2_xI p : 2 ^ Z.pos p~1 = 2 * (2 ^ Z.pos p * 2 ^ Z.pos p).
Proof.
  rewrite Pos2Z.inj_xI, <- Z.pow_add_r by lia.
  replace (2 * Z.pos p + 1) with (1 + (Z.pos p + Z.pos p)) by lia.
  rewrite (Z.pow_add_r 2 1) by lia. reflexivity.
Qed.

Lemma pow2_pos n : 0 <= n -> 0 < 2 ^ n.
Proof. intros H. apply Z.pow_pos_nonneg; lia. Qed.

Lemma iter_pos_shr_1_m p mrs :
  0 <= shr_m mrs ->
  shr_m (iter_pos shr_1 p mrs) = shr_m mrs / 2 ^ Zpos p.
Proof.
  revert mrs; induction p as [p IH | p IH |]; intros mrs Hm; cbn [iter_pos].
  - assert (H1 : 0 <= shr_m (shr_1 mrs)).
    { rewrite shr_1_m by trivial. apply Z.div_pos; lia. }
    assert (H2 : 0 <= shr_m (iter_pos shr_1 p (shr_1 mrs))).
    { rewrite IH by trivial. apply Z.div_pos; [trivial | now apply pow2_pos]. }
    pose proof (pow2_pos (Z.pos p) ltac:(lia)) as Hp.
    rewrite IH, IH, shr_1_m, pow2_xI by trivial.
    rewrite !Z.div_div by lia. reflexivity.
  - assert (H2 : 0 <= shr_m (iter_pos shr_1 p mrs)).
    { rewrite IH by trivial. apply Z.div_pos; [trivial | now apply pow2_pos]. }
    pose proof (pow2_pos (Z.pos p) ltac:(lia)) as Hp.
    rewrite IH, IH, pow2_xO by trivial.
    rewrite !Z.div_div by lia. reflexivity.
  - now apply shr_1_m.
Qed.

Lemma shr_record_of_loc_m m l : shr_m (shr_record_of_loc m l) = m.
Proof. destruct l as [| []]; reflexivity. Qed.

(** What [shr] does to mantissa and exponent: a division by a power of
    two, the exponent raised by as much. *)
Lemma shr_spec mrs e n :
  0 <= shr_m mrs ->
  let n' := Z.max 0 n in
  shr_m (fst (shr mrs e n)) = shr_m mrs / 2 ^ n' /\
  snd (shr mrs e n) = e + n'.
Proof.
  intros Hm. destruct n as [| p | p]; simpl.
  - rewrite Z.div_1_r. split; [reflexivity | lia].
  - rewrite iter_pos_shr_1_m by trivial. split; reflexivity.
  - rewrite Z.div_1_r. split; [reflexivity | lia].
Qed.

Lemma digits2_pos_size p : digits2_pos p = Pos.size p.
Proof. induction p; simpl; congruence. Qed.

Lemma Zdigits2_bound m k :
  0 <= k -> 0 <= m < 2 ^ k -> Zdigits2 m <= k.
Proof.
  intros Hk [H0 Hm]. destruct m as [| p | p]; simpl; [lia | | lia].
  rewrite digits2_pos_size.
  pose proof (Pos.size_le p) as Hs.
  assert (H : 2 ^ Z.pos (Pos.size p) <= 2 * Z.pos p).
  { change (2 * Z.pos p) with (Z.pos p~0). rewrite <- Pos2Z.inj_pow. exact Hs. }
  destruct (Z.le_gt_cases (Z.pos (Pos.size p)) k) as [Hle | Hgt]; trivial.
  exfalso.
  assert (2 ^ (k + 1) <= 2 ^ Z.pos (Pos.size p)) by (apply Z.pow_le_mono_r; lia).
  rewrite Z.pow_add_r in H1 by lia. lia.
Qed.

Lemma Zdigits2_bound_le m k :
  0 <= k -> 0 <= m <= 2 ^ k -> Zdigits2 m <= k + 1.
Proof.
  intros Hk Hm. apply Zdigits2_bound; [lia|].
  rewrite Z.pow_add_r by lia.
  assert (0 < 2 ^ k) by (apply Z.pow_pos_nonneg; lia). lia.
Qed.

Lemma fexp_le_0 x : x <= 53 -> fexp prec emax x <= 0.
Proof. unfold fexp, emin, prec, emax. lia. Qed.

Lemma round_nearest_even_bounds m l :
  m <= round_nearest_even m l <= m + 1.
Proof.
  destruct l as [| []]; simpl; try lia. destruct (Z.even m); lia.
Qed.

(** [shr_fexp] keeps a mantissa below [2 ^ (- e)] below that bound. *)
Lemma shr_fexp_lt m e l :
  e <= 0 -> 0 <= m < 2 ^ (- e) ->
  let '(mrs, e') := shr_fexp prec emax m e l in
  e' <= 0 /\ 0 <= shr_m mrs < 2 ^ (- e').
Proof.
  intros He Hm. unfold shr_fexp.
  set (n := fexp prec emax (Zdigits2 m + e) - e).
  pose proof (shr_spec (shr_record_of_loc m l) e n) as Hs.
  rewrite shr_record_of_loc_m in Hs. specialize (Hs (proj1 Hm)).
  destruct (shr (shr_record_of_loc m l) e n) as [mrs e']. simpl in Hs.
  destruct Hs as [H1 H2]. rewrite H1, H2.
  assert (Hd : Zdigits2 m <= - e) by (apply Zdigits2_bound; lia).
  assert (Hf : fexp prec emax (Zdigits2 m + e) <= 0) by (apply fexp_le_0; lia).
  destruct (Z.max_spec 0 n) as [[Hn ->] | [Hn ->]].
  - assert (0 < 2 ^ n) by (apply Z.pow_pos_nonneg; lia).
    split; [unfold n; lia|]. split; [apply Z.div_pos; lia|].
    apply Z.div_lt_upper_bound; trivial.
    rewrite <- Z.pow_add_r by (unfold n in *; lia).
    replace (n + - (e + n)) with (- e) by lia. lia.
  - rewrite Z.div_1_r, Z.add_0_r. split; [lia | trivial].
Qed.

Lemma shr_fexp_le m e l :
  e <= 0 -> 0 <= m <= 2 ^ (- e) ->
  let '(mrs, e') := shr_fexp prec emax m e l in
  e' <= 0 /\ 0 <= shr_m mrs <= 2 ^ (- e').
Proof.
  intros He Hm. unfold shr_fexp.
  set (n := fexp prec emax (Zdigits2 m + e) - e).
  pose proof (shr_spec (shr_record_of_loc m l) e n) as Hs.
  rewrite shr_record_of_loc_m in Hs. specialize (Hs (proj1 Hm)).
  destruct (shr (shr_record_of_loc m l) e n) as [mrs e']. simpl in Hs.
  destruct Hs as [H1 H2]. rewrite H1, H2.
  assert (Hd : Zdigits2 m <= - e + 1) by (apply Zdigits2_bound_le; lia).
  assert (Hf : fexp prec emax (Zdigits2 m + e) <= 0) by (apply fexp_le_0; lia).
  destruct (Z.max_spec 0 n) as [[Hn ->] | [Hn ->]].
  - assert (0 < 2 ^ n) by (apply Z.pow_pos_nonneg; lia).
    split; [unfold n; lia|]. split; [apply Z.div_pos; lia|].
    apply Z.div_le_upper_bound; trivial.
    rewrite <- Z.pow_add_r by (unfold n in *; lia).
    replace (n + - (e + n)) with (- e) by lia. lia.
  - rewrite Z.div_1_r, Z.add_0_r. split; [lia | trivial].
Qed.

Lemma shr_fexp_nonneg m e l :
  0 <= m -> 0 <= shr_m (fst (shr_fexp prec emax m e l)).
Proof.
  intros Hm. unfold shr_fexp.
  destruct (shr_spec (shr_record_of_loc m l) e
              (fexp prec emax (Zdigits2 m + e) - e)) as [H _].
  { now rewrite shr_record_of_loc_m. }
  rewrite H, shr_record_of_loc_m. apply Z.div_pos; [trivial|].
  apply Z.pow_pos_nonneg; lia.
Qed.

Lemma binary_round_aux_nonneg m e l :
  0 <= m -> nonneg (binary_round_aux prec emax false m e l) = true.
Proof.
  intros Hm. unfold binary_round_aux.
  pose proof (shr_fexp_nonneg m e l Hm) as H1.
  destruct (shr_fexp prec emax m e l) as [mrs1 e1]. simpl in H1.
  pose proof (round_nearest_even_bounds (shr_m mrs1) (loc_of_shr_record mrs1)) as Hr.
  pose proof (shr_fexp_nonneg (round_nearest_even (shr_m mrs1) (loc_of_shr_record mrs1))
                e1 loc_Exact ltac:(lia)) as H2.
  destruct (shr_fexp prec emax _ e1 loc_Exact) as [mrs2 e2]. simpl in H2.
  destruct (shr_m mrs2) as [| p | p]; [reflexivity | | lia].
  destruct (e2 <=? emax - prec); reflexivity.
Qed.

Lemma binary_round_aux_unit m e l :
  e <= 0 -> 0 <= m < 2 ^ (- e) ->
  unit_range (binary_round_aux prec emax false m e l).
Proof.
  intros He Hm. unfold binary_round_aux.
  pose proof (shr_fexp_lt m e l He Hm) as H1.
  destruct (shr_fexp prec emax m e l) as [mrs1 e1]. destruct H1 as [He1 Hm1].
  pose proof (round_nearest_even_bounds (shr_m mrs1) (loc_of_shr_record mrs1)) as Hr.
  pose proof (shr_fexp_le (round_nearest_even (shr_m mrs1) (loc_of_shr_record mrs1))
                e1 loc_Exact He1 ltac:(lia)) as H2.
  destruct (shr_fexp prec emax _ e1 loc_Exact) as [mrs2 e2]. destruct H2 as [He2 Hm2].
  destruct (shr_m mrs2) as [| p | p]; [exact I | | lia].
  destruct (Z.leb_spec e2 (emax - prec)) as [_ | H]; [|unfold emax, prec in H; lia].
  simpl. split; [trivial | lia].
Qed.

Lemma div_eucl_fst a b : fst (Z.div_eucl a b) = a / b.
Proof. unfold Z.div. now destruct (Z.div_eucl a b). Qed.

(** The quotient the division core of SpecFloat prepares for two integers
    [a < b]: a mantissa below [2 ^ (- e)] at an exponent [e <= 0]. *)
Lemma SFdiv_core_binary_lt a b :
  0 < a < b ->
  let '(q, e, _) := SFdiv_core_binary prec emax a 0 b 0 in
  e <= 0 /\ 0 <= q < 2 ^ (- e).
Proof.
  intros Hab. unfold SFdiv_core_binary.
  set (e := Z.min _ _).
  assert (He : e <= 0) by (unfold e; lia).
  set (m := match 0 - 0 - e with
            | 0 => a
            | Z.pos _ => Z.shiftl a (0 - 0 - e)
            | Z.neg _ => 0
            end).
  assert (Hm : m = a * 2 ^ (- e)).
  { unfold m. destruct (0 - 0 - e) as [| p | p] eqn:E.
    - replace (- e) with 0 by lia. simpl. lia.
    - rewrite Z.shiftl_mul_pow2 by lia. do 2 f_equal. lia.
    - lia. }
  pose proof (div_eucl_fst m b) as Hq.
  destruct (Z.div_eucl m b) as [q r]. simpl in Hq. subst q.
  pose proof (pow2_pos (- e) ltac:(lia)) as Hp.
  split; [trivial|]. split.
  - apply Z.div_pos; [rewrite Hm|]; nia.
  - apply Z.div_lt_upper_bound; [lia|]. rewrite Hm. nia.
Qed.

Lemma SFdiv_core_binary_nonneg m1 e1 m2 e2 :
  0 <= m1 -> 0 < m2 ->
  0 <= fst (fst (SFdiv_core_binary prec emax m1 e1 m2 e2)).
Proof.
  intros H1 H2. unfold SFdiv_core_binary.
  set (s := e1 - e2 - _).
  set (m := match s with
            | 0 => m1
            | Z.pos _ => Z.shiftl m1 s
            | Z.neg _ => 0
            end).
  assert (Hm : 0 <= m).
  { unfold m. destruct s; [trivial | | lia]. now apply Z.shiftl_nonneg. }
  pose proof (div_eucl_fst m m2) as Hq.
  destruct (Z.div_eucl m m2) as [q r]. simpl in *. subst q.
  apply Z.div_pos; lia.
Qed.

(** The quotient of two ints [0 <= a < b] is a float in [0, 1]. *)
Lemma int_truediv_unit a b :
  0 <= a < b -> unit_range (fdiv (int_exact a) (int_exact b)).
Proof.
  intros Hab. destruct a as [| pa | pa]; [| | lia];
    destruct b as [| pb | pb]; try lia; [exact I|].
  unfold fdiv, int_exact, SFdiv.
  pose proof (SFdiv_core_binary_lt (Z.pos pa) (Z.pos pb) ltac:(lia)) as H.
  destruct (SFdiv_core_binary prec emax (Z.pos pa) 0 (Z.pos pb) 0) as [[q e] l].
  destruct H as [He Hq]. now apply binary_round_aux_unit.
Qed.

Lemma shl_align_fst m e e' :
  e' <= e -> Z.pos (fst (shl_align m e e')) = Z.pos m * 2 ^ (e - e').
Proof.
  intros H. unfold shl_align. destruct (e' - e) as [| p | p] eqn:E.
  - replace (e - e') with 0 by lia. simpl. lia.
  - lia.
  - simpl fst. change (Pos.iter xO m p) with (shift_pos p m).
    rewrite shift_pos_correct. replace (e - e') with (Z.pos p) by lia.
    change (Z.pow_pos 2 p) with (2 ^ Z.pos p). lia.
Qed.

Lemma binary_normalize_nonneg m e :
  0 <= m -> nonneg (binary_normalize prec emax m e false) = true.
Proof.
  intros Hm. destruct m as [| p | p]; [reflexivity | | lia].
  unfold binary_normalize, binary_round.
  destruct (shl_align p e _) as [mz ez].
  apply binary_round_aux_nonneg. lia.
Qed.

(** [1.0 - q] is not negative for [q] in [0, 1]. *)
Lemma fsub_one_nonneg q : unit_range q -> nonneg (fsub f_one q) = true.
Proof.
  destruct q as [s | s | | [|] m e]; cbn [unit_range];
    try (intros []; fail); [reflexivity|].
  intros [He Hm]. unfold fsub, f_one, SFsub.
  apply binary_normalize_nonneg. unfold cond_Zopp.
  rewrite !shl_align_fst by lia.
  set (ez := Z.min (-52) e).
  assert (H52 : 4503599627370496 = 2 ^ 52) by reflexivity.
  rewrite H52, <- Z.pow_add_r by (unfold ez; lia).
  replace (52 + (-52 - ez)) with (- e + (e - ez)) by lia.
  rewrite Z.pow_add_r by (unfold ez; lia).
  pose proof (pow2_pos (e - ez) ltac:(unfold ez; lia)). nia.
Qed.

Lemma fadd_nonneg x y :
  nonneg x = true -> nonneg y = true -> nonneg (fadd x y) = true.
Proof.
  destruct x as [sx | [|] | | [|] mx ex]; try discriminate;
    destruct y as [sy | [|] | | [|] my ey]; try discriminate;
    intros _ _; try reflexivity.
  - now destruct sx, sy.
  - unfold fadd, SFadd. apply binary_normalize_nonneg. simpl. lia.
Qed.

Lemma of_int_nonneg n : 0 <= n -> nonneg (of_int n) = true.
Proof. apply binary_normalize_nonneg. Qed.

Lemma fdiv_ten_nonneg x : nonneg x = true -> nonneg (fdiv x f_ten) = true.
Proof.
  destruct x as [s | [|] | | [|] m e]; try discriminate; intros _;
    try reflexivity.
  unfold fdiv, f_ten, SFdiv.
  pose proof (SFdiv_core_binary_nonneg (Z.pos m) e 5629499534213120 (-49)
                ltac:(lia) ltac:(lia)) as H.
  destruct (SFdiv_core_binary prec emax (Z.pos m) e 5629499534213120 (-49))
    as [[q e'] l]. simpl in H. now apply binary_round_aux_nonneg.
Qed.

Lemma fleb_zero_nonneg x : nonneg x = true -> fleb f_zero x = true.
Proof. destruct x as [s | [|] | | [|] m e]; try discriminate; reflexivity. Qed.

Lemma fltb_fleb x y : fltb x y = true -> fleb x y = true.
Proof.
  unfold fltb, fleb, SFltb, SFleb.
  destruct (SFcompare x y) as [[| |] |]; congruence.
Qed.

(** [min(1.0, x)] is in [0, 1] for every [x] that is not negative. *)
Lemma pymin_one_unit x :
  nonneg x = true ->
  fleb f_zero (pymin f_one x) = true /\ fleb (pymin f_one x) f_one = true.
Proof.
  intros Hx. unfold pymin. destruct (fltb x f_one) eqn:E.
  - split; [now apply fleb_zero_nonneg | now apply fltb_fleb].
  - split; reflexivity.
Qed.

(* ================================================================== *)
(** ** Relevance score *)
(* ================================================================== *)

Lemma count_scan_nonneg s sub skip : 0 <= count_scan s sub skip.
Proof.
  revert skip; induction s as [| c s IH]; intros skip; cbn [count_scan]; [lia|].
  destruct skip; [|apply IH].
  destruct (startswith (c :: s) sub); [|apply IH].
  specialize (IH (length sub - 1)%nat). lia.
Qed.

Lemma count_nonneg s sub : 0 <= count s sub.
Proof.
  destruct sub; simpl; [|apply count_scan_nonneg].
  pose proof (len_nonneg s). lia.
Qed.

(** A match that [find] reports starts inside the string. *)
Lemma find_found_range s sub :
  sub <> [] -> find s sub <> -1 -> 0 <= find s sub < len s.
Proof.
  intros Hsub Hf.
  destruct (find_spec s sub) as [[H _] | (k & H & Hk & _)]; [congruence|].
  rewrite H. apply OccursAt_bound in Hk. unfold len.
  destruct sub; [congruence|]. simpl in Hk. lia.
Qed.

Lemma find_in_empty sub : sub <> [] -> find [] sub = -1.
Proof. destruct sub; [congruence | reflexivity]. Qed.

Lemma split_scan_hd sep s cur :
  hd [] (split_scan sep s cur)
  = rev cur ++ (fix before (t : str) : str :=
                  match t with
                  | [] => []
                  | c :: t' => if ascii_dec c sep then [] else c :: before t'
                  end) s.
Proof.
  revert cur; induction s as [| c s IH]; intros cur; simpl.
  - now rewrite app_nil_r.
  - destruct (ascii_dec c sep); simpl; [now rewrite app_nil_r|].
    rewrite IH. simpl. now rewrite <- app_assoc.
Qed.

(** The first line the score looks at. *)
Lemma first_line_before_newline content :
  (if truthy content then hd [] (split_lines content) else [])
  = before_newline content.
Proof.
  destruct content as [| c s]; [reflexivity|]. cbn [truthy].
  unfold split_lines, split_char. now rewrite split_scan_hd.
Qed.

(** The position score never divides by zero and is not negative. *)
Lemma position_score_total content query :
  query <> [] ->
  let first_match := find (lower content) (lower query) in
  exists position_score,
    (if negb (first_match =? -1)
     then q <- int_truediv first_match (len content);; Ok (fsub f_one q)
     else Ok f_zero) = Ok position_score /\
    nonneg position_score = true.
Proof.
  intros Hq first_match.
  destruct (Z.eqb_spec first_match (-1)) as [E | E]; simpl.
  - now exists f_zero.
  - pose proof (find_found_range _ _ (lower_nonempty _ Hq) E) as Hr.
    fold first_match in Hr. rewrite len_lower in Hr.
    unfold int_truediv. destruct (Z.eqb_spec (len content) 0); [lia|].
    simpl. eexists. split; [reflexivity|].
    apply fsub_one_nonneg, int_truediv_unit. lia.
Qed.

(** The score is returned, never raised, and lies in [0, 1]. *)
Lemma _calculate_relevance_score_unit content query tags :
  exists score,
    _calculate_relevance_score content query tags = Ok score /\
    fleb f_zero score = true /\ fleb score f_one = true.
Proof.
  unfold _calculate_relevance_score.
  destruct query as [| q0 query]; [now exists f_half|].
  cbn [truthy negb].
  destruct (position_score_total content (q0 :: query) ltac:(discriminate))
    as (ps & Hps & Hnn).
  cbv zeta in Hps. rewrite Hps. cbn [bind].
  eexists. split; [reflexivity|].
  apply pymin_one_unit, fdiv_ten_nonneg.
  apply fadd_nonneg; trivial.
  apply fadd_nonneg.
  - apply fadd_nonneg; [apply of_int_nonneg, count_nonneg|].
    now destruct (contains _ _).
  - destruct tags as [[| t tags] |]; trivial.
    now destruct (existsb _ _).
Qed.

(** C9 (relevance score, safety). For a non-empty query the score never
    divides by zero: in an empty content [find] reports no match, a
    reported match means a content that is not empty, so the quotient of
    the position score is defined; and the computation returns a float
    [score] with [0.0 <= score <= 1.0]. *)
Theorem C9_relevance_score_total :
  forall (content query : str) (tags : option (list str)),
    query <> [] ->
    let first_match := find (lower content) (lower query) in
    (content = [] -> first_match = -1) /\
    (first_match <> -1 ->
     len content <> 0 /\
     exists q, int_truediv first_match (len content) = Ok q) /\
    exists score,
      _calculate_relevance_score content query tags = Ok score /\
      fleb f_zero score = true /\ fleb score f_one = true.
Proof.
  intros content query tags Hq first_match. split; [|split].
  - intros ->. now apply find_in_empty, lower_nonempty.
  - intros Hf.
    pose proof (find_found_range _ _ (lower_nonempty _ Hq) Hf) as Hr.
    fold first_match in Hr. rewrite len_lower in Hr.
    split; [lia|]. unfold int_truediv.
    destruct (Z.eqb_spec (len content) 0); [lia | eauto].
  - apply _calculate_relevance_score_unit.
Qed.

Lemma C9_relevance_score_total_witness :
  lit "hello" <> [] /\
  exists score,
    _calculate_relevance_score (lit "abcdef hello world") (lit "hello")
                               (Some [lit "xhellox"]) = Ok score /\
    fleb f_zero score = true /\ fleb score f_one = true.
Proof.
  assert (Hq : lit "hello" <> []) by discriminate.
  split; [exact Hq|].
  exact (proj2 (proj2 (C9_relevance_score_total (lit "abcdef hello world")
                         (lit "hello") (Some [lit "xhellox"]) Hq))).
Defined.

(** C3 (relevance score, formula). An empty query scores exactly 0.5.
    Otherwise the score is [min(1.0, raw / 10.0)], [raw] being the sum,
    from left to right, of the [count] of the lowercased query in the
    lowercased content, a title bonus (2.0 exactly when the lowercased
    query is a substring of the lowercased first line, else 0.0), a tag
    bonus (1.0 exactly when it is a substring of some lowercased tag, else
    0.0) and a position score ([1.0 - i / len(content)] for the first
    position [i] where it occurs in the lowercased content, 0.0 when it
    occurs nowhere). *)
Theorem C3_relevance_score_formula :
  forall (content query : str) (tags : option (list str)),
    (query = [] ->
     _calculate_relevance_score content query tags = Ok f_half) /\
    (query <> [] ->
     let q := lower query in
     let c := lower content in
     exists title_bonus tag_bonus position_score,
       _calculate_relevance_score content query tags
       = Ok (pymin f_one
               (fdiv (fadd (fadd (fadd (of_int (count c q)) title_bonus)
                                 tag_bonus)
                           position_score)
                     f_ten)) /\
       (title_bonus = f_two /\ Substring q (lower (before_newline content)) \/
        title_bonus = f_zero /\ ~ Substring q (lower (before_newline content))) /\
       (tag_bonus = f_one /\
        (exists tag, In tag (tags_of tags) /\ Substring q (lower tag)) \/
        tag_bonus = f_zero /\
        ~ (exists tag, In tag (tags_of tags) /\ Substring q (lower tag))) /\
       ((exists (i : nat) (quotient : float),
            FirstOccurrence q c i /\
            int_truediv (Z.of_nat i) (len content) = Ok quotient /\
            position_score = fsub f_one quotient) \/
        ~ Substring q c /\ position_score = f_zero)).
Proof.
  intros content query tags. split.
  - now intros ->.
  - intros Hq q c. unfold _calculate_relevance_score.
    apply truthy_true in Hq as Ht. rewrite Ht. cbn [negb].
    rewrite first_line_before_newline. fold q c.
    destruct (position_score_total content query Hq) as (ps & Hps & _).
    cbv zeta in Hps. fold q c in Hps. rewrite Hps. cbn [bind].
    eexists _, _, ps. split; [reflexivity|]. split; [|split].
    + destruct (contains (lower (before_newline content)) q) eqn:E.
      * left. split; trivial. now apply contains_spec.
      * right. split; trivial. rewrite <- contains_spec. congruence.
    + assert (Hex : forall l,
                 existsb (fun tag => contains (lower tag) q) l = true
                 <-> exists tag, In tag l /\ Substring q (lower tag)).
      { intros l. rewrite existsb_exists.
        split; intros (t & H1 & H2); exists t; split; trivial;
          now apply contains_spec. }
      destruct tags as [[| t l] |]; simpl tags_of.
      * right. split; trivial. intros (t & [] & _).
      * destruct (existsb _ (t :: l)) eqn:E.
        -- left. split; trivial. now apply Hex.
        -- right. split; trivial. rewrite <- Hex. congruence.
      * right. split; trivial. intros (t & [] & _).
    + destruct (find_spec c q) as [[H1 H2] | (k & H1 & H2)].
      * right. split; trivial. rewrite H1 in Hps. simpl in Hps. congruence.
      * left. rewrite H1 in Hps.
        replace (Z.of_nat k =? -1) with false in Hps
          by (symmetry; apply Z.eqb_neq; lia).
        cbn [negb] in Hps. inv_bind Hps.
        exists k, a. split; [trivial|]. split; [trivial | congruence].
Qed.

Lemma C3_relevance_score_formula_witness :
  lit "hello" <> [] /\
  exists title_bonus tag_bonus position_score,
    _calculate_relevance_score (lit "abcdef hello world") (lit "hello")
                               (Some [lit "xhellox"])
    = Ok (pymin f_one
            (fdiv (fadd (fadd (fadd (of_int 1) title_bonus) tag_bonus)
                        position_score)
                  f_ten)).
Proof.
  assert (Hq : lit "hello" <> []) by discriminate.
  split; [exact Hq|].
  destruct (proj2 (C3_relevance_score_formula (lit "abcdef hello world")
                     (lit "hello") (Some [lit "xhellox"])) Hq)
    as (tb & gb & ps & H & _).
  exists tb, gb, ps. exact H.
Defined.

(* ================================================================== *)
(** ** Dicts *)
(* ================================================================== *)

(** Case analysis on the comparison of two keys in the goal. *)
Ltac case_key :=
  match goal with
  | |- context [str_eq_dec ?a ?b] => destruct (str_eq_dec a b)
  end.

Lemma dict_get_set d k v k' :
  dict_get (dict_set d k v) k' = if str_eq_dec k' k then Some v else dict_get d k'.
Proof.
  induction d as [| [k0 v0] d IH]; simpl.
  - destruct (str_eq_dec k' k); reflexivity.
  - destruct (str_eq_dec k k0) as [-> | Hne]; simpl.
    + destruct (str_eq_dec k' k0); reflexivity.
    + destruct (str_eq_dec k' k0) as [-> | Hne'].
      * destruct (str_eq_dec k0 k); [congruence | reflexivity].
      * exact IH.
Qed.

Lemma dict_has_set d k v k' :
  dict_has (dict_set d k v) k' = (if str_eq_dec k' k then true else dict_has d k').
Proof.
  unfold dict_has. rewrite dict_get_set. now destruct (str_eq_dec k' k).
Qed.

Lemma dict_get_del d k k' :
  k' <> k -> dict_get (dict_del d k) k' = dict_get d k'.
Proof.
  intros Hne. induction d as [| [k0 v0] d IH]; simpl; trivial.
  destruct (str_eq_dec k k0) as [-> | Hk]; simpl.
  - destruct (str_eq_dec k' k0); [congruence | reflexivity].
  - now rewrite IH.
Qed.

(* ================================================================== *)
(** ** Format stage: which notes carry a score *)
(* ================================================================== *)

Lemma memo_get_extra m k :
  k = lit "relevance_score" \/ k = lit "match_snippets" ->
  memo_get m k = dict_get (m_extra m) k.
Proof. intros [-> | ->]; reflexivity. Qed.

Lemma copy_field_get m d f k :
  dict_get (copy_field m d f) k
  = match memo_get m f with
    | Some v => if str_eq_dec k f then Some v else dict_get d k
    | None => dict_get d k
    end.
Proof.
  unfold copy_field. destruct (memo_get m f); [apply dict_get_set | reflexivity].
Qed.

Lemma copy_fields_get m flds d k :
  dict_get (fold_left (copy_field m) flds d) k
  = match memo_get m k with
    | Some v => if existsb (str_eqb k) flds then Some v else dict_get d k
    | None => dict_get d k
    end.
Proof.
  revert d; induction flds as [| f flds IH]; intros d; cbn [fold_left existsb].
  - now destruct (memo_get m k).
  - rewrite IH, copy_field_get. unfold str_eqb at 2.
    destruct (str_eq_dec k f) as [<- | Hne]; cbn [orb].
    + destruct (memo_get m k) as [v |]; trivial.
      now destruct (existsb _ flds).
    + now destruct (memo_get m f).
Qed.

(** The smart summary is returned, never raised. *)
Lemma _generate_smart_summary_total m query max_length :
  exists summary, _generate_smart_summary m query max_length = Ok summary.
Proof.
  unfold _generate_smart_summary.
  destruct (truthy (get_str (m_content m))); cbn [negb]; [|eauto].
  destruct (truthy query); cbn [andb].
  - destruct (_extract_snippet_around_match_total (get_str (m_content m)) query 50)
      as [snippets ->]; [lia|]. cbn [bind].
    destruct (truthy snippets); eauto.
  - cbn [bind]. eauto.
Qed.

(** The content part of the SUMMARY format: the note carries a score
    exactly when the query is not empty, and then a float in [0, 1]. *)
Lemma summary_content_spec m p q d :
  dict_has d (lit "relevance_score") = false ->
  exists formatted,
    summary_content m p q d = Ok formatted /\
    if truthy q
    then exists score,
        dict_get formatted (lit "relevance_score") = Some (VFloat score) /\
        fleb f_zero score = true /\ fleb score f_one = true
    else dict_has formatted (lit "relevance_score") = false.
Proof.
  intros Hd. unfold summary_content.
  destruct (truthy q) eqn:Eq; rewrite ?orb_true_r, ?orb_false_r.
  - destruct (_generate_smart_summary_total m q (content_max_length p))
      as [summary ->]. cbn [bind].
    destruct (_extract_snippet_around_match_total (get_str (m_content m)) q 50)
      as [snippets ->]; [lia|]. cbn [bind].
    destruct (_calculate_relevance_score_unit (get_str (m_content m)) q
                (Some (get_tags m))) as (score & -> & H0 & H1). cbn [bind].
    eexists. split; [reflexivity|]. exists score.
    rewrite dict_get_set. destruct (str_eq_dec _ _); [auto | congruence].
  - destruct (summary_only p).
    + destruct (_generate_smart_summary_total m q (content_max_length p))
        as [summary ->]. cbn [bind].
      eexists. split; [reflexivity|]. now rewrite dict_has_set.
    + eexists. split; [reflexivity|]. now rewrite dict_has_set.
Qed.

(** The format stage is total. *)
Lemma _apply_response_format_total m p q :
  exists formatted, _apply_response_format m p q = Ok formatted.
Proof.
  unfold _apply_response_format.
  destruct (response_format p); cbn [bind]; eauto.
  edestruct (summary_content_spec m p q) as (f & -> & _); [reflexivity|].
  cbn [bind]. eauto.
Qed.

(** The key [relevance_score] of a formatted note, format by format. *)
Lemma _apply_response_format_score m p q formatted :
  _apply_response_format m p q = Ok formatted ->
  match response_format p with
  | SUMMARY =>
      if truthy q
      then exists score,
          dict_get formatted (lit "relevance_score") = Some (VFloat score) /\
          fleb f_zero score = true /\ fleb score f_one = true
      else dict_has formatted (lit "relevance_score") = false
  | FULL =>
      dict_get formatted (lit "relevance_score")
      = if existsb (str_eqb (lit "relevance_score")) (fields p)
        then dict_get (m_extra m) (lit "relevance_score")
        else None
  | MINIMAL | ID_ONLY => dict_has formatted (lit "relevance_score") = false
  end.
Proof.
  unfold _apply_response_format.
  destruct (response_format p); cbn [bind ResponseFormat_eqb negb andb].
  - (* FULL *)
    rewrite andb_false_r. intros [= <-].
    rewrite copy_fields_get, memo_get_extra by auto.
    destruct (dict_get (m_extra m) _); [|now destruct (existsb _ _)].
    reflexivity.
  - (* SUMMARY *)
    edestruct (summary_content_spec m p q) as (f & -> & Hf); [reflexivity|].
    cbn [bind]. intros [= <-].
    set (g := dict_set (dict_set f _ _) _ _).
    assert (Hg : dict_get g (lit "relevance_score")
                 = dict_get f (lit "relevance_score")).
    { unfold g. now rewrite !dict_get_set. }
    assert (Hr : dict_get (if dict_has g (lit "nodes") && true
                           then dict_del g (lit "nodes") else g)
                          (lit "relevance_score")
                 = dict_get f (lit "relevance_score")).
    { destruct (dict_has g (lit "nodes") && true); trivial.
      rewrite dict_get_del; [trivial | discriminate]. }
    destruct (truthy q).
    + destruct Hf as (score & Hs & H01). exists score.
      split; [|exact H01]. rewrite <- Hs. exact Hr.
    + apply (f_equal (fun o : option pyval =>
                        match o with Some _ => true | None => false end)) in Hr.
      etransitivity; [exact Hr | exact Hf].
  - (* MINIMAL *)
    intros [= <-]. reflexivity.
  - (* ID_ONLY *)
    intros [= <-]. reflexivity.
Qed.

(* ================================================================== *)
(** ** Floats: the order of [SFcompare] *)
(* ================================================================== *)

Lemma SFcompare_rank x y :
  is_nan x = false -> is_nan y = false ->
  SFcompare x y = Some (rank_compare (float_rank x) (float_rank y)).
Proof.
  destruct x as [sx | [|] | | [|] mx ex]; try discriminate;
    destruct y as [sy | [|] | | [|] my ey]; try discriminate;
    intros _ _; try reflexivity; cbn [SFcompare float_rank rank_compare].
  simpl (-1 ?= -1). cbv iota. rewrite Z.compare_opp, (Z.compare_antisym ex ey).
  destruct (ex ?= ey); reflexivity.
Qed.

Lemma rank_compare_trans a b c :
  rank_compare a b <> Gt -> rank_compare b c <> Gt -> rank_compare a c <> Gt.
Proof.
  destruct a as [[a1 a2] a3], b as [[b1 b2] b3], c as [[c1 c2] c3].
  unfold rank_compare.
  destruct (Z.compare_spec a1 b1), (Z.compare_spec b1 c1),
    (Z.compare_spec a1 c1); try congruence; try lia;
  destruct (Z.compare_spec a2 b2), (Z.compare_spec b2 c2),
    (Z.compare_spec a2 c2); try congruence; try lia;
  destruct (Z.compare_spec a3 b3), (Z.compare_spec b3 c3),
    (Z.compare_spec a3 c3); try congruence; try lia.
Qed.

Lemma rank_compare_antisym a b : rank_compare b a = CompOpp (rank_compare a b).
Proof.
  destruct a as [[a1 a2] a3], b as [[b1 b2] b3]. unfold rank_compare.
  rewrite (Z.compare_antisym a1 b1), (Z.compare_antisym a2 b2),
    (Z.compare_antisym a3 b3).
  destruct (a1 ?= b1), (a2 ?= b2), (a3 ?= b3); reflexivity.
Qed.

Lemma fleb_not_nan x y : fleb x y = true -> is_nan x = false /\ is_nan y = false.
Proof.
  unfold fleb, SFleb.
  destruct x as [sx | sx | | sx mx ex]; destruct y as [sy | sy | | sy my ey];
    simpl; try discriminate; auto.
Qed.

Lemma fleb_rank x y :
  is_nan x = false -> is_nan y = false ->
  fleb x y = true <-> rank_compare (float_rank x) (float_rank y) <> Gt.
Proof.
  intros Hx Hy. unfold fleb, SFleb. rewrite SFcompare_rank by trivial.
  destruct (rank_compare _ _); split; congruence.
Qed.

Lemma fltb_rank x y :
  is_nan x = false -> is_nan y = false ->
  fltb x y = true <-> rank_compare (float_rank x) (float_rank y) = Lt.
Proof.
  intros Hx Hy. unfold fltb, SFltb. rewrite SFcompare_rank by trivial.
  destruct (rank_compare _ _); split; congruence.
Qed.

Lemma fleb_trans x y z : fleb x y = true -> fleb y z = true -> fleb x z = true.
Proof.
  intros H1 H2.
  destruct (fleb_not_nan _ _ H1) as [Hx Hy].
  destruct (fleb_not_nan _ _ H2) as [_ Hz].
  rewrite fleb_rank in * by trivial. eapply rank_compare_trans; eauto.
Qed.

Lemma fltb_false_fleb x y :
  is_nan x = false -> is_nan y = false -> fltb x y = false -> fleb y x = true.
Proof.
  intros Hx Hy H. apply fleb_rank; trivial.
  rewrite rank_compare_antisym.
  assert (rank_compare (float_rank x) (float_rank y) <> Lt).
  { rewrite <- fltb_rank by trivial. congruence. }
  destruct (rank_compare _ _); simpl; congruence.
Qed.

(* ================================================================== *)
(** ** Sorting: the result is in descending order *)
(* ================================================================== *)

Section SortSorted.
Context {A K : Type}.
Variable key : A -> K.
Variables ltb leb : K -> K -> bool.
(** The keys met, on which [ltb] and [leb] are one total preorder. *)
Variable dom : K -> Prop.
Hypothesis ltb_leb :
  forall a b, dom a -> dom b -> ltb a b = true -> leb a b = true.
Hypothesis not_ltb_leb :
  forall a b, dom a -> dom b -> ltb a b = false -> leb b a = true.
Hypothesis leb_trans :
  forall a b c, leb a b = true -> leb b c = true -> leb a c = true.

Let desc (a b : A) : Prop := leb (key b) (key a) = true.

Lemma insert_desc_sorted x l :
  dom (key x) -> Forall (fun a => dom (key a)) l ->
  StronglySorted desc l ->
  StronglySorted desc (insert_desc key ltb x l).
Proof.
  intros Hx Hl Hs. induction Hs as [| y l Hs IH Hy]; simpl.
  - repeat constructor.
  - inversion Hl as [| ? ? Hdy Hl']; subst.
    destruct (ltb (key x) (key y)) eqn:E.
    + constructor; [now apply IH|].
      apply Forall_forall. intros z Hz.
      apply (Permutation_in _ (insert_desc_perm key ltb x l)) in Hz.
      destruct Hz as [<- | Hz].
      * now apply ltb_leb.
      * rewrite Forall_forall in Hy. now apply Hy.
    + assert (Hxy : desc x y) by now apply not_ltb_leb.
      constructor; [now constructor|].
      constructor; trivial.
      apply Forall_forall. intros z Hz. rewrite Forall_forall in Hy.
      unfold desc. eapply leb_trans; [apply (Hy z Hz) | exact Hxy].
Qed.

Lemma sort_desc_dom l :
  Forall (fun a => dom (key a)) l ->
  Forall (fun a => dom (key a)) (sort_desc key ltb l).
Proof.
  intros H. rewrite Forall_forall in *. intros a Ha.
  apply H. now apply (Permutation_in _ (sort_desc_perm key ltb l)).
Qed.

Lemma sort_desc_sorted l :
  Forall (fun a => dom (key a)) l ->
  StronglySorted desc (sort_desc key ltb l).
Proof.
  induction l as [| x l IH]; intros H; simpl; [constructor|].
  inversion H; subst.
  apply insert_desc_sorted; auto using sort_desc_dom.
Qed.
End SortSorted.

Section SortedSlices.
Context {A : Type} (R : A -> A -> Prop).

Lemma StronglySorted_firstn n l :
  StronglySorted R l -> StronglySorted R (firstn n l).
Proof.
  intros H. revert n; induction H as [| x l Hs IH Hx]; intros [| n]; simpl;
    try constructor; auto.
  rewrite Forall_forall in *. intros y Hy. apply Hx.
  rewrite <- (firstn_skipn n l). apply in_or_app. now left.
Qed.

Lemma StronglySorted_skipn n l :
  StronglySorted R l -> StronglySorted R (skipn n l).
Proof.
  intros H. revert n; induction H as [| x l Hs IH Hx]; intros [| n]; simpl;
    try constructor; auto.
Qed.

Lemma StronglySorted_slice l lo hi :
  StronglySorted R l -> StronglySorted R (slice l lo hi).
Proof.
  intros H. unfold slice. now apply StronglySorted_skipn, StronglySorted_firstn.
Qed.
End SortedSlices.

(** The first sort leaves the records newest first. *)
Lemma sort_createTime_sorted l :
  StronglySorted createTime_desc (sort_desc createTime_key str_ltb l).
Proof.
  apply (sort_desc_sorted createTime_key str_ltb str_leb (fun _ => True)).
  - intros a b _ _ H. unfold str_ltb in H. apply negb_true_iff in H.
    destruct (str_leb_total a b); congruence.
  - intros a b _ _ H. unfold str_ltb in H. now apply negb_false_iff in H.
  - apply str_leb_trans.
  - now apply Forall_forall.
Qed.

Lemma selected_page_sorted all_memos p :
  StronglySorted createTime_desc (selected_page all_memos p).
Proof.
  unfold selected_page, page_of, _paginate_results. simpl.
  apply StronglySorted_slice, sort_createTime_sorted.
Qed.

(** On float keys the second sort never raises and is the total sort. *)
Lemma insert_desc_r_float {A} (key : A -> pyval) x l :
  float_key (key x) -> Forall (fun a => float_key (key a)) l ->
  insert_desc_r key py_lt x l = Ok (insert_desc key pyval_ltb x l).
Proof.
  intros (fx & Hx & _) Hl. induction Hl as [| y l (fy & Hy & _) Hl IH]; simpl.
  - reflexivity.
  - unfold pyval_ltb. rewrite Hx, Hy. cbn [py_lt bind].
    destruct (fltb fx fy); [|reflexivity].
    rewrite IH. reflexivity.
Qed.

Lemma sort_desc_r_float {A} (key : A -> pyval) l :
  Forall (fun a => float_key (key a)) l ->
  sort_desc_r key py_lt l = Ok (sort_desc key pyval_ltb l).
Proof.
  induction 1 as [| x l Hx Hl IH]; simpl; [reflexivity|].
  rewrite IH. cbn [bind]. apply insert_desc_r_float; trivial.
  now apply (sort_desc_dom key pyval_ltb float_key).
Qed.

Lemma sort_desc_float_sorted (l : list dict) :
  Forall (fun a => float_key (relevance_key a)) l ->
  StronglySorted score_desc (sort_desc relevance_key pyval_ltb l).
Proof.
  apply (sort_desc_sorted relevance_key pyval_ltb pyval_fleb float_key).
  - intros a b (x & -> & Hx) (y & -> & Hy). unfold pyval_ltb. simpl.
    apply fltb_fleb.
  - intros a b (x & -> & Hx) (y & -> & Hy). unfold pyval_ltb. simpl.
    now apply fltb_false_fleb.
  - intros [] [] []; simpl; try discriminate. apply fleb_trans.
Qed.

(* ================================================================== *)
(** ** The search operation: the relevance sort *)
(* ================================================================== *)

Lemma search_memos_enhanced_run all_memos p formatted sorted :
  mapM (fun memo => _apply_response_format memo p (query p))
       (selected_page all_memos p) = Ok formatted ->
  (if resort_condition p formatted
   then sort_desc_r relevance_key py_lt formatted
   else Ok formatted) = Ok sorted ->
  exists r, search_memos_enhanced all_memos p = Ok r /\ memos r = sorted.
Proof.
  unfold search_memos_enhanced, selected_page, page_of, _paginate_results.
  cbn zeta; simpl fst. intros -> H. cbn [bind]. rewrite H. cbn [bind].
  eexists. split; reflexivity.
Qed.

(** The page is formatted record by record, in order. *)
Lemma formatted_page_total all_memos p :
  exists formatted,
    mapM (fun memo => _apply_response_format memo p (query p))
         (selected_page all_memos p) = Ok formatted.
Proof.
  apply mapM_total, Forall_forall. intros m _.
  apply _apply_response_format_total.
Qed.

(** In the SUMMARY format with a query every note of the page has a float
    score as key of the sort. *)
Lemma summary_page_float_keys p (page : list memo) formatted :
  response_format p = SUMMARY -> query p <> [] ->
  Forall2 (fun m f => _apply_response_format m p (query p) = Ok f)
          page formatted ->
  Forall (fun f => float_key (relevance_key f) /\
                   dict_has f (lit "relevance_score") = true) formatted.
Proof.
  intros Hfmt Hq H. induction H as [| m f page formatted Hmf _ IH];
    constructor; trivial.
  apply _apply_response_format_score in Hmf. rewrite Hfmt in Hmf.
  apply truthy_true in Hq. rewrite Hq in Hmf.
  destruct Hmf as (score & Hs & H0 & _).
  unfold relevance_key, dict_has. rewrite Hs. split; trivial.
  exists score. split; trivial. now apply fleb_not_nan in H0.
Qed.


(* ================================================================== *)
(** ** The search operation: when the relevance sort does not run *)
(* ================================================================== *)

(** Without a query the content part of the SUMMARY format sets the key
    [content] and no other. *)
Lemma summary_content_no_query m p d formatted k :
  k <> lit "content" ->
  summary_content m p [] d = Ok formatted ->
  dict_get formatted k = dict_get d k.
Proof.
  intros Hk. unfold summary_content. cbn [truthy]. rewrite orb_false_r.
  destruct (summary_only p).
  - intros H. inv_bind H. injection H as <-.
    rewrite dict_get_set. case_key; [contradiction | reflexivity].
  - intros [= <-].
    rewrite dict_get_set. case_key; [contradiction | reflexivity].
Qed.

Lemma existsb_str_eqb_In k l : existsb (str_eqb k) l = true <-> In k l.
Proof.
  rewrite existsb_exists. split.
  - intros (x & Hx & E). apply str_eqb_eq in E. now subst.
  - intros H. exists k. split; trivial. now apply str_eqb_eq.
Qed.

(** A formatted note has the key [relevance_score] or [match_snippets]
    only in the SUMMARY format with a query, or in the FULL format as a
    copy of a key of the record that [fields] names. *)
Lemma _apply_response_format_has m p q formatted k :
  k = lit "relevance_score" \/ k = lit "match_snippets" ->
  _apply_response_format m p q = Ok formatted ->
  dict_has formatted k = true ->
  (response_format p = SUMMARY /\ q <> []) \/
  (response_format p = FULL /\ In k (fields p) /\
   dict_has (m_extra m) k = true).
Proof.
  intros Hk. unfold _apply_response_format.
  destruct (response_format p) eqn:Efmt;
    cbn [bind ResponseFormat_eqb negb andb].
  - (* FULL *)
    rewrite andb_false_r. intros [= <-]. unfold dict_has.
    rewrite copy_fields_get, memo_get_extra by trivial.
    intros H. right. split; trivial.
    destruct (dict_get (m_extra m) k) as [v |] eqn:Ev.
    + destruct (existsb (str_eqb k) (fields p)) eqn:Ee.
      * split; [now apply existsb_str_eqb_In | reflexivity].
      * exfalso. destruct Hk as [-> | ->]; discriminate H.
    + exfalso. destruct Hk as [-> | ->]; discriminate H.
  - (* SUMMARY *)
    intros H Hhas. left. split; trivial. intros ->. inv_bind H.
    injection H as <-. inv_bind Ha. injection Ha as <-.
    assert (Hk' : k <> lit "content" /\ k <> lit "tags" /\
                  k <> lit "snippet" /\ k <> lit "nodes")
      by (destruct Hk as [-> | ->]; repeat split; discriminate).
    destruct Hk' as (Hc & Ht & Hs & Hn).
    pose proof (summary_content_no_query m p _ _ k Hc Ha0) as Hget.
    set (g := dict_set (dict_set a0 _ _) _ _) in Hhas.
    assert (Hg : dict_get g k = dict_get a0 k).
    { unfold g. rewrite !dict_get_set.
      case_key; [contradiction|]. case_key; [contradiction | reflexivity]. }
    assert (Hd : forall b : bool,
               dict_has (if b then dict_del g (lit "nodes") else g) k
               = dict_has g k).
    { intros [|]; trivial. unfold dict_has. now rewrite dict_get_del. }
    assert (Hfalse : dict_has g k = false).
    { unfold dict_has. rewrite Hg, Hget.
      destruct Hk as [-> | ->]; reflexivity. }
    rewrite <- (Hd (dict_has g (lit "nodes") && true)) in Hfalse.
    assert (Habs : true = false) by (rewrite <- Hhas; exact Hfalse).
    discriminate Habs.
  - (* MINIMAL *)
    intros [= <-] H. exfalso. destruct Hk as [-> | ->]; discriminate H.
  - (* ID_ONLY *)
    intros [= <-] H. exfalso. destruct Hk as [-> | ->]; discriminate H.
Qed.

Lemma In_slice {A} (l : list A) lo hi x : In x (slice l lo hi) -> In x l.
Proof.
  unfold slice. intros H.
  set (n := Z.to_nat (clip_index (len l) lo)) in H.
  set (k := Z.to_nat (clip_index (len l) hi)) in H.
  rewrite <- (firstn_skipn k l). apply in_or_app. left.
  rewrite <- (firstn_skipn n (firstn k l)). apply in_or_app. now right.
Qed.

Lemma selected_page_incl all_memos p m :
  In m (selected_page all_memos p) -> In m all_memos.
Proof.
  unfold selected_page, page_of, _paginate_results. simpl. intros H.
  apply In_slice in H.
  apply (Permutation_in _ (sort_desc_perm _ _ _)) in H.
  rewrite filter_stage_as_filter in H. now apply filter_In in H.
Qed.

(** When no note of the page has a score the answer is the formatted page
    in its order. *)
Lemma search_memos_enhanced_keeps_order all_memos p :
  (forall m f, In m all_memos ->
               _apply_response_format m p (query p) = Ok f ->
               dict_has f (lit "relevance_score") = false) ->
  exists r,
    search_memos_enhanced all_memos p = Ok r /\
    resort_condition p (memos r) = false /\
    Forall2 (fun m f => _apply_response_format m p (query p) = Ok f)
            (selected_page all_memos p) (memos r).
Proof.
  intros Hno.
  destruct (formatted_page_total all_memos p) as [formatted Hmap].
  pose proof (mapM_Ok_inv _ _ _ Hmap) as HF2.
  assert (Hc : resort_condition p formatted = false).
  { unfold resort_condition. apply andb_false_iff. right.
    assert (Hin : forall m, In m (selected_page all_memos p) -> In m all_memos)
      by (intros m; apply selected_page_incl).
    clear Hmap. induction HF2 as [| m f page fs Hm _ IH]; [reflexivity|].
    cbn [existsb]. rewrite (Hno m f); [|apply Hin; now left | exact Hm].
    apply IH. intros m' Hm'. apply Hin. now right. }
  destruct (search_memos_enhanced_run all_memos p formatted formatted Hmap)
    as (r & Hr & Hmemos); [now rewrite Hc|].
  exists r. rewrite Hmemos. auto.
Qed.





(** C10, as stated, fails in the FULL format: two records of the store
    that have a key [relevance_score] of their own, named in [fields],
    carry it into their formatted notes; the condition of the relevance
    sort holds and the answer is no longer in the order of creation
    times. *)
Lemma C10_counterexample :
  let p := Examples.scored_params in
  response_format p = FULL /\
  map m_name (selected_page Examples.scored_notes p)
  = [Some (lit "memos/1"); Some (lit "memos/2")] /\
  exists r,
    search_memos_enhanced Examples.scored_notes p = Ok r /\
    resort_condition p (memos r) = true /\
    map id_of (memos r)
    = [Some (VStr (lit "memos/2")); Some (VStr (lit "memos/1"))] /\
    map (fun f => dict_get f (lit "createTime")) (memos r)
    = [Some (VStr (lit "2024-01-01")); Some (VStr (lit "2024-01-02"))].
Proof.
  intros p. split; [reflexivity|]. split; [vm_compute; reflexivity|].
  eexists. split; [vm_compute; reflexivity|].
  repeat split; vm_compute; reflexivity.
Qed.

(** C10 (amended). The format stage computes and attaches a relevance
    score and match snippets only in the SUMMARY format with a non-empty
    query, where the score is always attached; a note in the FULL format
    has one of these keys only as a copy of a key of the record itself
    that [fields] names.  So in the MINIMAL and ID_ONLY formats, and in
    the FULL format when no record has a key [relevance_score] that
    [fields] names, the condition of the relevance sort does not hold and
    the answer is the formatted page in the descending order of creation
    times, with or without a text query. *)
Theorem C10_scores_attached_in_summary_only :
  forall (all_memos : list memo) (p : EnhancedMemosSearchParams),
    (forall m q formatted k,
        k = lit "relevance_score" \/ k = lit "match_snippets" ->
        _apply_response_format m p q = Ok formatted ->
        dict_has formatted k = true ->
        (response_format p = SUMMARY /\ q <> []) \/
        (response_format p = FULL /\ In k (fields p) /\
         dict_has (m_extra m) k = true)) /\
    (forall m q formatted,
        response_format p = SUMMARY -> q <> [] ->
        _apply_response_format m p q = Ok formatted ->
        dict_has formatted (lit "relevance_score") = true) /\
    (response_format p <> SUMMARY ->
     (response_format p = FULL ->
      In (lit "relevance_score") (fields p) ->
      forall m, In m all_memos ->
                dict_has (m_extra m) (lit "relevance_score") = false) ->
     exists r,
       search_memos_enhanced all_memos p = Ok r /\
       resort_condition p (memos r) = false /\
       Forall2 (fun m f => _apply_response_format m p (query p) = Ok f)
               (selected_page all_memos p) (memos r) /\
       StronglySorted createTime_desc (selected_page all_memos p)).
Proof.
  intros all_memos p. split; [|split].
  - intros m q formatted k. apply _apply_response_format_has.
  - intros m q formatted Hfmt Hq H.
    apply _apply_response_format_score in H. rewrite Hfmt in H.
    apply truthy_true in Hq. rewrite Hq in H.
    destruct H as (score & Hs & _). unfold dict_has. now rewrite Hs.
  - intros Hfmt Hraw.
    destruct (search_memos_enhanced_keeps_order all_memos p) as (r & H1 & H2 & H3).
    { intros m f Hm Hf.
      destruct (dict_has f (lit "relevance_score")) eqn:E; trivial.
      destruct (_apply_response_format_has m p (query p) f
                  (lit "relevance_score") (or_introl eq_refl) Hf E)
        as [[H _] | (Hfull & Hin & Hex)]; [contradiction|].
      rewrite (Hraw Hfull Hin m Hm) in Hex. discriminate Hex. }
    exists r. repeat split; trivial. apply selected_page_sorted.
Qed.

Lemma C10_scores_attached_in_summary_only_witness :
  let p := Examples.params_of "beta" 10 0 MINIMAL in
  response_format p <> SUMMARY /\
  exists r,
    search_memos_enhanced Examples.two_notes p = Ok r /\
    resort_condition p (memos r) = false /\
    Forall2 (fun m f => _apply_response_format m p (query p) = Ok f)
            (selected_page Examples.two_notes p) (memos r).
Proof.
  intros p.
  assert (Hfmt : response_format p <> SUMMARY) by discriminate.
  split; [exact Hfmt|].
  assert (Hraw : response_format p = FULL ->
                 In (lit "relevance_score") (fields p) ->
                 forall m, In m Examples.two_notes ->
                           dict_has (m_extra m) (lit "relevance_score") = false)
    by discriminate.
  destruct (proj2 (proj2 (C10_scores_attached_in_summary_only
                            Examples.two_notes p)) Hfmt Hraw)
    as (r & H1 & H2 & H3 & _).
  exists r. auto.
Defined.

(* ================================================================== *)
(** * Part III: further properties of the code *)
(* ================================================================== *)

(** ** The constructor of the parameters *)

(** X1. [__post_init__] puts the limit in [1, 50], the offset in
    [0, +oo) and the content length in [50, 2000] by moving a value
    outside its range to the nearest bound, leaves the other fields
    alone, and changes nothing when run a second time. *)
Theorem X1_post_init_clamps :
  forall p : EnhancedMemosSearchParams,
    limit (post_init p) = Z.max 1 (Z.min 50 (limit p)) /\
    offset (post_init p) = Z.max 0 (offset p) /\
    content_max_length (post_init p)
    = Z.min 2000 (Z.max 50 (content_max_length p)) /\
    (query (post_init p), fields (post_init p), summary_only (post_init p),
     date_from (post_init p), date_to (post_init p),
     tags_filter (post_init p), response_format (post_init p),
     group_by_tag (post_init p))
    = (query p, fields p, summary_only p, date_from p, date_to p,
       tags_filter p, response_format p, group_by_tag p) /\
    post_init (post_init p) = post_init p.
Proof.
  intros p.
  assert (Hl : limit (post_init p) = Z.max 1 (Z.min 50 (limit p))).
  { unfold post_init; cbn [limit]. destruct (Z.gtb_spec (limit p) 50);
      match goal with |- context [?a <? 1] => destruct (Z.ltb_spec a 1) end; lia. }
  assert (Ho : offset (post_init p) = Z.max 0 (offset p)).
  { unfold post_init; cbn [offset]. destruct (Z.ltb_spec (offset p) 0); lia. }
  assert (Hc : content_max_length (post_init p)
               = Z.min 2000 (Z.max 50 (content_max_length p))).
  { unfold post_init; cbn [content_max_length].
    destruct (Z.ltb_spec (content_max_length p) 50);
      match goal with |- context [?a >? 2000] => destruct (Z.gtb_spec a 2000) end;
      lia. }
  repeat split; trivial.
  unfold post_init at 1. rewrite Hl, Ho, Hc.
  destruct (Z.gtb_spec (Z.max 1 (Z.min 50 (limit p))) 50); [lia|].
  destruct (Z.ltb_spec (Z.max 1 (Z.min 50 (limit p))) 1); [lia|].
  destruct (Z.ltb_spec (Z.max 0 (offset p)) 0); [lia|].
  destruct (Z.ltb_spec (Z.min 2000 (Z.max 50 (content_max_length p))) 50); [lia|].
  destruct (Z.gtb_spec (Z.min 2000 (Z.max 50 (content_max_length p))) 2000); [lia|].
  rewrite <- Hl, <- Ho, <- Hc. reflexivity.
Qed.

(** ** Consecutive pages *)

(** X2. Two consecutive pages, the second starting where the first ends,
    are together the page of both limits: between them no item is left
    out and none comes twice; and the items before a page, the page and
    the items after it are the whole list. *)
Theorem X2_consecutive_pages_tile :
  forall (A : Type) (items : list A) (p p' : EnhancedMemosSearchParams),
    0 <= offset p -> 0 <= limit p -> 0 <= limit p' ->
    offset p' = offset p + limit p ->
    page_of items p ++ page_of items p'
    = slice items (offset p) (offset p + limit p + limit p') /\
    firstn (Z.to_nat (offset p)) items ++ page_of items p
      ++ skipn (Z.to_nat (offset p + limit p)) items = items.
Proof.
  intros A items p p' Ho Hl Hl' Hnext.
  rewrite !page_of_window by lia. rewrite Hnext.
  rewrite slice_nonneg by lia.
  set (o := Z.to_nat (offset p)). set (l := Z.to_nat (limit p)).
  set (l' := Z.to_nat (limit p')).
  replace (Z.to_nat (offset p + limit p)) with (o + l)%nat by lia.
  replace (Z.to_nat (offset p + limit p + limit p' - offset p))
    with (l + l')%nat by lia.
  assert (Hsk : skipn (o + l) items = skipn l (skipn o items))
    by (rewrite skipn_skipn; f_equal; lia).
  rewrite Hsk. split.
  - generalize (skipn o items) as t. clear. intros t. revert t.
    induction l as [| l IH]; intros t; simpl; [reflexivity|].
    destruct t as [| a t]; simpl; [now rewrite firstn_nil | now rewrite IH].
  - rewrite firstn_skipn. apply firstn_skipn.
Qed.

(** X3. When hasMore is true the page is full and the next page, at
    offset + limit, is not empty; when it is false the page holds
    everything from the offset to the end of the list. *)
Theorem X3_has_more_meaning :
  forall (A : Type) (items : list A) (p p' : EnhancedMemosSearchParams),
    0 <= offset p -> 0 < limit p -> 0 < limit p' ->
    offset p' = offset p + limit p ->
    (has_more_of items p = true ->
     len (page_of items p) = limit p /\ page_of items p' <> []) /\
    (has_more_of items p = false ->
     page_of items p = skipn (Z.to_nat (offset p)) items /\
     page_of items p' = []).
Proof.
  intros A items p p' Ho Hl Hl' Hnext.
  unfold has_more_of, _paginate_results; cbn [fst snd].
  rewrite !page_of_window by lia. unfold len. split; intros H.
  - apply Z.ltb_lt in H. unfold len in H. split.
    + rewrite length_firstn, length_skipn. lia.
    + intros E. apply (f_equal (@length A)) in E.
      rewrite length_firstn, length_skipn in E. simpl in E. lia.
  - apply Z.ltb_ge in H. unfold len in H. split.
    + apply firstn_all2. rewrite length_skipn. lia.
    + rewrite skipn_all2 by lia. apply firstn_nil.
Qed.

Lemma X3_has_more_meaning_witness :
  let items := [1; 2; 3; 4; 5] in
  let p := Examples.params_of "" 2 0 SUMMARY in
  let p' := Examples.params_of "" 2 2 SUMMARY in
  has_more_of items p = true /\ len (page_of items p) = limit p /\
  page_of items p' <> [].
Proof.
  intros items p p'.
  assert (H : has_more_of items p = true) by reflexivity.
  split; [exact H|].
  apply (proj1 (X3_has_more_meaning Z items p p' ltac:(vm_compute; discriminate)
                  ltac:(reflexivity) ltac:(reflexivity) ltac:(reflexivity)) H).
Defined.

Lemma X2_consecutive_pages_tile_witness :
  let items := [1; 2; 3; 4; 5] in
  let p := Examples.params_of "" 2 1 SUMMARY in
  let p' := Examples.params_of "" 2 3 SUMMARY in
  page_of items p ++ page_of items p' = [2; 3; 4; 5].
Proof.
  intros items p p'.
  rewrite (proj1 (X2_consecutive_pages_tile Z items p p'
                    ltac:(vm_compute; discriminate)
                    ltac:(vm_compute; discriminate)
                    ltac:(vm_compute; discriminate) ltac:(reflexivity))).
  reflexivity.
Defined.

(** ** Date filter *)

Lemma str_leb_antisym a b :
  str_leb a b = true -> str_leb b a = true -> a = b.
Proof.
  revert b; induction a as [| x a IH]; intros [| y b]; simpl; trivial;
    try discriminate.
  rewrite (N.compare_antisym (N_of_ascii x) (N_of_ascii y)).
  destruct (N.compare_spec (N_of_ascii x) (N_of_ascii y)) as [E | L | G];
    simpl; intros H1 H2; try discriminate.
  f_equal; [|now apply IH].
  rewrite <- (ascii_N_embedding x), <- (ascii_N_embedding y). now f_equal.
Qed.

(** X4. With both bounds set to the same date the date filter keeps
    exactly the records created at that date; with a lower bound that is
    after the upper bound it keeps nothing, and raises nothing; and
    filtering a second time changes nothing. *)
Theorem X4_date_filter_bounds :
  forall (memos : list memo) (date_from date_to : str),
    date_from <> [] -> date_to <> [] ->
    (date_from = date_to ->
     forall m, In m (_apply_date_filter memos (Some date_from) (Some date_to))
               <-> In m memos /\ get_str (m_createTime m) = date_from) /\
    (str_ltb date_to date_from = true ->
     _apply_date_filter memos (Some date_from) (Some date_to) = []) /\
    _apply_date_filter
      (_apply_date_filter memos (Some date_from) (Some date_to))
      (Some date_from) (Some date_to)
    = _apply_date_filter memos (Some date_from) (Some date_to).
Proof.
  intros memos df dt Hdf Hdt.
  rewrite !_apply_date_filter_as_filter. cbn [truthy_opt get_str].
  apply truthy_true in Hdf as Tf. apply truthy_true in Hdt as Tt.
  rewrite Tf, Tt. cbn [negb orb]. split; [|split].
  - intros <- m. rewrite filter_In, andb_true_iff. split.
    + intros (Hin & H1 & H2). split; trivial. symmetry.
      now apply str_leb_antisym.
    + intros (Hin & <-). now rewrite str_leb_refl.
  - intros Hlt. unfold str_ltb in Hlt. apply negb_true_iff in Hlt.
    induction memos as [| m l IH]; simpl; trivial.
    destruct (str_leb df (get_str (m_createTime m))) eqn:E1; simpl; trivial.
    destruct (str_leb (get_str (m_createTime m)) dt) eqn:E2; simpl; trivial.
    rewrite (str_leb_trans _ _ _ E1 E2) in Hlt. discriminate Hlt.
  - rewrite filter_twice. apply filter_ext. intros m. now rewrite andb_diag.
Qed.

Lemma X4_date_filter_bounds_witness :
  _apply_date_filter Examples.three_notes (Some (lit "2024-01-03"))
                     (Some (lit "2024-01-01")) = [].
Proof.
  apply (proj1 (proj2 (X4_date_filter_bounds Examples.three_notes
                         (lit "2024-01-03") (lit "2024-01-01")
                         ltac:(discriminate) ltac:(discriminate)))).
  reflexivity.
Defined.

(** ** The sort by creation time *)

Lemma str_ltb_irrefl a : str_ltb a a = false.
Proof. unfold str_ltb. now rewrite str_leb_refl. Qed.

Lemma insert_desc_stable {A} (key : A -> str) (d : str) x l :
  filter (fun m => str_eqb (key m) d) (insert_desc key str_ltb x l)
  = filter (fun m => str_eqb (key m) d) (x :: l).
Proof.
  induction l as [| y l IH]; [reflexivity|].
  cbn [insert_desc]. destruct (str_ltb (key x) (key y)) eqn:E.
  - cbn [filter] in *. rewrite IH.
    destruct (str_eqb (key y) d) eqn:Ey; [|reflexivity].
    apply str_eqb_eq in Ey.
    destruct (str_eqb (key x) d) eqn:Ex; [|reflexivity].
    apply str_eqb_eq in Ex. rewrite Ex, Ey, str_ltb_irrefl in E.
    discriminate E.
  - reflexivity.
Qed.

Lemma sort_desc_stable {A} (key : A -> str) (d : str) l :
  filter (fun m => str_eqb (key m) d) (sort_desc key str_ltb l)
  = filter (fun m => str_eqb (key m) d) l.
Proof.
  induction l as [| x l IH]; [reflexivity|].
  cbn [sort_desc]. rewrite insert_desc_stable. cbn [filter]. now rewrite IH.
Qed.

Lemma sort_desc_sorted_id (l : list memo) :
  StronglySorted createTime_desc l -> sort_desc createTime_key str_ltb l = l.
Proof.
  induction 1 as [| x l Hs IH Hx]; [reflexivity|].
  cbn [sort_desc]. rewrite IH. destruct l as [| y l]; [reflexivity|].
  cbn [insert_desc]. inversion Hx as [| ? ? Hy _]; subst.
  unfold createTime_desc in Hy. unfold str_ltb. now rewrite Hy.
Qed.

(** X5. The sort by creation time rearranges the records (none is lost
    or added), puts them newest first, keeps the records of one creation
    time in the order they had (the sort is stable), and leaves a
    collection that is already newest first as it is. *)
Theorem X5_sort_newest_first_stable :
  forall l : list memo,
    let sorted := sort_desc createTime_key str_ltb l in
    Permutation sorted l /\
    StronglySorted createTime_desc sorted /\
    (forall d : str,
        filter (fun m => str_eqb (createTime_key m) d) sorted
        = filter (fun m => str_eqb (createTime_key m) d) l) /\
    (StronglySorted createTime_desc l -> sorted = l).
Proof.
  intros l sorted. split; [apply sort_desc_perm|].
  split; [apply sort_createTime_sorted|].
  split; [intros d; apply sort_desc_stable | apply sort_desc_sorted_id].
Qed.

Lemma X5_sort_newest_first_stable_witness :
  let l := [Examples.note "memos/2" "b" "2024-01-03" [];
            Examples.note "memos/1" "a" "2024-01-01" []] in
  StronglySorted createTime_desc l /\
  sort_desc createTime_key str_ltb l = l.
Proof.
  intros l.
  assert (H : StronglySorted createTime_desc l).
  { repeat constructor. }
  split; [exact H|].
  exact (proj2 (proj2 (proj2 (X5_sort_newest_first_stable l))) H).
Defined.

(** ** The shape of a formatted note *)

Lemma extract_truthy content q ctx snippets :
  q <> [] ->
  _extract_snippet_around_match content q ctx = Ok snippets ->
  truthy snippets = contains (lower content) (lower q).
Proof.
  intros Hq H. destruct content as [| c content].
  - unfold _extract_snippet_around_match in H.
    apply truthy_true in Hq. rewrite Hq in H. cbn in H.
    injection H as <-. unfold contains.
    rewrite find_in_empty; [reflexivity | now apply lower_nonempty, truthy_true].
  - rewrite _extract_snippet_around_match_occurrences in H
      by (trivial; discriminate).
    apply mapM_length in H. unfold occurrences in H.
    unfold contains. rewrite find_unfold.
    destruct (find_at_occurrences (lower (c :: content)) (lower q) 0
                (lower_nonempty _ Hq)) as [(Hf & Ho) | (k & Hf & _ & Ho)].
    + rewrite Hf, Ho in *. destruct snippets; [reflexivity | discriminate H].
    + rewrite Hf, Ho in *. destruct snippets; [discriminate H|].
      cbn [truthy]. symmetry. apply negb_true_iff, Z.eqb_neq. lia.
Qed.

Lemma keys_dict_set d k v :
  keys (dict_set d k v) = if dict_has d k then keys d else keys d ++ [k].
Proof.
  unfold dict_has, keys. induction d as [| [k' v'] d IH]; [reflexivity|].
  cbn [dict_set dict_get]. destruct (str_eq_dec k k'); [reflexivity|].
  cbn [map fst]. rewrite IH. now destruct (dict_get d k).
Qed.

Lemma dict_has_keys d k : dict_has d k = existsb (str_eqb k) (keys d).
Proof.
  unfold dict_has, keys, str_eqb. induction d as [| [k' v'] d IH]; [reflexivity|].
  cbn [dict_get map fst existsb]. now destruct (str_eq_dec k k').
Qed.

Lemma summary_content_get m p q d formatted k :
  k <> lit "content" -> k <> lit "match_snippets" ->
  k <> lit "relevance_score" ->
  summary_content m p q d = Ok formatted ->
  dict_get formatted k = dict_get d k.
Proof.
  intros Hc Hm Hr H. unfold summary_content in H.
  destruct (summary_only p || truthy q).
  - inv_bind H. destruct (truthy q).
    + inv_bind H. inv_bind H. injection H as <-.
      rewrite dict_get_set. destruct (str_eq_dec k _); [contradiction|].
      destruct (truthy a0); rewrite ?dict_get_set;
        repeat (destruct (str_eq_dec k _); [contradiction|]); reflexivity.
    + injection H as <-. rewrite dict_get_set.
      now destruct (str_eq_dec k _).
  - injection H as <-. rewrite dict_get_set. now destruct (str_eq_dec k _).
Qed.

Lemma summary_content_keys m p q d formatted :
  dict_has d (lit "content") = false ->
  dict_has d (lit "match_snippets") = false ->
  dict_has d (lit "relevance_score") = false ->
  summary_content m p q d = Ok formatted ->
  keys formatted
  = keys d ++ [lit "content"]
      ++ (if truthy q
          then (if contains (lower (get_str (m_content m))) (lower q)
                then [lit "match_snippets"] else [])
                 ++ [lit "relevance_score"]
          else []).
Proof.
  intros Hc Hm Hr H. unfold summary_content in H.
  cbv [lit list_ascii_of_string] in *.
  destruct (summary_only p || truthy q) eqn:E.
  - inv_bind H. destruct (truthy q) eqn:Eq.
    + inv_bind H. inv_bind H. injection H as <-.
      apply truthy_true in Eq as Hq.
      rewrite <- (extract_truthy _ _ _ _ Hq Ha0).
      rewrite keys_dict_set.
      destruct (truthy a0).
      * rewrite dict_has_set, dict_has_set.
        do 2 (case_key; [discriminate|]). rewrite Hr.
        rewrite keys_dict_set, dict_has_set.
        case_key; [discriminate|]. rewrite Hm.
        rewrite keys_dict_set, Hc. now rewrite <- !app_assoc.
      * rewrite dict_has_set. case_key; [discriminate|]. rewrite Hr.
        rewrite keys_dict_set, Hc. now rewrite <- !app_assoc.
    + injection H as <-. rewrite keys_dict_set, Hc. reflexivity.
  - destruct (truthy q); [now rewrite orb_true_r in E|].
    injection H as <-. rewrite keys_dict_set, Hc. reflexivity.
Qed.

(** X6. The keys of a formatted note, in their order, for each format
    but FULL; there the note's id is the record's name and no note has a
    key [nodes].  In the FULL format a key holds the value the record has
    for it when [fields] names it, so that a record with a key [id] of its
    own loses its name as id. *)
Theorem X6_formatted_note_shape :
  forall (m : memo) (p : EnhancedMemosSearchParams) (q : str) (formatted : dict),
    _apply_response_format m p q = Ok formatted ->
    match response_format p with
    | ID_ONLY => formatted = [(lit "id", VStr (get_str (m_name m)))]
    | MINIMAL =>
        keys formatted
        = [lit "id"; lit "createTime"; lit "updateTime"; lit "snippet";
           lit "tags"] /\
        id_of formatted = Some (VStr (get_str (m_name m)))
    | SUMMARY =>
        keys formatted
        = [lit "id"; lit "createTime"; lit "updateTime"; lit "content"]
            ++ (if truthy q
                then (if contains (lower (get_str (m_content m))) (lower q)
                      then [lit "match_snippets"] else [])
                       ++ [lit "relevance_score"]
                else [])
            ++ [lit "tags"; lit "snippet"] /\
        id_of formatted = Some (VStr (get_str (m_name m)))
    | FULL =>
        forall k : str,
          dict_get formatted k
          = match memo_get m k with
            | Some v =>
                if existsb (str_eqb k) (fields p) then Some v
                else dict_get [(lit "id", VStr (get_str (m_name m)));
                               (lit "createTime", VStr (get_str (m_createTime m)));
                               (lit "updateTime", VStr (get_str (m_updateTime m)))]
                              k
            | None =>
                dict_get [(lit "id", VStr (get_str (m_name m)));
                          (lit "createTime", VStr (get_str (m_createTime m)));
                          (lit "updateTime", VStr (get_str (m_updateTime m)))]
                         k
            end
    end.
Proof.
  intros m p q formatted H. unfold _apply_response_format in H.
  destruct (response_format p).
  - (* FULL *)
    cbn in H. intros k. injection H as <-.
    rewrite andb_false_r. apply copy_fields_get.
  - (* SUMMARY *)
    inv_bind H. inv_bind Ha.
    apply summary_content_keys in Ha0 as Hk; try reflexivity.
    apply (summary_content_get _ _ _ _ _ (lit "id")) in Ha0 as Hid;
      try discriminate.
    injection Ha as <-. injection H as <-.
    cbn [ResponseFormat_eqb negb]. rewrite andb_true_r.
    assert (Hn : dict_has
                   (dict_set (dict_set a0 (lit "tags") (VList (get_tags m)))
                             (lit "snippet") (VStr (get_str (m_snippet m))))
                   (lit "nodes") = false).
    { rewrite !dict_has_set. do 2 (case_key; [discriminate|]).
      rewrite dict_has_keys, Hk.
      destruct (truthy q); [destruct (contains _ _)|]; reflexivity. }
    match goal with
    | |- context [if ?b then dict_del _ _ else _] =>
        replace b with false by (symmetry; exact Hn)
    end.
    split.
    + rewrite !keys_dict_set, !dict_has_set, !dict_has_keys, !Hk.
      destruct (truthy q); [destruct (contains _ _)|]; reflexivity.
    + unfold id_of. rewrite !dict_get_set.
      do 2 (case_key; [discriminate|]). rewrite Hid. reflexivity.
  - (* MINIMAL *)
    cbn in H. injection H as <-. split; reflexivity.
  - (* ID_ONLY *)
    now injection H as <-.
Qed.

Lemma X6_formatted_note_shape_witness :
  let m := Examples.note "memos/1" "alpha beta" "2024-01-01" [] in
  let p := Examples.params_of "beta" 10 0 SUMMARY in
  exists formatted,
    _apply_response_format m p (lit "beta") = Ok formatted /\
    keys formatted
    = [lit "id"; lit "createTime"; lit "updateTime"; lit "content";
       lit "match_snippets"; lit "relevance_score"; lit "tags"; lit "snippet"].
Proof.
  intros m p.
  destruct (_apply_response_format m p (lit "beta")) as [formatted | e] eqn:H;
    [| vm_compute in H; discriminate H].
  exists formatted. split; [reflexivity|].
  exact (proj1 (X6_formatted_note_shape m p (lit "beta") formatted H)).
Defined.

(** ** The MINIMAL format *)

Lemma before_newline_no_newline s : ~ In newline (before_newline s).
Proof.
  induction s as [| c s IH]; [intros []|]. cbn [before_newline].
  destruct (ascii_dec c newline) as [E | N]; [intros []|].
  intros [H | H]; [now apply N | now apply IH].
Qed.

Lemma before_newline_prefix s : exists t, s = before_newline s ++ t.
Proof.
  induction s as [| c s [t IH]]; [now exists []|]. cbn [before_newline].
  destruct (ascii_dec c newline); [now exists (c :: s)|].
  exists t. cbn [app]. now rewrite <- IH.
Qed.

Lemma In_firstn {A} n (l : list A) x : In x (firstn n l) -> In x l.
Proof.
  intros H. rewrite <- (firstn_skipn n l). apply in_or_app. now left.
Qed.

Lemma minimal_first_line content :
  (if truthy content then slice_to (hd [] (split_lines content)) 100 else [])
  = firstn 100 (before_newline content).
Proof.
  rewrite <- first_line_before_newline.
  destruct (truthy content); [|reflexivity].
  now rewrite slice_to_nonneg by lia.
Qed.

(** X7. In the MINIMAL format the note's snippet is the first hundred
    characters of the first line of the content: it is a prefix of the
    content, at most a hundred characters long, with no line feed in it;
    the note carries the record's tags and has no key [content]. *)
Theorem X7_minimal_snippet :
  forall (m : memo) (p : EnhancedMemosSearchParams) (q : str) (formatted : dict),
    response_format p = MINIMAL ->
    _apply_response_format m p q = Ok formatted ->
    let content := get_str (m_content m) in
    let snippet := firstn 100 (before_newline content) in
    dict_get formatted (lit "snippet") = Some (VStr snippet) /\
    len snippet <= 100 /\
    ~ In newline snippet /\
    startswith content snippet = true /\
    (len (before_newline content) <= 100 -> snippet = before_newline content) /\
    dict_get formatted (lit "tags") = Some (VList (get_tags m)) /\
    dict_has formatted (lit "content") = false.
Proof.
  intros m p q formatted Hf H content snippet.
  unfold _apply_response_format in H. rewrite Hf in H. cbn in H.
  injection H as <-.
  split; [|split; [|split; [|split; [|split]]]].
  - cbn. do 2 f_equal. apply minimal_first_line.
  - unfold snippet, len. rewrite length_firstn. lia.
  - intros Hin. apply In_firstn in Hin.
    now apply before_newline_no_newline in Hin.
  - apply startswith_spec.
    destruct (before_newline_prefix content) as [t Ht].
    exists (skipn 100 (before_newline content) ++ t).
    unfold snippet. now rewrite app_assoc, firstn_skipn.
  - intros Hl. apply firstn_all2. unfold len in Hl. lia.
  - split; reflexivity.
Qed.

Lemma X7_minimal_snippet_witness :
  let m := Examples.title_and_item_note in
  let p := Examples.params_of "" 10 0 MINIMAL in
  exists formatted,
    _apply_response_format m p [] = Ok formatted /\
    dict_get formatted (lit "snippet") = Some (VStr (lit "T")).
Proof.
  intros m p.
  destruct (_apply_response_format m p []) as [formatted | e] eqn:H;
    [| vm_compute in H; discriminate H].
  exists formatted. split; [reflexivity|].
  exact (proj1 (X7_minimal_snippet m p [] formatted eq_refl H)).
Defined.

(** ** The length of a summary *)

Lemma join_split_scan sep s cur :
  join [sep] (split_scan sep s cur) = rev cur ++ s.
Proof.
  revert cur; induction s as [| c s IH]; intros cur; cbn [split_scan].
  - cbn [join]. now rewrite app_nil_r.
  - destruct (ascii_dec c sep) as [-> | N].
    + assert (Hne : split_scan sep s [] <> [])
        by (destruct s as [| c' s']; cbn [split_scan];
            [discriminate | destruct (ascii_dec c' sep); [discriminate|]];
            clear; generalize [c']; induction s' as [| c'' s' IH]; intros cur;
            cbn [split_scan]; [discriminate|];
            destruct (ascii_dec c'' sep); [discriminate | apply IH]).
      rewrite join_cons by exact Hne. rewrite IH. reflexivity.
    + rewrite IH. cbn [rev]. now rewrite <- app_assoc.
Qed.

Lemma rsplit_space_head_length s : (length (rsplit_space_head s) <= length s)%nat.
Proof.
  unfold rsplit_space_head.
  pose proof (join_split_scan space (rev s) []) as H.
  unfold split_char. destruct (split_scan space (rev s) []) as [| x [| y rest]];
    try lia.
  rewrite join_cons in H by discriminate. cbn [rev app] in H.
  apply (f_equal (@length ascii)) in H.
  rewrite !length_app, length_rev in H. cbn [length] in H. rewrite length_rev. lia.
Qed.

Lemma slice_to_length {A} (s : list A) n :
  0 <= n -> len (slice_to s n) <= n.
Proof.
  intros Hn. rewrite slice_to_nonneg by trivial. unfold len.
  rewrite length_firstn. lia.
Qed.

Lemma len_app {A} (a b : list A) : len (a ++ b) = len a + len b.
Proof. unfold len. rewrite length_app. lia. Qed.

Lemma structural_summary_length content max_length :
  0 <= max_length -> len (structural_summary content max_length) <= max_length + 3.
Proof.
  intros Hn. unfold structural_summary.
  destruct (summary_first_pass content max_length) as [parts remaining].
  set (summary := join [newline] _).
  destruct (len summary >? max_length) eqn:E.
  - rewrite len_app. pose proof (rsplit_space_head_length (slice_to summary max_length)).
    pose proof (slice_to_length summary max_length Hn). unfold len in *.
    cbn [length lit list_ascii_of_string]. lia.
  - rewrite Z.gtb_ltb in E. apply Z.ltb_ge in E. lia.
Qed.

Lemma _generate_smart_summary_length m q max_length summary :
  0 <= max_length ->
  _generate_smart_summary m q max_length = Ok summary ->
  len summary <= max_length + 3.
Proof.
  intros Hn H. unfold _generate_smart_summary in H.
  destruct (negb (truthy (get_str (m_content m)))).
  - injection H as <-. cbn. lia.
  - inv_bind H. destruct (truthy q && truthy a).
    + injection H as <-.
      set (s := join _ _).
      destruct (len s >? max_length) eqn:E.
      * rewrite len_app. pose proof (slice_to_length s max_length Hn).
        unfold len in *. cbn [length lit list_ascii_of_string]. lia.
      * rewrite Z.gtb_ltb in E. apply Z.ltb_ge in E. lia.
    + injection H as <-. now apply structural_summary_length.
Qed.

Lemma summary_content_content m p q d formatted :
  0 <= content_max_length p ->
  summary_content m p q d = Ok formatted ->
  exists content,
    dict_get formatted (lit "content") = Some (VStr content) /\
    len content <= content_max_length p + 3 /\
    (len (get_str (m_content m)) <= content_max_length p ->
     summary_only p = false -> q = [] ->
     content = get_str (m_content m)).
Proof.
  intros Hn H. unfold summary_content in H.
  destruct (summary_only p || truthy q) eqn:E.
  - inv_bind H. apply _generate_smart_summary_length in Ha; trivial.
    exists a. split; [|split; [exact Ha|]].
    + destruct (truthy q).
      * inv_bind H. inv_bind H. injection H as <-.
        rewrite dict_get_set. case_key; [discriminate|].
        destruct (truthy a0); rewrite !dict_get_set;
          repeat (case_key; try discriminate); try reflexivity; contradiction.
      * injection H as <-. rewrite dict_get_set.
        case_key; [reflexivity | contradiction].
    + intros _ Hs ->. rewrite Hs in E. discriminate E.
  - injection H as <-. eexists. split; [|split].
    + rewrite dict_get_set. case_key; [reflexivity | contradiction].
    + pose proof (slice_to_length (get_str (m_content m)) _ Hn).
      destruct (_ >? _); rewrite ?len_app; unfold len in *;
        cbn [length lit list_ascii_of_string]; lia.
    + intros Hl _ _.
      destruct (len (get_str (m_content m)) >? content_max_length p) eqn:G;
        [rewrite Z.gtb_ltb in G; apply Z.ltb_lt in G; lia|].
      rewrite slice_to_nonneg by trivial. apply firstn_all2.
      unfold len in *. lia.
Qed.

(** X8. In the SUMMARY format the content of a note is never longer than
    the maximum length of the parameters plus the three characters of the
    ellipsis, whichever of the smart summary and the plain truncation
    produced it (at most 2003 characters with parameters the constructor
    built); without a query and without [summary_only], a content that
    fits is kept as it is. *)
Theorem X8_summary_content_bounded :
  forall (m : memo) (p : EnhancedMemosSearchParams) (q : str) (formatted : dict),
    response_format p = SUMMARY ->
    0 <= content_max_length p ->
    _apply_response_format m p q = Ok formatted ->
    exists content,
      dict_get formatted (lit "content") = Some (VStr content) /\
      len content <= content_max_length p + 3 /\
      (len (get_str (m_content m)) <= content_max_length p ->
       summary_only p = false -> q = [] ->
       content = get_str (m_content m)).
Proof.
  intros m p q formatted Hf Hn H.
  unfold _apply_response_format in H. rewrite Hf in H.
  inv_bind H. inv_bind Ha. injection Ha as <-. injection H as <-.
  destruct (summary_content_content _ _ _ _ _ Hn Ha0)
    as (content & Hg & Hl & Hid).
  exists content. split; [|split; trivial].
  match goal with
  | |- context [if ?b then dict_del ?d ?k else _] =>
      assert (Hd : dict_get (if b then dict_del d k else d) (lit "content")
                   = dict_get d (lit "content"))
        by (destruct b; [apply dict_get_del; discriminate | reflexivity])
  end.
  etransitivity; [exact Hd|].
  rewrite !dict_get_set. do 2 (case_key; [discriminate|]). exact Hg.
Qed.

Lemma X8_summary_content_bounded_witness :
  let m := Examples.note "memos/1" "alpha beta" "2024-01-01" [] in
  let p := Examples.params_of "" 10 0 SUMMARY in
  exists formatted content,
    _apply_response_format m p [] = Ok formatted /\
    dict_get formatted (lit "content") = Some (VStr content) /\
    len content <= 503.
Proof.
  intros m p.
  destruct (_apply_response_format m p []) as [formatted | e] eqn:H;
    [| vm_compute in H; discriminate H].
  destruct (X8_summary_content_bounded m p [] formatted eq_refl
              ltac:(vm_compute; discriminate) H) as (content & Hg & Hl & _).
  exists formatted, content. split; [reflexivity|]. split; [exact Hg|].
  exact Hl.
Defined.

(** ** Word boundaries of a snippet *)

Lemma getitem_r_Ok {A} (s : list A) i a :
  getitem_r s i = Ok a -> getitem s i = Some a.
Proof. unfold getitem_r. destruct (getitem s i); congruence. Qed.

Lemma extend_start_spec content n :
  (n <= length content)%nat ->
  exists z,
    extend_start content n = Ok z /\ 0 <= z <= Z.of_nat n /\
    (forall i, z <= i < Z.of_nat n ->
               exists c, getitem content i = Some c /\ isalnum c = true) /\
    (0 < z -> exists c, getitem content (z - 1) = Some c /\ isalnum c = false).
Proof.
  induction n as [| n IH]; intros Hn.
  - exists 0. cbn [extend_start]. repeat split; try lia.
  - cbn [extend_start].
    destruct (getitem_r_in_range content (Z.of_nat (S n) - 1)) as [c Hc];
      [unfold len; lia|].
    rewrite Hc. cbn [bind]. apply getitem_r_Ok in Hc.
    destruct (isalnum c) eqn:Ec.
    + destruct IH as (z & Hz & Hr & Hin & Hout); [lia|].
      exists z. split; [exact Hz|]. split; [lia|]. split; [|exact Hout].
      intros i Hi. destruct (Z.eq_dec i (Z.of_nat n)) as [-> | Hne].
      * exists c. split; [|exact Ec].
        replace (Z.of_nat n) with (Z.of_nat (S n) - 1) by lia. exact Hc.
      * apply Hin. lia.
    + exists (Z.of_nat (S n)). split; [reflexivity|]. split; [lia|].
      split; [intros i Hi; lia|]. intros _. now exists c.
Qed.

Lemma extend_end_spec fuel content e :
  0 <= e <= len content -> len content - e <= Z.of_nat fuel ->
  exists z,
    extend_end fuel content e = Ok z /\ e <= z <= len content /\
    (forall i, e <= i < z ->
               exists c, getitem content i = Some c /\ isalnum c = true) /\
    (z < len content ->
     exists c, getitem content z = Some c /\ isalnum c = false).
Proof.
  revert e; induction fuel as [| fuel IH]; intros e He Hf.
  - assert (e = len content) by lia. subst e.
    exists (len content). cbn [extend_end]. rewrite Z.ltb_irrefl.
    repeat split; try lia.
  - cbn [extend_end]. destruct (Z.ltb_spec e (len content)) as [Hlt | Hge].
    + destruct (getitem_r_in_range content e) as [c Hc]; [lia|].
      rewrite Hc. cbn [bind]. apply getitem_r_Ok in Hc.
      destruct (isalnum c) eqn:Ec.
      * destruct (IH (e + 1)) as (z & Hz & Hr & Hin & Hout); try lia.
        exists z. split; [exact Hz|]. split; [lia|]. split; [|exact Hout].
        intros i Hi. destruct (Z.eq_dec i e) as [-> | Hne].
        -- now exists c.
        -- apply Hin. lia.
      * exists e. split; [reflexivity|]. split; [lia|].
        split; [intros i Hi; lia|]. intros _. now exists c.
    + exists e. split; [reflexivity|]. repeat split; try lia.
Qed.

(** X9. The two loops that widen a snippet to word boundaries end, with
    a start at or before the one given and an end at or after it, both
    within the content; every character they took in is alphanumeric,
    and the character before the start, and the one at the end, is not
    alphanumeric when there is one: no snippet starts or ends inside a
    word. *)
Theorem X9_snippet_word_boundaries :
  forall (content : str) (start : nat) (stop : Z),
    (start <= length content)%nat -> 0 <= stop <= len content ->
    exists snippet_start snippet_end,
      extend_start content start = Ok snippet_start /\
      extend_end (length content) content stop = Ok snippet_end /\
      0 <= snippet_start <= Z.of_nat start /\
      stop <= snippet_end <= len content /\
      (forall i, snippet_start <= i < Z.of_nat start \/ stop <= i < snippet_end ->
                 exists c, getitem content i = Some c /\ isalnum c = true) /\
      (0 < snippet_start ->
       exists c, getitem content (snippet_start - 1) = Some c /\
                 isalnum c = false) /\
      (snippet_end < len content ->
       exists c, getitem content snippet_end = Some c /\ isalnum c = false).
Proof.
  intros content start stop Hs He.
  destruct (extend_start_spec content start Hs) as (s & H1 & R1 & I1 & O1).
  destruct (extend_end_spec (length content) content stop He) as (e & H2 & R2 & I2 & O2);
    [unfold len in *; lia|].
  exists s, e. repeat split; trivial; try lia.
  intros i [Hi | Hi]; [now apply I1 | now apply I2].
Qed.

Lemma X9_snippet_word_boundaries_witness :
  let content := lit "one two three" in
  (6 <= length content)%nat /\
  exists snippet_start snippet_end,
    extend_start content 6 = Ok snippet_start /\
    extend_end (length content) content 9 = Ok snippet_end /\
    0 <= snippet_start <= 6 /\ 9 <= snippet_end <= 13.
Proof.
  intros content.
  assert (H : (6 <= length content)%nat) by (vm_compute; lia).
  split; [exact H|].
  destruct (X9_snippet_word_boundaries content 6 9 H
              ltac:(vm_compute; split; discriminate))
    as (s & e & H1 & H2 & R1 & R2 & _).
  exists s, e. repeat split; trivial; apply R1 || apply R2.
Defined.

(** ** The emphasised match of a snippet *)

Lemma firstn_plus {A} n k (l : list A) :
  firstn (n + k) l = firstn n l ++ firstn k (skipn n l).
Proof.
  revert l; induction n as [| n IH]; intros l; [reflexivity|].
  destruct l as [| a l]; cbn [Nat.add firstn skipn app].
  - now rewrite firstn_nil.
  - now rewrite IH.
Qed.

Lemma slice_split {A} (s : list A) a b c :
  0 <= a <= b -> b <= c -> slice s a c = slice s a b ++ slice s b c.
Proof.
  intros Hab Hbc. rewrite !slice_nonneg by lia.
  replace (Z.to_nat (c - a)) with (Z.to_nat (b - a) + Z.to_nat (c - b))%nat
    by lia.
  rewrite firstn_plus, skipn_skipn. do 3 f_equal. lia.
Qed.

Lemma Substring_app_l sub s t : Substring sub s -> Substring sub (t ++ s).
Proof.
  intros (pre & post & ->). exists (t ++ pre), post. now rewrite <- app_assoc.
Qed.

Lemma Substring_app_r sub s t : Substring sub s -> Substring sub (s ++ t).
Proof.
  intros (pre & post & ->). exists pre, (post ++ t). now rewrite <- !app_assoc.
Qed.

Lemma Substring_refl s : Substring s s.
Proof. exists [], []. now rewrite app_nil_r. Qed.

Lemma count_scan_occurs s sub k :
  sub <> [] -> OccursAt sub s k -> 1 <= count_scan s sub 0.
Proof.
  intros Hsub. revert k. induction s as [| c s IH]; intros k H.
  - apply OccursAt_nil_inv in H. now destruct H.
  - cbn [count_scan]. destruct (startswith (c :: s) sub) eqn:E.
    + pose proof (count_scan_nonneg s sub (length sub - 1)). lia.
    + destruct k as [| k].
      * apply OccursAt_0 in H. congruence.
      * apply OccursAt_S in H. now apply IH with k.
Qed.

Lemma replace_contains s old new :
  old <> [] -> Substring old s -> Substring new (replace s old new).
Proof.
  intros Hold Hs. destruct old as [| o old]; [contradiction|].
  cbn [replace].
  pose proof (replace_scan_pieces s (o :: old) new 0 []) as Hj.
  cbn [rev app] in Hj. rewrite <- Hj.
  pose proof (count_scan_pieces s (o :: old) 0 []) as Hc.
  apply Substring_OccursAt in Hs. destruct Hs as [k Hk].
  apply (count_scan_occurs _ _ _ Hold) in Hk.
  destruct (pieces_scan s (o :: old) 0 []) as [| p1 [| p2 rest]];
    unfold len in Hc; cbn [length] in Hc; try lia.
  rewrite join_cons by discriminate.
  apply Substring_app_l, Substring_app_r, Substring_refl.
Qed.

Lemma snippet_at_emphasis content query ctx pos snippet :
  0 <= ctx -> query <> [] -> 0 <= pos -> pos + len query <= len content ->
  snippet_at content query ctx pos = Ok snippet ->
  Substring (lit "**" ++ slice content pos (pos + len query) ++ lit "**")
            snippet.
Proof.
  intros Hctx Hq Hpos Hfit H. unfold snippet_at in H.
  pose proof (len_nonneg query) as Hlq.
  pose proof (len_nonneg content) as Hlc.
  destruct (extend_start_spec content (Z.to_nat (Z.max 0 (pos - ctx))))
    as (ss & Hss & Rs & _); [unfold len in *; lia|].
  destruct (extend_end_spec
              (Z.to_nat (len content
                         - Z.min (len content) (pos + len query + ctx)))
              content
              (Z.min (len content) (pos + len query + ctx)))
    as (se & Hse & Re & _); [unfold len in *; lia | unfold len in *; lia |].
  rewrite Hss, Hse in H. cbn [bind] in H. injection H as <-.
  unfold highlight. apply replace_contains.
  - intros E. apply (f_equal (@length ascii)) in E.
    rewrite slice_nonneg in E by lia.
    rewrite length_firstn, length_skipn in E. cbn [length] in E.
    destruct query; [contradiction|]. unfold len in *. cbn [length] in *. lia.
  - assert (Hin : Substring (slice content pos (pos + len query))
                            (slice content ss se)).
    { rewrite (slice_split content ss pos se) by lia.
      rewrite (slice_split content pos (pos + len query) se) by lia.
      apply Substring_app_l, Substring_app_r, Substring_refl. }
    destruct (ss >? 0), (se <? len content).
    + apply (Substring_app_r _ _ (lit "...")).
      apply (Substring_app_l _ _ (lit "...")), Hin.
    + apply (Substring_app_l _ _ (lit "...")), Hin.
    + apply (Substring_app_r _ _ (lit "...")), Hin.
    + exact Hin.
Qed.

Lemma lower_slice s lo hi : lower (slice s lo hi) = slice (lower s) lo hi.
Proof.
  unfold slice. rewrite len_lower. unfold lower.
  now rewrite firstn_map, skipn_map.
Qed.

Lemma occurrence_original_case content query k :
  OccursAt (lower query) (lower content) k ->
  let matched := slice content (Z.of_nat k) (Z.of_nat k + len query) in
  lower matched = lower query /\ len matched = len query /\
  Z.of_nat k + len query <= len content.
Proof.
  intros (pre & post & E & Hk) matched.
  assert (Hl : lower matched = lower query).
  { unfold matched. rewrite lower_slice, E.
    rewrite slice_nonneg by (unfold len; lia).
    replace (Z.to_nat (Z.of_nat k)) with (length pre) by lia.
    rewrite skipn_app, skipn_all, Nat.sub_diag. cbn [skipn app].
    replace (Z.to_nat (Z.of_nat k + len query - Z.of_nat k))
      with (length (lower query))
      by (rewrite lower_length; unfold len; lia).
    rewrite firstn_app, firstn_all, Nat.sub_diag. cbn [firstn].
    now rewrite app_nil_r. }
  split; [exact Hl|].
  apply (f_equal (@length ascii)) in Hl as Hn. rewrite !lower_length in Hn.
  apply (f_equal (@length ascii)) in E.
  rewrite !length_app, !lower_length in E. unfold len. lia.
Qed.

Lemma snippets_show_match :
  forall (content query : str) (context_chars : Z) (snippets : list str),
    0 <= context_chars -> query <> [] ->
    _extract_snippet_around_match content query context_chars = Ok snippets ->
    Forall (fun snippet =>
              exists matched,
                lower matched = lower query /\ len matched = len query /\
                Substring matched content /\
                Substring (lit "**" ++ matched ++ lit "**") snippet)
           snippets.
Proof.
  intros content query ctx snippets Hctx Hq H.
  destruct content as [| c0 content'].
  { unfold _extract_snippet_around_match in H.
    rewrite orb_true_r in H. injection H as <-. constructor. }
  set (content := c0 :: content') in *.
  rewrite _extract_snippet_around_match_occurrences in H
    by (trivial; discriminate).
  apply mapM_Ok_inv in H.
  assert (Hocc : Forall (fun pos => exists k, pos = Z.of_nat k /\
                           OccursAt (lower query) (lower content) k)
                        (occurrences (lower content) (lower query))).
  { apply Forall_forall. intros pos Hin. unfold occurrences in Hin.
    pose proof (occurrences_from_range _ _ _ _ Hin) as Hr.
    exists (Z.to_nat pos). split; [lia|].
    apply (occurrences_from_spec (lower content) (lower query) 0).
    now replace (0 + Z.of_nat (Z.to_nat pos)) with pos by lia. }
  induction H as [| pos snippet poss snippets Hs _ IH]; constructor.
  - inversion Hocc as [| ? ? (k & -> & Hk) _]; subst.
    destruct (occurrence_original_case content query k Hk) as (Hl & Hn & Hfit).
    exists (slice content (Z.of_nat k) (Z.of_nat k + len query)).
    split; [exact Hl|]. split; [exact Hn|]. split.
    + exists (slice content 0 (Z.of_nat k)),
        (slice content (Z.of_nat k + len query) (len content)).
      rewrite <- slice_split by (unfold len in *; lia).
      rewrite <- slice_split by (unfold len in *; lia).
      rewrite slice_nonneg by (unfold len in *; lia).
      cbn [skipn]. symmetry. apply firstn_all2. unfold len. lia.
    + apply (snippet_at_emphasis content query ctx); trivial; lia.
  - apply IH. now inversion Hocc.
Qed.


(** X10. On ASCII text every snippet the scan returns shows the match
    in bold: it contains, between two pairs of asterisks, the characters
    of the content at the position of the match, which are the query up
    to the case of letters and as many as the query has. *)
Theorem X10_snippet_shows_match :
  forall (content query : str) (context_chars : Z) (snippets : list str),
    isascii content = true -> isascii query = true ->
    0 <= context_chars -> query <> [] ->
    _extract_snippet_around_match content query context_chars = Ok snippets ->
    Forall (fun snippet =>
              exists matched,
                lower matched = lower query /\ len matched = len query /\
                Substring matched content /\
                Substring (lit "**" ++ matched ++ lit "**") snippet)
           snippets.
Proof.
  intros content query ctx snippets _ _. apply snippets_show_match.
Qed.

(** Beyond ASCII the emphasis can go to the wrong characters: with a
    capital I with a dot above before the match, the position found in
    the lowered content is one further in the content, and of "trip" the
    last three letters are marked. *)
Example emphasis_beyond_ascii :
  Wide._extract_snippet_around_match WideExamples.istanbul_trip
                                     (Wide.lit "trip") 50
  = Ok [Wide.capital_i_dot :: Wide.lit "stanbul t**rip**"].
Proof. vm_compute. reflexivity. Qed.

Lemma X10_snippet_shows_match_witness :
  exists snippets,
    _extract_snippet_around_match (lit "Say Hello there") (lit "hello") 3
    = Ok snippets /\
    Forall (fun snippet =>
              exists matched,
                lower matched = lower (lit "hello") /\
                len matched = len (lit "hello") /\
                Substring matched (lit "Say Hello there") /\
                Substring (lit "**" ++ matched ++ lit "**") snippet)
           snippets.
Proof.
  destruct (_extract_snippet_around_match (lit "Say Hello there") (lit "hello") 3)
    as [snippets | e] eqn:H; [| vm_compute in H; discriminate H].
  exists snippets. split; [reflexivity|].
  apply (X10_snippet_shows_match (lit "Say Hello there") (lit "hello") 3 snippets
           eq_refl eq_refl ltac:(lia) ltac:(discriminate) H).
Defined.

(** ** The notes of a SUMMARY search with a query *)

Lemma selected_page_keeps all_memos p m :
  In m (selected_page all_memos p) -> keeps p m = true.
Proof.
  unfold selected_page, page_of, _paginate_results. simpl. intros H.
  apply In_slice in H.
  apply (Permutation_in _ (sort_desc_perm _ _ _)) in H.
  rewrite filter_stage_as_filter in H. now apply filter_In in H.
Qed.

Lemma summary_content_snippets m p q d formatted snippets :
  q <> [] ->
  summary_content m p q d = Ok formatted ->
  _extract_snippet_around_match (get_str (m_content m)) q 50 = Ok snippets ->
  dict_get formatted (lit "match_snippets")
  = if truthy snippets then Some (VList (slice_to snippets 3))
    else dict_get d (lit "match_snippets").
Proof.
  intros Hq H Hs. apply truthy_true in Hq. unfold summary_content in H.
  rewrite Hq, orb_true_r in H. inv_bind H. inv_bind H.
  rewrite Hs in Ha0. injection Ha0 as <-. inv_bind H. injection H as <-.
  rewrite dict_get_set. case_key; [discriminate|].
  destruct (truthy snippets); rewrite !dict_get_set;
    repeat (case_key; try discriminate); try reflexivity; contradiction.
Qed.

Lemma summary_note_snippets m p q formatted :
  response_format p = SUMMARY -> q <> [] ->
  contains (lower (get_str (m_content m))) (lower q) = true ->
  _apply_response_format m p q = Ok formatted ->
  exists snippets,
    _extract_snippet_around_match (get_str (m_content m)) q 50 = Ok snippets /\
    snippets <> [] /\
    dict_get formatted (lit "match_snippets")
    = Some (VList (firstn 3 snippets)).
Proof.
  intros Hf Hq Hc H.
  destruct (_extract_snippet_around_match_total (get_str (m_content m)) q 50)
    as [snippets Hs]; [lia|].
  exists snippets. split; [exact Hs|].
  pose proof (extract_truthy _ _ _ _ Hq Hs) as Ht. rewrite Hc in Ht.
  split; [now apply truthy_true|].
  unfold _apply_response_format in H. rewrite Hf in H.
  inv_bind H. inv_bind Ha. injection Ha as <-. injection H as <-.
  pose proof (summary_content_snippets _ _ _ _ _ _ Hq Ha0 Hs) as Hg.
  rewrite Ht, slice_to_nonneg in Hg by lia.
  match goal with
  | |- context [if ?b then dict_del ?d ?k else _] =>
      assert (Hd : dict_get (if b then dict_del d k else d)
                            (lit "match_snippets")
                   = dict_get d (lit "match_snippets"))
        by (destruct b; [apply dict_get_del; discriminate | reflexivity])
  end.
  etransitivity; [exact Hd|].
  rewrite !dict_get_set. do 2 (case_key; [discriminate|]). exact Hg.
Qed.

(** X11. In a SUMMARY search with a query, on records and a query of
    ASCII text, every note of the answer has its match snippets: between
    one and three of them, the first ones of the scan of its record's
    content, each showing the match in bold. *)
Theorem X11_summary_search_snippets :
  forall (all_memos : list memo) (p : EnhancedMemosSearchParams)
         (r : SearchResponse),
    isascii (query p) = true ->
    Forall (fun m => isascii (get_str (m_content m)) = true) all_memos ->
    response_format p = SUMMARY -> query p <> [] ->
    search_memos_enhanced all_memos p = Ok r ->
    Forall (fun note =>
              exists (m : memo) (all_snippets : list str),
                In m all_memos /\
                _apply_response_format m p (query p) = Ok note /\
                _extract_snippet_around_match (get_str (m_content m))
                                              (query p) 50 = Ok all_snippets /\
                dict_get note (lit "match_snippets")
                = Some (VList (firstn 3 all_snippets)) /\
                (1 <= length (firstn 3 all_snippets) <= 3)%nat /\
                Forall (fun snippet =>
                          exists matched,
                            lower matched = lower (query p) /\
                            Substring (lit "**" ++ matched ++ lit "**") snippet)
                       (firstn 3 all_snippets))
           (memos r).
Proof.
  intros all_memos p r _ _ Hf Hq H.
  apply search_memos_enhanced_inv in H.
  destruct H as (formatted & Hmap & Hsort & _).
  assert (Hperm : Permutation (memos r) formatted).
  { destruct (resort_condition p formatted).
    - now apply sort_desc_r_perm in Hsort.
    - injection Hsort as <-. apply Permutation_refl. }
  apply mapM_Ok_inv in Hmap.
  apply Forall_forall. intros note Hin.
  apply (Permutation_in _ Hperm) in Hin.
  assert (Hm : exists m, In m (selected_page all_memos p) /\
                         _apply_response_format m p (query p) = Ok note).
  { clear -Hmap Hin. induction Hmap as [| m f page fs Hm _ IH]; [destruct Hin|].
    destruct Hin as [<- | Hin].
    - exists m. split; [now left | exact Hm].
    - destruct (IH Hin) as (m' & Hin' & Hm'). exists m'. split; [now right|].
      exact Hm'. }
  destruct Hm as (m & Hsel & Hm).
  pose proof (selected_page_keeps _ _ _ Hsel) as Hk.
  unfold keeps in Hk. apply truthy_true in Hq as Ht. rewrite Ht in Hk.
  cbn [negb orb] in Hk. rewrite !andb_true_iff in Hk.
  destruct Hk as [[[Hc _] _] _].
  destruct (summary_note_snippets m p (query p) note Hf Hq Hc Hm)
    as (snippets & Hs & Hne & Hg).
  exists m, snippets. split; [now apply selected_page_incl in Hsel|].
  split; [exact Hm|]. split; [exact Hs|]. split; [exact Hg|]. split.
  - rewrite length_firstn. destruct snippets; [contradiction|].
    cbn [length]. lia.
  - assert (H50 : 0 <= 50) by lia.
    pose proof (snippets_show_match _ _ _ _ H50 Hq Hs) as Hall.
    rewrite Forall_forall in Hall |- *. intros s Hin'.
    apply In_firstn in Hin'. destruct (Hall s Hin') as (mt & H1 & _ & _ & H4).
    now exists mt.
Qed.

Lemma X11_summary_search_snippets_witness :
  let p := Examples.params_of "beta" 10 0 SUMMARY in
  exists r,
    search_memos_enhanced Examples.two_notes p = Ok r /\
    Forall (fun note =>
              exists snippets,
                dict_get note (lit "match_snippets") = Some (VList snippets) /\
                (1 <= length snippets <= 3)%nat)
           (memos r).
Proof.
  intros p.
  destruct (search_memos_enhanced Examples.two_notes p) as [r | e] eqn:H;
    [| vm_compute in H; discriminate H].
  exists r. split; [reflexivity|].
  assert (Hascii : Forall (fun m => isascii (get_str (m_content m)) = true)
                          Examples.two_notes)
    by (repeat constructor).
  pose proof (X11_summary_search_snippets Examples.two_notes p r eq_refl
                Hascii eq_refl ltac:(discriminate) H) as Hall.
  rewrite Forall_forall in Hall |- *. intros note Hin.
  destruct (Hall note Hin) as (m & snippets & _ & _ & _ & Hg & Hl & _).
  exists (firstn 3 snippets). split; [exact Hg | exact Hl].
Defined.

(** ** The counts of an answer *)

Lemma search_memos_enhanced_metadata all_memos p r :
  search_memos_enhanced all_memos p = Ok r ->
  query_metadata r
  = [(lit "query", VStr (query p));
     (lit "limit", VInt (limit p));
     (lit "offset", VInt (offset p));
     (lit "format", VStr (format_value (response_format p)));
     (lit "filtered_count", VInt (total_count r));
     (lit "returned_count", VInt (len (memos r)))].
Proof.
  unfold search_memos_enhanced, _paginate_results.
  cbn zeta. intros H.
  inv_bind H. inv_bind H. injection H as <-. reflexivity.
Qed.

Lemma search_memos_enhanced_length all_memos p r :
  search_memos_enhanced all_memos p = Ok r ->
  length (memos r) = length (selected_page all_memos p).
Proof.
  intros H. apply search_memos_enhanced_inv in H.
  destruct H as (formatted & Hmap & Hsort & _).
  apply mapM_length in Hmap. rewrite <- Hmap.
  destruct (resort_condition p formatted).
  - apply sort_desc_r_perm in Hsort. now apply Permutation_length.
  - now injection Hsort as <-.
Qed.

Lemma selected_page_length all_memos p :
  0 <= offset p -> 0 <= limit p ->
  len (selected_page all_memos p)
  = Z.min (limit p) (Z.max 0 (len (filter_stage all_memos p) - offset p)).
Proof.
  intros Ho Hl. unfold selected_page. rewrite page_of_window by trivial.
  unfold len. rewrite length_firstn, length_skipn, sort_desc_length. lia.
Qed.

(** X12. The counts of an answer, for parameters as the constructor
    leaves them: the number of notes returned is the limit or what is
    left of the matching records after the offset, whichever is smaller,
    hence at most 50; the total is the number of records that passed the
    filters, at most the number of records of the store; the metadata
    repeat both numbers; and hasMore tells whether notes are left after
    the ones returned. *)
Theorem X12_search_counts :
  forall (all_memos : list memo) (p : EnhancedMemosSearchParams)
         (r : SearchResponse),
    0 <= offset p -> 1 <= limit p <= 50 ->
    search_memos_enhanced all_memos p = Ok r ->
    total_count r = len (filter (keeps p) all_memos) /\
    total_count r <= len all_memos /\
    len (memos r) = Z.min (limit p) (Z.max 0 (total_count r - offset p)) /\
    len (memos r) <= 50 /\
    (has_more r = true <-> offset p + len (memos r) < total_count r) /\
    dict_get (query_metadata r) (lit "filtered_count")
    = Some (VInt (total_count r)) /\
    dict_get (query_metadata r) (lit "returned_count")
    = Some (VInt (len (memos r))).
Proof.
  intros all_memos p r Ho Hl H.
  pose proof (search_memos_enhanced_metadata _ _ _ H) as Hmeta.
  pose proof (search_memos_enhanced_length _ _ _ H) as Hlen.
  apply search_memos_enhanced_inv in H.
  destruct H as (_ & _ & _ & Htot & Hmore & _).
  assert (Hn : len (memos r)
               = Z.min (limit p) (Z.max 0 (total_count r - offset p))).
  { rewrite Htot, <- selected_page_length by lia. unfold len. now rewrite Hlen. }
  split; [now rewrite Htot, filter_stage_as_filter|].
  split.
  { rewrite Htot, filter_stage_as_filter. unfold len.
    pose proof (filter_length_le (keeps p) all_memos). lia. }
  split; [exact Hn|]. split; [lia|]. split.
  { rewrite Hmore, <- Htot, Z.ltb_lt. lia. }
  rewrite Hmeta. split; reflexivity.
Qed.

Lemma X12_search_counts_witness :
  let p := Examples.params_of "beta" 1 0 SUMMARY in
  exists r,
    search_memos_enhanced Examples.three_notes p = Ok r /\
    total_count r = 2 /\ len (memos r) = 1 /\ has_more r = true.
Proof.
  intros p.
  destruct (search_memos_enhanced Examples.three_notes p) as [r | e] eqn:H;
    [| vm_compute in H; discriminate H].
  exists r. split; [reflexivity|].
  destruct (X12_search_counts Examples.three_notes p r
              ltac:(vm_compute; discriminate)
              ltac:(vm_compute; split; discriminate) H)
    as (Ht & _ & Hn & _ & Hm & _).
  assert (Ht2 : total_count r = 2) by (rewrite Ht; reflexivity).
  assert (Hn1 : len (memos r) = 1) by (rewrite Hn, Ht2; reflexivity).
  split; [exact Ht2|]. split; [exact Hn1|].
  apply Hm. rewrite Hn1, Ht2. reflexivity.
Defined.

(** ** The backward compatible search *)

Lemma filter_stage_query_only all_memos p :
  tags_filter p = [] -> date_from p = None -> date_to p = None ->
  filter_stage all_memos p = Memos.search_memos all_memos (query p).
Proof.
  intros Ht Hf Hd. unfold filter_stage, Memos.search_memos.
  rewrite Ht, Hf, Hd. cbn [truthy truthy_opt orb]. reflexivity.
Qed.

Lemma selected_page_first all_memos p :
  offset p = 0 -> 0 <= limit p ->
  selected_page all_memos p
  = firstn (Z.to_nat (limit p))
           (sort_desc createTime_key str_ltb (filter_stage all_memos p)).
Proof.
  intros Ho Hl. unfold selected_page. rewrite page_of_window by lia.
  rewrite Ho. reflexivity.
Qed.

Lemma full_note_no_score m p q formatted :
  response_format p = FULL ->
  ~ In (lit "relevance_score") (fields p) ->
  _apply_response_format m p q = Ok formatted ->
  dict_has formatted (lit "relevance_score") = false.
Proof.
  intros Hf Hn H. apply _apply_response_format_score in H.
  rewrite Hf in H. unfold dict_has. rewrite H.
  destruct (existsb _ _) eqn:E; [|reflexivity].
  apply existsb_str_eqb_In in E. contradiction.
Qed.

Lemma full_note_get m p q formatted k :
  response_format p = FULL ->
  _apply_response_format m p q = Ok formatted ->
  dict_get formatted k
  = dict_get (fold_left (copy_field m) (fields p)
                [(lit "id", VStr (get_str (m_name m)));
                 (lit "createTime", VStr (get_str (m_createTime m)));
                 (lit "updateTime", VStr (get_str (m_updateTime m)))]) k.
Proof.
  intros Hf H. unfold _apply_response_format in H. rewrite Hf in H.
  cbn in H. injection H as <-. now rewrite andb_false_r.
Qed.

(** X13. The backward compatible [search_memos] raises nothing and
    returns at most twenty notes: the FULL formatting, in this order, of
    the twenty newest of the records the search of the first client
    returns for the query; each note carries the whole content of its
    record. *)
Theorem X13_search_memos_compatible :
  forall (all_memos : list memo) (q : str),
    let p := mk_params q 20 0 default_fields false 500 None None []
                       FULL false in
    exists notes,
      search_memos all_memos q = Ok notes /\
      Forall2 (fun m note =>
                 _apply_response_format m p q = Ok note /\
                 dict_get note (lit "content") = option_map VStr (m_content m))
              (firstn 20 (sort_desc createTime_key str_ltb
                                    (Memos.search_memos all_memos q)))
              notes /\
      (length notes <= 20)%nat.
Proof.
  intros all_memos q p.
  destruct (search_memos_enhanced_keeps_order all_memos p)
    as (r & Hr & _ & HF2).
  { intros m f _ Hf. apply (full_note_no_score m p (query p)); trivial.
    cbn. intuition discriminate. }
  exists (memos r). unfold search_memos. fold p. rewrite Hr. cbn [bind].
  split; [reflexivity|].
  rewrite selected_page_first in HF2 by (reflexivity || (cbn; lia)).
  rewrite filter_stage_query_only in HF2 by reflexivity.
  change (Z.to_nat (limit p)) with 20%nat in HF2.
  change (query p) with q in HF2.
  split.
  - eapply Forall2_impl; [|exact HF2]. cbn beta. intros m note Hn.
    split; [exact Hn|].
    rewrite (full_note_get m p q note _ eq_refl Hn), copy_fields_get.
    cbn. destruct (m_content m); reflexivity.
  - apply Forall2_length in HF2. rewrite <- HF2, length_firstn. lia.
Qed.

(** ** The latest notes *)

Lemma post_init_limit_eq p : limit (post_init p) = Z.max 1 (Z.min 50 (limit p)).
Proof.
  unfold post_init; cbn [limit].
  destruct (Z.gtb_spec (limit p) 50);
    [cbn | destruct (Z.ltb_spec (limit p) 1)]; lia.
Qed.

Lemma summary_note_no_score m p formatted :
  response_format p = SUMMARY ->
  _apply_response_format m p [] = Ok formatted ->
  dict_has formatted (lit "relevance_score") = false.
Proof.
  intros Hf H. apply _apply_response_format_score in H.
  now rewrite Hf in H.
Qed.

(** X14. [get_latest_memos] raises nothing and returns the SUMMARY
    formatting of the newest records of the store, newest first: as many
    as the limit brought into the range from 1 to 50, so that a limit of
    zero or less still returns one note when the store has a record. *)
Theorem X14_get_latest_memos :
  forall (all_memos : list memo) (lim : Z),
    let p := mk_params [] lim 0 default_fields false 500 None None []
                       SUMMARY false in
    exists notes,
      get_latest_memos all_memos lim = Ok notes /\
      Forall2 (fun m note => _apply_response_format m p [] = Ok note)
              (firstn (Z.to_nat (Z.max 1 (Z.min 50 lim)))
                      (sort_desc createTime_key str_ltb all_memos))
              notes /\
      len notes = Z.min (Z.max 1 (Z.min 50 lim)) (len all_memos) /\
      (all_memos <> [] -> notes <> []).
Proof.
  intros all_memos lim p.
  destruct (search_memos_enhanced_keeps_order all_memos p)
    as (r & Hr & _ & HF2).
  { intros m f _ Hf. now apply (summary_note_no_score m p). }
  exists (memos r). unfold get_latest_memos. fold p. rewrite Hr. cbn [bind].
  split; [reflexivity|].
  assert (Hl : limit p = Z.max 1 (Z.min 50 lim))
    by (unfold p, mk_params; now rewrite post_init_limit_eq).
  rewrite selected_page_first in HF2 by (reflexivity || lia).
  rewrite filter_stage_query_only in HF2 by reflexivity.
  change (Memos.search_memos all_memos (query p)) with all_memos in HF2.
  change (query p) with (@nil ascii) in HF2. rewrite Hl in HF2.
  split; [exact HF2|].
  assert (Hn : len (memos r) = Z.min (Z.max 1 (Z.min 50 lim)) (len all_memos)).
  { apply Forall2_length in HF2. unfold len. rewrite <- HF2.
    rewrite length_firstn, sort_desc_length. lia. }
  split; [exact Hn|].
  intros Hne E. rewrite E in Hn. destruct all_memos; [contradiction|].
  unfold len in Hn. cbn [length] in Hn. lia.
Qed.

(** ** The notes of a tag *)

Lemma replace_hash s : replace s (lit "#") [] = without_hashes s.
Proof.
  change (replace s (lit "#") []) with (replace_scan s [hash] [] 0).
  induction s as [| c s IH]; [reflexivity|].
  cbn [replace_scan startswith without_hashes filter length Nat.sub app].
  destruct (ascii_dec hash c) as [<- | N].
  - rewrite Ascii.eqb_refl. cbn [negb]. rewrite startswith_nil. exact IH.
  - destruct (Ascii.eqb_spec c hash) as [-> | _]; [contradiction|].
    cbn [negb]. now rewrite IH.
Qed.

Lemma normalized_tag tag :
  replace (if negb (startswith tag (lit "#")) then lit "#" ++ tag else tag)
          (lit "#") []
  = without_hashes tag.
Proof.
  rewrite replace_hash. destruct (negb (startswith tag (lit "#"))); reflexivity.
Qed.

Lemma filter_stage_tag_only all_memos p tag :
  query p = [] -> tags_filter p = [tag] ->
  date_from p = None -> date_to p = None ->
  filter_stage all_memos p
  = filter (fun m => existsb (str_eqb tag) (get_tags m)) all_memos.
Proof.
  intros Hq Ht Hf Hd. unfold filter_stage.
  rewrite Hq, Ht, Hf, Hd. cbn [truthy truthy_opt orb].
  apply filter_ext. intros m. cbn [existsb]. apply orb_false_r.
Qed.

(** X15. [get_memos_by_tag] raises nothing and returns the SUMMARY
    formatting of the newest records, newest first and as many as the
    limit brought into the range from 1 to 50, among those that have the
    tag with every mark [#] removed as one of their tags; so a tag gives
    the same notes with and without a leading mark. *)
Theorem X15_get_memos_by_tag :
  forall (all_memos : list memo) (tag : str) (lim : Z),
    let p := mk_params [] lim 0 default_fields false 500 None None
                       [without_hashes tag] SUMMARY false in
    (exists notes,
        get_memos_by_tag all_memos tag lim = Ok notes /\
        Forall2 (fun m note => _apply_response_format m p [] = Ok note)
                (firstn (Z.to_nat (Z.max 1 (Z.min 50 lim)))
                        (sort_desc createTime_key str_ltb
                           (filter (fun m => existsb (str_eqb (without_hashes tag))
                                                     (get_tags m))
                                   all_memos)))
                notes) /\
    get_memos_by_tag all_memos (lit "#" ++ tag) lim
    = get_memos_by_tag all_memos tag lim.
Proof.
  intros all_memos tag lim p.
  assert (Hdef : forall t, get_memos_by_tag all_memos t lim
                           = (response <- search_memos_enhanced all_memos
                                (mk_params [] lim 0 default_fields false 500
                                           None None [without_hashes t]
                                           SUMMARY false);;
                              Ok (memos response))).
  { intros t. unfold get_memos_by_tag. now rewrite normalized_tag. }
  split.
  - destruct (search_memos_enhanced_keeps_order all_memos p)
      as (r & Hr & _ & HF2).
    { intros m f _ Hf. now apply (summary_note_no_score m p). }
    exists (memos r). rewrite Hdef. fold p. rewrite Hr. cbn [bind].
    split; [reflexivity|].
    assert (Hl : limit p = Z.max 1 (Z.min 50 lim))
      by (unfold p, mk_params; now rewrite post_init_limit_eq).
    rewrite selected_page_first in HF2 by (reflexivity || lia).
    rewrite (filter_stage_tag_only _ _ (without_hashes tag)) in HF2
      by reflexivity.
    change (query p) with (@nil ascii) in HF2. rewrite Hl in HF2.
    exact HF2.
  - rewrite !Hdef. reflexivity.
Qed.

(** ** The first client's notes of a tag *)

Lemma tag_loop_spec tag lim all_memos tagged_memos :
  len tagged_memos < lim ->
  Memos.tag_loop tag lim all_memos tagged_memos
  = tagged_memos
      ++ firstn (Z.to_nat (lim - len tagged_memos))
                (filter (Memos.tag_matches tag) all_memos).
Proof.
  revert tagged_memos.
  induction all_memos as [| m rest IH]; intros acc Hacc.
  - cbn. now rewrite firstn_nil, app_nil_r.
  - cbn [Memos.tag_loop filter]. unfold Memos.tag_matches at 1.
    destruct (if existsb (str_eqb (Memos.lstrip_hash tag)) (get_tags m)
              then true else contains (get_str (m_content m)) tag) eqn:E.
    + assert (Happ : (if existsb (str_eqb (Memos.lstrip_hash tag)) (get_tags m)
                      then acc ++ [m]
                      else if contains (get_str (m_content m)) tag
                           then acc ++ [m] else acc) = acc ++ [m]).
      { destruct (existsb _ _); [reflexivity|]. now rewrite E. }
      rewrite Happ. rewrite len_app. change (len [m]) with 1.
      destruct (Z.geb_spec (len acc + 1) lim) as [Hge | Hlt].
      * replace (Z.to_nat (lim - len acc)) with 1%nat by lia. reflexivity.
      * rewrite IH by (rewrite len_app; change (len [m]) with 1; lia).
        rewrite len_app. change (len [m]) with 1.
        replace (Z.to_nat (lim - len acc)) with (S (Z.to_nat (lim - (len acc + 1))))
          by lia.
        cbn [firstn]. now rewrite <- app_assoc.
    + assert (Happ : (if existsb (str_eqb (Memos.lstrip_hash tag)) (get_tags m)
                      then acc ++ [m]
                      else if contains (get_str (m_content m)) tag
                           then acc ++ [m] else acc) = acc).
      { destruct (existsb _ _); [discriminate E|]. now rewrite E. }
      rewrite Happ.
      destruct (Z.geb_spec (len acc) lim) as [Hge | Hlt]; [lia|].
      now apply IH.
Qed.

Lemma tag_loop_short tag lim all_memos :
  lim <= 0 -> (length (Memos.tag_loop tag lim all_memos []) <= 1)%nat.
Proof.
  intros Hl. destruct all_memos as [| m rest]; [cbn; lia|].
  cbn [Memos.tag_loop].
  set (acc := if existsb _ _ then _ else _).
  assert (Ha : (length acc <= 1)%nat).
  { unfold acc. destruct (existsb _ _); [cbn; lia|].
    destruct (contains _ _); cbn; lia. }
  destruct (Z.geb_spec (len acc) lim) as [_ | Hlt]; [exact Ha|].
  unfold len in Hlt. lia.
Qed.

(** X16. The first client's [get_memos_by_tag], loop and early exit
    included, returns the first [limit] of the records that match the
    tag, in the order of the store, and nothing for a limit of zero or
    less; a record matches when the tag without its leading marks is one
    of its tags or the tag, with one leading mark at least, occurs in its
    content. *)
Theorem X16_first_client_tag_loop :
  forall (all_memos : list memo) (tag : str) (lim : Z),
    let tag' := if startswith tag (lit "#") then tag else lit "#" ++ tag in
    Memos.get_memos_by_tag all_memos tag lim
    = firstn (Z.to_nat lim) (filter (Memos.tag_matches tag') all_memos) /\
    (forall m, In m (Memos.get_memos_by_tag all_memos tag lim) ->
               In (Memos.lstrip_hash tag') (get_tags m) \/
               Substring tag' (get_str (m_content m))).
Proof.
  intros all_memos tag lim tag'.
  assert (Hdef : Memos.get_memos_by_tag all_memos tag lim
                 = slice_to (Memos.tag_loop tag' lim all_memos []) lim).
  { unfold Memos.get_memos_by_tag, tag'.
    now destruct (startswith tag (lit "#")). }
  assert (Heq : Memos.get_memos_by_tag all_memos tag lim
                = firstn (Z.to_nat lim)
                         (filter (Memos.tag_matches tag') all_memos)).
  { rewrite Hdef. destruct (Z.le_gt_cases lim 0) as [Hle | Hgt].
    - pose proof (tag_loop_short tag' lim all_memos Hle) as Hs.
      replace (Z.to_nat lim) with 0%nat by lia. cbn [firstn].
      unfold slice_to, clip_index, len.
      destruct (Z.ltb_spec lim 0).
      + replace (Z.to_nat (Z.max 0 _)) with 0%nat by lia. reflexivity.
      + replace (Z.to_nat (Z.min lim _)) with 0%nat by lia. reflexivity.
    - rewrite tag_loop_spec by (cbn; lia). cbn [app].
      change (len []) with 0. rewrite Z.sub_0_r.
      rewrite slice_to_nonneg by lia. rewrite firstn_firstn. now rewrite Nat.min_id. }
  split; [exact Heq|].
  intros m Hin. rewrite Heq in Hin. apply In_firstn in Hin.
  apply filter_In in Hin. destruct Hin as [_ Hm].
  unfold Memos.tag_matches in Hm.
  destruct (existsb _ _) eqn:E.
  - left. now apply existsb_str_eqb_In.
  - right. now apply contains_spec.
Qed.

(** ** The name of a memo in an address *)

Lemma split_scan_first sep s cur :
  exists rest, split_scan sep s cur = (rev cur ++ before sep s) :: rest.
Proof.
  revert cur; induction s as [| c s IH]; intros cur; cbn [split_scan before].
  - exists []. now rewrite app_nil_r.
  - destruct (ascii_dec c sep).
    + eexists. now rewrite app_nil_r.
    + destruct (IH (c :: cur)) as [rest ->]. exists rest.
      cbn [rev]. now rewrite <- app_assoc.
Qed.

Lemma before_no_sep sep s : ~ In sep s -> before sep s = s.
Proof.
  induction s as [| c s IH]; [reflexivity|]. intros H. cbn [before].
  destruct (ascii_dec c sep) as [-> | _]; [exfalso; apply H; now left|].
  rewrite IH; [reflexivity|]. intros Hin. apply H. now right.
Qed.

Lemma before_without sep s : ~ In sep (before sep s).
Proof.
  induction s as [| c s IH]; [intros []|]. cbn [before].
  destruct (ascii_dec c sep) as [E | N]; [intros []|].
  intros [H | H]; [now apply N | now apply IH].
Qed.

Lemma getitem_r_second {A} (a b : A) rest : getitem_r (a :: b :: rest) 1 = Ok b.
Proof.
  unfold getitem_r, getitem. change (1 <? 0) with false. cbv iota.
  change (0 <=? 1) with true. cbn [andb].
  destruct (Z.ltb_spec 1 (len (a :: b :: rest))) as [_ | H]; [reflexivity|].
  unfold len in H. cbn [length] in H. lia.
Qed.

Lemma memo_name_of_full X :
  memo_name_of (lit "memos/" ++ X) = Ok (before slash X).
Proof.
  unfold memo_name_of.
  assert (Hs : startswith (lit "memos/" ++ X) (lit "memos/") = true)
    by (apply startswith_spec; now exists X).
  rewrite Hs.
  assert (Hsplit : split_char slash (lit "memos/" ++ X)
                   = lit "memos" :: split_char slash X) by reflexivity.
  rewrite Hsplit. unfold split_char.
  destruct (split_scan_first slash X []) as [rest ->].
  apply getitem_r_second.
Qed.

(** X17. The memo name that [get_memo_by_id], [update_memo] and
    [delete_memo] put in the address is computed without an error for
    every id; for an id "memos/X" it is X up to its first slash, so X
    itself when X has no slash, the short id X then giving the same name;
    it has no slash whenever the id starts with "memos/"; and an id that
    does not start with "memos/" is taken as it is. *)
Theorem X17_memo_name_of :
  forall X : str,
    memo_name_of (lit "memos/" ++ X) = Ok (before slash X) /\
    ~ In slash (before slash X) /\
    (~ In slash X ->
     memo_name_of (lit "memos/" ++ X) = Ok X /\ memo_name_of X = Ok X) /\
    (startswith X (lit "memos/") = false -> memo_name_of X = Ok X) /\
    (exists name, memo_name_of X = Ok name).
Proof.
  intros X. split; [apply memo_name_of_full|].
  split; [apply before_without|].
  assert (Hshort : startswith X (lit "memos/") = false -> memo_name_of X = Ok X).
  { intros H. unfold memo_name_of. now rewrite H. }
  split; [|split; [exact Hshort|]].
  - intros Hno. split.
    + rewrite memo_name_of_full. now rewrite before_no_sep.
    + apply Hshort. destruct (startswith X (lit "memos/")) eqn:E; [|reflexivity].
      apply startswith_spec in E. destruct E as [t ->]. exfalso. apply Hno.
      cbn. do 5 right. now left.
  - destruct (startswith X (lit "memos/")) eqn:E.
    + apply startswith_spec in E. destruct E as [t ->].
      eexists. apply memo_name_of_full.
    + eexists. now apply Hshort.
Qed.

(** ** The default tag of a created memo *)

(** X18. The tool [create_memo] always sends the default tag: the tags
    it passes on are the given ones, followed by the default tag when it
    is not among them, so that it is there once at least and never added
    twice; and the content of the payload is the given content, two line
    feeds and these tags with a space between them, also when no tag was
    given. *)
Theorem X18_create_memo_default_tag :
  forall (DEFAULT_TAG content : str) (tags : list str),
    let tags' := tags_with_default DEFAULT_TAG tags in
    In DEFAULT_TAG tags' /\
    (exists extra, tags' = tags ++ extra /\
                   (extra = [] \/ extra = [DEFAULT_TAG])) /\
    count_occ str_eq_dec tags' DEFAULT_TAG
    = Nat.max 1 (count_occ str_eq_dec tags DEFAULT_TAG) /\
    tags_with_default DEFAULT_TAG tags' = tags' /\
    tool_create_content DEFAULT_TAG content tags
    = content ++ [newline; newline] ++ join (lit " ") tags'.
Proof.
  intros d content tags tags'.
  assert (Hin : In d tags').
  { unfold tags', tags_with_default. destruct (existsb _ _) eqn:E.
    - now apply existsb_str_eqb_In.
    - apply in_or_app. right. now left. }
  split; [exact Hin|]. split; [|split; [|split]].
  - unfold tags', tags_with_default. destruct (existsb _ _).
    + exists []. rewrite app_nil_r. auto.
    + exists [d]. auto.
  - unfold tags', tags_with_default. destruct (existsb _ _) eqn:E.
    + apply existsb_str_eqb_In in E.
      apply (count_occ_In str_eq_dec) in E. lia.
    + assert (Hn : ~ In d tags).
      { intros H. apply existsb_str_eqb_In in H. congruence. }
      rewrite count_occ_app. apply (count_occ_not_In str_eq_dec) in Hn.
      rewrite Hn. cbn [count_occ]. destruct (str_eq_dec d d); [reflexivity|].
      contradiction.
  - unfold tags_with_default at 1.
    apply existsb_str_eqb_In in Hin. now rewrite Hin.
  - unfold tool_create_content, formatted_content. fold tags'.
    destruct tags'; [destruct Hin | reflexivity].
Qed.

(** ** The format names of the tools *)

Lemma lower_char_idem c : lower_char (lower_char c) = lower_char c.
Proof.
  destruct c as [[] [] [] [] [] [] [] []]; reflexivity.
Qed.

Lemma lower_idem s : lower (lower s) = lower s.
Proof.
  unfold lower. rewrite map_map. apply map_ext. intros c. apply lower_char_idem.
Qed.

(** X19. How the tools read a format name: the name of each format
    gives that format back; the case of letters does not matter; any
    name that is not one of the four gives SUMMARY and nothing is
    raised; and the tools [get_latest_memos] and [get_memos_by_tag], whose
    table has no entry for it, read "id_only" as SUMMARY. *)
Theorem X19_parse_format :
  (forall f : ResponseFormat, parse_format (format_value f) = f) /\
  (forall s : str, parse_format (lower s) = parse_format s) /\
  (forall (s : str) (f : ResponseFormat),
      parse_format s = f <->
      lower s = format_value f \/
      (f = SUMMARY /\ forall g, lower s <> format_value g)) /\
  (forall f : ResponseFormat,
      parse_format_short (format_value f)
      = if ResponseFormat_eqb f ID_ONLY then SUMMARY else f) /\
  (forall s : str, parse_format_short (lower s) = parse_format_short s).
Proof.
  split; [intros []; reflexivity|].
  split; [intros s; unfold parse_format; now rewrite lower_idem|].
  split; [|split; [intros []; reflexivity|
                   intros s; unfold parse_format_short; now rewrite lower_idem]].
  intros s f. unfold parse_format, format_map. cbn [map_get].
  repeat (destruct (str_eq_dec (lower s) _) as [-> | ?]).
  - split; [intros <-; now left|]. intros [H | [_ H]].
    + destruct f; try discriminate H; reflexivity.
    + exfalso. now apply (H ID_ONLY).
  - split; [intros <-; now left|]. intros [H | [_ H]].
    + destruct f; try discriminate H; reflexivity.
    + exfalso. now apply (H MINIMAL).
  - split; [intros <-; now left|]. intros [H | [_ H]].
    + destruct f; try discriminate H; reflexivity.
    + exfalso. now apply (H SUMMARY).
  - split; [intros <-; now left|]. intros [H | [_ H]].
    + destruct f; try discriminate H; reflexivity.
    + exfalso. now apply (H FULL).
  - split.
    + intros <-. right. split; [reflexivity|]. intros []; assumption.
    + intros [H | [-> _]]; [|reflexivity].
      destruct f; cbn in H; contradiction.
Qed.

(** ** The parameters of the search tool *)

Lemma summary_content_smart m p q d formatted :
  summary_only p || truthy q = true ->
  summary_content m p q d = Ok formatted ->
  exists summary,
    _generate_smart_summary m q (content_max_length p) = Ok summary /\
    dict_get formatted (lit "content") = Some (VStr summary).
Proof.
  intros E H. unfold summary_content in H. rewrite E in H.
  inv_bind H. exists a. split; [exact Ha|].
  destruct (truthy q).
  - inv_bind H. inv_bind H. injection H as <-.
    rewrite dict_get_set. case_key; [discriminate|].
    destruct (truthy a0); rewrite !dict_get_set;
      repeat (case_key; try discriminate); try reflexivity; contradiction.
  - injection H as <-. rewrite dict_get_set.
    case_key; [reflexivity | contradiction].
Qed.

Lemma summary_note_content m p q formatted :
  response_format p = SUMMARY ->
  _apply_response_format m p q = Ok formatted ->
  exists d formatted',
    summary_content m p q d = Ok formatted' /\
    dict_get formatted (lit "content") = dict_get formatted' (lit "content").
Proof.
  intros Hf H. unfold _apply_response_format in H. rewrite Hf in H.
  inv_bind H. inv_bind Ha. injection Ha as <-. injection H as <-.
  eexists _, a0. split; [exact Ha0|].
  match goal with
  | |- context [if ?b then dict_del ?d ?k else _] =>
      assert (Hd : dict_get (if b then dict_del d k else d) (lit "content")
                   = dict_get d (lit "content"))
        by (destruct b; [apply dict_get_del; discriminate | reflexivity])
  end.
  etransitivity; [exact Hd|].
  rewrite !dict_get_set. now do 2 (case_key; [discriminate|]).
Qed.

(** X20. The parameters the tool [search_memos_enhanced] builds: the
    format is the one its name reads as, the limit is brought into the
    range from 1 to 50 and the offset to 0 at least, no tag filter stands
    for an empty one, and [summary_only] is set exactly for the SUMMARY
    format; so the content of a SUMMARY note of this tool is always the
    smart summary of its record, with or without a query. *)
Theorem X20_tool_search_params :
  forall (q : str) (lim off : Z) (response_format_name : str) (cml : Z)
         (df dt : option str) (tf : option (list str)),
    let p := tool_search_params q lim off response_format_name cml df dt tf in
    response_format p = parse_format response_format_name /\
    limit p = Z.max 1 (Z.min 50 lim) /\
    offset p = Z.max 0 off /\
    content_max_length p = Z.min 2000 (Z.max 50 cml) /\
    tags_filter p = match tf with Some l => l | None => [] end /\
    (summary_only p = true <-> response_format p = SUMMARY) /\
    (forall (m : memo) (note : dict),
        response_format p = SUMMARY ->
        _apply_response_format m p q = Ok note ->
        exists summary,
          _generate_smart_summary m q (content_max_length p) = Ok summary /\
          dict_get note (lit "content") = Some (VStr summary)).
Proof.
  intros q lim off name cml df dt tf p.
  assert (Hso : summary_only p = true <-> response_format p = SUMMARY).
  { unfold p, tool_search_params, mk_params, post_init.
    cbn [summary_only response_format].
    destruct (parse_format name); cbn; split; congruence. }
  split; [reflexivity|]. split; [|split; [|split; [|split; [|split]]]].
  - unfold p, tool_search_params, mk_params. rewrite post_init_limit_eq.
    cbn [limit]. destruct (Z.ltb_spec 50 lim); lia.
  - unfold p, tool_search_params, mk_params, post_init. cbn [offset].
    destruct (Z.ltb_spec off 0); lia.
  - unfold p, tool_search_params, mk_params, post_init.
    cbn [content_max_length].
    destruct (Z.ltb_spec cml 50);
      [cbn; lia | destruct (Z.gtb_spec cml 2000); lia].
  - unfold p, tool_search_params, mk_params, post_init. cbn [tags_filter].
    destruct tf as [[| t l] |]; reflexivity.
  - exact Hso.
  - intros m note Hf H.
    destruct (summary_note_content m p q note Hf H) as (d & f' & Hs & Hg).
    apply summary_content_smart in Hs.
    + destruct Hs as (summary & H1 & H2). exists summary.
      split; [exact H1 | now rewrite Hg].
    + apply Hso in Hf. now rewrite Hf.
Qed.

(** ** The general summary *)

Lemma before_newline_eq s : before newline s = before_newline s.
Proof.
  induction s as [| c s IH]; [reflexivity|]. cbn [before before_newline].
  now rewrite IH.
Qed.

Lemma split_lines_first content :
  exists rest, split_lines content = before_newline content :: rest.
Proof.
  unfold split_lines, split_char.
  destruct (split_scan_first newline content []) as [rest ->].
  exists rest. cbn [rev app]. now rewrite before_newline_eq.
Qed.

Lemma join_snoc sep parts x :
  parts <> [] -> join sep (parts ++ [x]) = join sep parts ++ sep ++ x.
Proof.
  induction parts as [| p parts IH]; [congruence|]. intros _.
  destruct parts as [| p' parts].
  - reflexivity.
  - change ((p :: p' :: parts) ++ [x]) with (p :: ((p' :: parts) ++ [x])).
    rewrite join_cons by (cbn [app]; discriminate).
    rewrite IH by discriminate.
    rewrite (join_cons sep p (p' :: parts)) by discriminate.
    now rewrite <- !app_assoc.
Qed.

Lemma join_len_sep sep sep' parts :
  len sep = len sep' -> len (join sep parts) = len (join sep' parts).
Proof.
  intros Hs. induction parts as [| p parts IH]; [reflexivity|].
  destruct parts as [| p' parts]; [reflexivity|].
  rewrite (join_cons sep p (p' :: parts)) by discriminate.
  rewrite (join_cons sep' p (p' :: parts)) by discriminate.
  rewrite !len_app, IH, Hs. reflexivity.
Qed.

Lemma join_len_ge sep p parts : len p <= len (join sep (p :: parts)).
Proof.
  destruct parts as [| p' parts]; [cbn [join]; lia|].
  rewrite join_cons by discriminate. rewrite !len_app.
  pose proof (len_nonneg sep). pose proof (len_nonneg (join sep (p' :: parts))).
  lia.
Qed.

Lemma parts_ok_snoc content remaining parts line :
  parts_ok content remaining parts ->
  In line (split_lines content) -> strip line <> [] ->
  len (join (lit " ") parts) + len (strip line) < remaining ->
  parts_ok content remaining (parts ++ [strip line]).
Proof.
  intros (rest & -> & Hall & Hfit) Hin Hne Hlt.
  exists (rest ++ [strip line]). split; [reflexivity|]. split.
  - apply Forall_app. split; [exact Hall|]. constructor; [|constructor].
    split; [exact Hne|]. now exists line.
  - intros _.
    change ((before_newline content :: rest) ++ [strip line])
      with ((before_newline content :: rest) ++ [strip line]).
    rewrite join_snoc by discriminate. rewrite !len_app.
    change (len (lit " ")) with 1. lia.
Qed.

Lemma first_pass_step_ok content remaining parts line :
  parts_ok content remaining parts -> In line (split_lines content) ->
  parts_ok content remaining (first_pass_step remaining parts line).
Proof.
  intros Hok Hin. unfold first_pass_step.
  destruct (truthy (strip line)) eqn:Et; [|exact Hok]. cbn [negb].
  destruct (is_header_or_list (strip line)); [|exact Hok].
  destruct (Z.ltb_spec (len (join (lit " ") parts) + len (strip line)) remaining);
    [|exact Hok].
  apply parts_ok_snoc; trivial. now apply truthy_true.
Qed.

Lemma second_pass_step_ok content remaining parts line :
  parts_ok content remaining parts -> In line (split_lines content) ->
  parts_ok content remaining (second_pass_step remaining parts line).
Proof.
  intros Hok Hin. unfold second_pass_step, is_regular_line.
  destruct (truthy (strip line)) eqn:Et; [|exact Hok]. cbn [andb].
  destruct (negb _ && negb _); [|exact Hok].
  destruct (Z.ltb_spec (len (join (lit " ") parts) + len (strip line)) remaining);
    [|exact Hok].
  apply parts_ok_snoc; trivial. now apply truthy_true.
Qed.

Lemma fold_left_ok (step : list str -> str -> list str) content remaining
    lines parts :
  (forall parts line, parts_ok content remaining parts ->
                      In line (split_lines content) ->
                      parts_ok content remaining (step parts line)) ->
  (forall line, In line lines -> In line (split_lines content)) ->
  parts_ok content remaining parts ->
  parts_ok content remaining (fold_left step lines parts).
Proof.
  intros Hstep. revert parts.
  induction lines as [| l lines IH]; intros parts Hsub Hok; [exact Hok|].
  cbn [fold_left]. apply IH.
  - intros line Hin. apply Hsub. now right.
  - apply Hstep; [exact Hok|]. apply Hsub. now left.
Qed.

Lemma summary_parts_ok content max_length :
  parts_ok content (max_length - len (before_newline content))
           (summary_second_pass content max_length
              (fst (summary_first_pass content max_length))
              (snd (summary_first_pass content max_length))) /\
  snd (summary_first_pass content max_length)
  = max_length - len (before_newline content).
Proof.
  unfold summary_first_pass, summary_second_pass.
  destruct (split_lines_first content) as [rest Hl]. rewrite Hl.
  cbn [fst snd]. rewrite slice_from_1. split; [|reflexivity].
  assert (Hsub : forall line, In line rest -> In line (split_lines content))
    by (intros line Hin; rewrite Hl; now right).
  assert (H1 : parts_ok content (max_length - len (before_newline content))
                 (fold_left (first_pass_step
                               (max_length - len (before_newline content)))
                            rest [before_newline content])).
  { apply fold_left_ok; trivial.
    - intros parts line. apply first_pass_step_ok.
    - exists []. split; [reflexivity|]. split; [constructor | congruence]. }
  destruct (under_70_percent _ _); [|exact H1].
  apply fold_left_ok; trivial.
  intros parts line. apply second_pass_step_ok.
Qed.

(** X21. The general summary: its parts are the first line of the
    content, kept as it is, followed by stripped non-empty lines of the
    content; a line is only ever added while the parts joined stay within
    the maximum length less the length of the first line, so that a
    summary of more than one part is never truncated, and is only
    possible when the first line is shorter than half the maximum length;
    a first line alone is returned as it is when it fits. *)
Theorem X21_general_summary_parts :
  forall (content : str) (max_length : Z),
    let title := before_newline content in
    exists rest,
      summary_second_pass content max_length
        (fst (summary_first_pass content max_length))
        (snd (summary_first_pass content max_length))
      = title :: rest /\
      Forall (fun line => line <> [] /\
                          exists l, In l (split_lines content) /\
                                    line = strip l) rest /\
      (rest <> [] ->
       2 * len title < max_length /\
       len (join [newline] (title :: rest)) <= max_length - len title /\
       structural_summary content max_length = join [newline] (title :: rest)) /\
      (rest = [] -> len title <= max_length ->
       structural_summary content max_length = title).
Proof.
  intros content max_length title.
  destruct (summary_parts_ok content max_length) as [(rest & Hp & Hall & Hfit) Hr].
  exists rest. split; [exact Hp|]. split; [exact Hall|].
  assert (Hs : structural_summary content max_length
               = let summary := join [newline] (title :: rest) in
                 if len summary >? max_length
                 then rsplit_space_head (slice_to summary max_length) ++ lit "..."
                 else summary).
  { unfold structural_summary.
    destruct (summary_first_pass content max_length) as [parts remaining].
    cbn [fst snd] in Hp. now rewrite Hp. }
  split.
  - intros Hne. specialize (Hfit Hne). rewrite Hp in Hfit.
    fold title in Hfit.
    rewrite (join_len_sep (lit " ") [newline]) in Hfit by reflexivity.
    pose proof (join_len_ge [newline] title rest) as Hge.
    pose proof (len_nonneg title) as Ht.
    assert (H2 : 2 * len title < max_length).
    { destruct rest as [| x rest']; [contradiction|].
      rewrite join_cons in Hfit by discriminate.
      rewrite !len_app in Hfit. change (len [newline]) with 1 in Hfit.
      pose proof (len_nonneg (join [newline] (x :: rest'))). lia. }
    split; [exact H2|]. split; [exact Hfit|].
    rewrite Hs. cbv zeta.
    destruct (Z.gtb_spec (len (join [newline] (title :: rest))) max_length);
      [lia | reflexivity].
  - intros -> Hle. rewrite Hs. cbn [join]. cbv zeta.
    destruct (Z.gtb_spec (len title) max_length); [lia | reflexivity].
Qed.

(** ** The smart summary with a query *)

Lemma extract_no_match content q ctx :
  contains (lower content) (lower q) = false ->
  _extract_snippet_around_match content q ctx = Ok [].
Proof.
  intros Hc. unfold _extract_snippet_around_match.
  destruct (negb (truthy q) || negb (truthy content)); [reflexivity|].
  cbn [scan_matches]. fold (find (lower content) (lower q)).
  unfold contains in Hc. apply negb_false_iff in Hc. now rewrite Hc.
Qed.

(** X22. The smart summary of a record with no content is empty; with
    a query that does not occur in the content (the case of letters
    apart) it is the general summary, as without a query, and no snippet
    is looked for; with a query that occurs, whenever the scan returns
    its snippets there is one at least and the summary is made of the
    first three, joined by " [...] " and cut at the maximum length with
    an ellipsis; and on ASCII text the scan does return. *)
Theorem X22_smart_summary_cases :
  forall (m : memo) (q : str) (max_length : Z),
    let content := get_str (m_content m) in
    (content = [] -> _generate_smart_summary m q max_length = Ok []) /\
    (content <> [] ->
     q = [] \/ contains (lower content) (lower q) = false ->
     _generate_smart_summary m q max_length
     = Ok (structural_summary content max_length)) /\
    (content <> [] -> q <> [] ->
     contains (lower content) (lower q) = true ->
     (forall snippets,
         _extract_snippet_around_match content q 50 = Ok snippets ->
         snippets <> [] /\
         _generate_smart_summary m q max_length
         = Ok (let summary := join (lit " [...] ") (firstn 3 snippets) in
               if len summary >? max_length
               then slice_to summary max_length ++ lit "..."
               else summary)) /\
     (isascii content = true -> isascii q = true ->
      exists snippets,
        _extract_snippet_around_match content q 50 = Ok snippets)).
Proof.
  intros m q max_length content. unfold _generate_smart_summary. fold content.
  split; [intros ->; reflexivity|]. split.
  - intros Hc Hq. apply truthy_true in Hc as Ht. rewrite Ht. cbn [negb].
    destruct q as [| c q']; [reflexivity|].
    destruct Hq as [Hq | Hq]; [discriminate Hq|].
    cbn [truthy]. rewrite (extract_no_match _ _ 50 Hq). reflexivity.
  - intros Hc Hq Hin. apply truthy_true in Hc as Ht. rewrite Ht. cbn [negb].
    split.
    + intros snippets Hs.
      pose proof (extract_truthy _ _ _ _ Hq Hs) as Hts. rewrite Hin in Hts.
      split; [now apply truthy_true|].
      apply truthy_true in Hq as Htq. rewrite Htq, Hs. cbn [bind andb].
      rewrite Hts. now rewrite slice_to_nonneg by lia.
    + intros _ _. apply _extract_snippet_around_match_total. lia.
Qed.

(** ** The score of a text without the query *)

Lemma count_scan_none s sub :
  (forall k, ~ OccursAt sub s k) -> count_scan s sub 0 = 0.
Proof.
  induction s as [| c s IH]; intros H; [reflexivity|]. cbn [count_scan].
  destruct (startswith (c :: s) sub) eqn:E.
  - exfalso. apply (H 0%nat). now apply OccursAt_0.
  - apply IH. intros k Hk. apply (H (S k)). now apply OccursAt_S.
Qed.

Lemma count_none s sub :
  sub <> [] -> contains s sub = false -> count s sub = 0.
Proof.
  intros Hsub Hc. destruct sub as [| a sub]; [contradiction|]. cbn [count].
  apply count_scan_none. intros k Hk.
  assert (Hs : Substring (a :: sub) s) by (apply Substring_OccursAt; eauto).
  apply contains_spec in Hs. congruence.
Qed.

Lemma contains_first_line content ql :
  contains (lower content) ql = false ->
  contains (lower (before_newline content)) ql = false.
Proof.
  intros H. destruct (contains (lower (before_newline content)) ql) eqn:E;
    [|reflexivity].
  apply contains_spec in E. destruct (before_newline_prefix content) as [t Ht].
  assert (Hs : Substring ql (lower content)).
  { rewrite Ht. unfold lower. rewrite map_app. now apply Substring_app_r. }
  apply contains_spec in Hs. congruence.
Qed.

(** X23. For a query that does not occur in the content the score needs
    no division and is 0.1 when the query occurs in one of the tags, 0.0
    when it occurs in none: a record the text filter would not keep
    never scores more than a tag match. *)
Theorem X23_score_without_match :
  forall (content q : str) (tags : option (list str)),
    q <> [] ->
    contains (lower content) (lower q) = false ->
    _calculate_relevance_score content q tags
    = Ok (if existsb (fun tag => contains (lower tag) (lower q)) (tags_of tags)
          then f_tenth else f_zero).
Proof.
  intros content q tags Hq Hc. unfold _calculate_relevance_score.
  apply truthy_true in Hq as Ht. rewrite Ht. cbn [negb].
  rewrite first_line_before_newline.
  rewrite (contains_first_line _ _ Hc).
  rewrite (count_none _ _ (lower_nonempty _ Hq) Hc).
  assert (Hf : (find (lower content) (lower q) =? -1) = true).
  { unfold contains in Hc. now apply negb_false_iff in Hc. }
  rewrite Hf. cbn [negb bind].
  assert (Htag : match tags with
                 | Some ((_ :: _) as tags0) =>
                     if existsb (fun tag => contains (lower tag) (lower q)) tags0
                     then f_one else f_zero
                 | _ => f_zero
                 end
                 = if existsb (fun tag => contains (lower tag) (lower q))
                              (tags_of tags)
                   then f_one else f_zero).
  { destruct tags as [[| t l] |]; reflexivity. }
  rewrite Htag.
  destruct (existsb _ (tags_of tags)); vm_compute; reflexivity.
Qed.

Lemma X23_score_without_match_witness :
  _calculate_relevance_score (lit "alpha") (lit "beta") (Some [lit "x-beta"])
  = Ok f_tenth.
Proof.
  apply (X23_score_without_match (lit "alpha") (lit "beta")
           (Some [lit "x-beta"]) ltac:(discriminate) ltac:(reflexivity)).
Defined.

(** ** The tools for the latest notes and the notes of a tag *)

Lemma search_without_query all_memos p :
  query p = [] ->
  exists r,
    search_memos_enhanced all_memos p = Ok r /\
    Forall2 (fun m f => _apply_response_format m p [] = Ok f)
            (selected_page all_memos p) (memos r).
Proof.
  intros Hq. destruct (formatted_page_total all_memos p) as [formatted Hmap].
  destruct (search_memos_enhanced_run all_memos p formatted formatted Hmap)
    as (r & Hr & Hm).
  { unfold resort_condition. now rewrite Hq. }
  exists r. split; [exact Hr|]. rewrite Hm. rewrite Hq in Hmap.
  now apply mapM_Ok_inv.
Qed.

Lemma capped_limit lim :
  limit (mk_params [] (if lim >? 20 then 20 else lim) 0 default_fields false
                   300 None None [] SUMMARY false)
  = Z.max 1 (Z.min 20 lim).
Proof.
  unfold mk_params. rewrite post_init_limit_eq. cbn [limit].
  destruct (Z.gtb_spec lim 20); lia.
Qed.

(** X24. The tools [get_latest_memos] and [get_memos_by_tag] raise
    nothing, whatever the format name and the records, and return at most
    twenty notes: the formatting of the newest records of the store, or of
    those that have the tag without its marks, newest first, as many as
    the limit brought into the range from 1 to 20. *)
Theorem X24_tools_latest_and_tag :
  forall (all_memos : list memo) (tag : str) (lim : Z) (format_name : str),
    let n := Z.to_nat (Z.max 1 (Z.min 20 lim)) in
    (exists p notes,
        tool_get_latest_memos all_memos lim format_name = Ok notes /\
        response_format p = parse_format_short format_name /\
        content_max_length p = 300 /\
        Forall2 (fun m note => _apply_response_format m p [] = Ok note)
                (firstn n (sort_desc createTime_key str_ltb all_memos))
                notes /\
        (length notes <= 20)%nat) /\
    (exists p notes,
        tool_get_memos_by_tag all_memos tag lim format_name = Ok notes /\
        response_format p = parse_format_short format_name /\
        content_max_length p = 400 /\
        Forall2 (fun m note => _apply_response_format m p [] = Ok note)
                (firstn n (sort_desc createTime_key str_ltb
                             (filter (fun m =>
                                        existsb (str_eqb (without_hashes tag))
                                                (get_tags m))
                                     all_memos)))
                notes /\
        (length notes <= 20)%nat).
Proof.
  intros all_memos tag lim name n.
  assert (Hlim : forall p, limit p = Z.max 1 (Z.min 20 lim) ->
                   forall (l : list memo) (notes : list dict),
                     Forall2 (fun m note => _apply_response_format m p [] = Ok note)
                             (firstn (Z.to_nat (limit p)) l) notes ->
                     (length notes <= 20)%nat).
  { intros p Hl l notes HF2. apply Forall2_length in HF2.
    rewrite <- HF2, length_firstn. lia. }
  split.
  - set (p := mk_params [] (if lim >? 20 then 20 else lim) 0 default_fields
                        false 300 None None [] (parse_format_short name) false).
    destruct (search_without_query all_memos p eq_refl) as (r & Hr & HF2).
    exists p, (memos r). unfold tool_get_latest_memos. fold p. rewrite Hr.
    split; [reflexivity|]. split; [reflexivity|]. split; [reflexivity|].
    assert (Hl : limit p = Z.max 1 (Z.min 20 lim)) by apply capped_limit.
    rewrite selected_page_first in HF2 by (reflexivity || lia).
    rewrite filter_stage_query_only in HF2 by reflexivity.
    change (Memos.search_memos all_memos (query p)) with all_memos in HF2.
    split; [|now apply (Hlim p Hl _ _ HF2)].
    unfold n. now rewrite <- Hl.
  - set (p := mk_params [] (if lim >? 20 then 20 else lim) 0 default_fields
                        false 400 None None [without_hashes tag]
                        (parse_format_short name) false).
    destruct (search_without_query all_memos p eq_refl) as (r & Hr & HF2).
    exists p, (memos r). unfold tool_get_memos_by_tag.
    rewrite normalized_tag. fold p. rewrite Hr.
    split; [reflexivity|]. split; [reflexivity|]. split; [reflexivity|].
    assert (Hl : limit p = Z.max 1 (Z.min 20 lim)) by apply capped_limit.
    rewrite selected_page_first in HF2 by (reflexivity || lia).
    rewrite (filter_stage_tag_only _ _ (without_hashes tag)) in HF2
      by reflexivity.
    split; [|now apply (Hlim p Hl _ _ HF2)].
    unfold n. now rewrite <- Hl.
Qed.

(** ** The ID_ONLY search *)

(** X25. A search in the ID_ONLY format raises nothing and returns, for
    each record of the selected page and in its order, newest first, a
    note that holds the record's name as [id] and nothing else. *)
Theorem X25_id_only_search :
  forall (all_memos : list memo) (p : EnhancedMemosSearchParams),
    response_format p = ID_ONLY ->
    exists r,
      search_memos_enhanced all_memos p = Ok r /\
      memos r = map (fun m => [(lit "id", VStr (get_str (m_name m)))])
                    (selected_page all_memos p) /\
      StronglySorted createTime_desc (selected_page all_memos p).
Proof.
  intros all_memos p Hf.
  destruct (search_memos_enhanced_keeps_order all_memos p)
    as (r & Hr & _ & HF2).
  { intros m f _ H. apply _apply_response_format_score in H.
    now rewrite Hf in H. }
  exists r. split; [exact Hr|]. split; [|apply selected_page_sorted].
  induction HF2 as [| m f page fs Hm _ IH]; [reflexivity|].
  cbn [map]. rewrite <- IH. f_equal.
  unfold _apply_response_format in Hm. rewrite Hf in Hm. now injection Hm.
Qed.

Lemma X25_id_only_search_witness :
  let p := Examples.params_of "beta" 10 0 ID_ONLY in
  exists r,
    search_memos_enhanced Examples.three_notes p = Ok r /\
    memos r = [[(lit "id", VStr (lit "memos/2"))];
               [(lit "id", VStr (lit "memos/1"))]].
Proof.
  intros p.
  destruct (X25_id_only_search Examples.three_notes p eq_refl)
    as (r & Hr & Hm & _).
  exists r. split; [exact Hr|]. rewrite Hm. reflexivity.
Defined.

(** ** Notes of equal score *)

Lemma insert_desc_keep {A K} (key : A -> K) (ltb : K -> K -> bool)
    (P : A -> bool) x l :
  (forall a b, P a = true -> P b = true -> ltb (key a) (key b) = false) ->
  filter P (insert_desc key ltb x l) = filter P (x :: l).
Proof.
  intros Hirr. induction l as [| y l IH]; [reflexivity|].
  cbn [insert_desc]. destruct (ltb (key x) (key y)) eqn:E; [|reflexivity].
  cbn [filter] in *. rewrite IH.
  destruct (P y) eqn:Ey; [|reflexivity].
  destruct (P x) eqn:Ex; [|reflexivity].
  rewrite (Hirr x y Ex Ey) in E. discriminate E.
Qed.

Lemma sort_desc_keep {A K} (key : A -> K) (ltb : K -> K -> bool)
    (P : A -> bool) l :
  (forall a b, P a = true -> P b = true -> ltb (key a) (key b) = false) ->
  filter P (sort_desc key ltb l) = filter P l.
Proof.
  intros Hirr. induction l as [| x l IH]; [reflexivity|].
  cbn [sort_desc]. rewrite insert_desc_keep by exact Hirr.
  cbn [filter]. now rewrite IH.
Qed.

Lemma SFeqb_not_nan x v : SFeqb x v = true -> is_nan x = false /\ is_nan v = false.
Proof.
  unfold SFeqb.
  destruct x as [sx | sx | | sx mx ex]; destruct v as [sv | sv | | sv mv ev];
    simpl; try discriminate; auto.
Qed.

Lemma SFeqb_rank x v :
  SFeqb x v = true -> rank_compare (float_rank x) (float_rank v) = Eq.
Proof.
  intros H. destruct (SFeqb_not_nan _ _ H) as [Hx Hv].
  unfold SFeqb in H. rewrite SFcompare_rank in H by trivial.
  now destruct (rank_compare _ _).
Qed.

Lemma same_score_not_below v a b :
  same_score v a = true -> same_score v b = true ->
  pyval_ltb (relevance_key a) (relevance_key b) = false.
Proof.
  unfold same_score, pyval_ltb.
  destruct (relevance_key a) as [| | x |]; try discriminate.
  destruct (relevance_key b) as [| | y |]; try discriminate.
  intros Ha Hb. cbn [py_lt].
  destruct (SFeqb_not_nan _ _ Ha) as [Hx Hv].
  destruct (SFeqb_not_nan _ _ Hb) as [Hy _].
  apply SFeqb_rank in Ha, Hb.
  destruct (fltb x y) eqn:E; [|reflexivity].
  apply fltb_rank in E; trivial.
  assert (H1 : rank_compare (float_rank y) (float_rank v) <> Gt) by congruence.
  assert (H2 : rank_compare (float_rank v) (float_rank x) <> Gt)
    by (rewrite rank_compare_antisym, Ha; discriminate).
  pose proof (rank_compare_trans _ _ _ H1 H2) as H3.
  rewrite rank_compare_antisym, E in H3. now elim H3.
Qed.

(** X26. In a SUMMARY search with a query the notes of the answer are
    the formatted page sorted by score, highest first, by a stable sort:
    notes of equal score keep the order of the page, newest first. *)
Theorem X26_equal_scores_keep_order :
  forall (all_memos : list memo) (p : EnhancedMemosSearchParams)
         (r : SearchResponse),
    response_format p = SUMMARY -> query p <> [] ->
    search_memos_enhanced all_memos p = Ok r ->
    exists formatted,
      Forall2 (fun m f => _apply_response_format m p (query p) = Ok f)
              (selected_page all_memos p) formatted /\
      StronglySorted createTime_desc (selected_page all_memos p) /\
      memos r = sort_desc relevance_key pyval_ltb formatted /\
      StronglySorted score_desc (memos r) /\
      forall v : float,
        filter (same_score v) (memos r) = filter (same_score v) formatted.
Proof.
  intros all_memos p r Hf Hq H.
  apply search_memos_enhanced_inv in H.
  destruct H as (formatted & Hmap & Hsort & _).
  pose proof (mapM_Ok_inv _ _ _ Hmap) as HF2.
  pose proof (summary_page_float_keys p _ _ Hf Hq HF2) as Hkeys.
  assert (Hk : Forall (fun f => float_key (relevance_key f)) formatted).
  { eapply Forall_impl; [|exact Hkeys]. now intros f [Hfk _]. }
  assert (Hm : memos r = sort_desc relevance_key pyval_ltb formatted).
  { destruct (resort_condition p formatted) eqn:Ec.
    - rewrite sort_desc_r_float in Hsort by trivial. now injection Hsort.
    - injection Hsort as <-. unfold resort_condition in Ec.
      apply truthy_true in Hq. rewrite Hq in Ec. cbn [andb] in Ec.
      destruct formatted as [| f fs]; [reflexivity|].
      inversion Hkeys as [| ? ? [_ Hfh] _]; subst.
      assert (He : existsb (fun memo => dict_has memo (lit "relevance_score"))
                           (f :: fs) = true)
        by (apply existsb_exists; exists f; split; [now left | exact Hfh]).
      congruence. }
  exists formatted. split; [exact HF2|].
  split; [apply selected_page_sorted|]. split; [exact Hm|].
  rewrite Hm. split; [now apply sort_desc_float_sorted|].
  intros v. apply sort_desc_keep. apply same_score_not_below.
Qed.

Lemma X26_equal_scores_keep_order_witness :
  let p := Examples.params_of "beta" 10 0 SUMMARY in
  let notes := [Examples.note "memos/1" "beta" "2024-01-01" [];
                Examples.note "memos/2" "beta" "2024-01-03" []] in
  exists r,
    search_memos_enhanced notes p = Ok r /\
    StronglySorted score_desc (memos r) /\
    map id_of (memos r)
    = [Some (VStr (lit "memos/2")); Some (VStr (lit "memos/1"))].
Proof.
  intros p notes.
  destruct (search_memos_enhanced notes p) as [r | e] eqn:H;
    [| vm_compute in H; discriminate H].
  exists r. split; [reflexivity|].
  destruct (X26_equal_scores_keep_order notes p r eq_refl
              ltac:(discriminate) H) as (formatted & _ & _ & _ & Hs & _).
  split; [exact Hs|].
  vm_compute in H. injection H as <-. reflexivity.
Defined.

(** ** The two clients on a tag *)

Lemma lstrip_hash_repeat n t :
  ~ In hash t ->
  Memos.lstrip_hash (repeat hash n ++ t) = t /\
  without_hashes (repeat hash n ++ t) = t.
Proof.
  intros Hno.
  assert (Ht : Memos.lstrip_hash t = t /\ without_hashes t = t).
  { split.
    - destruct t as [| c t]; [reflexivity|]. cbn [Memos.lstrip_hash].
      destruct (ascii_dec c (ascii_of_N 35)) as [-> | _]; [|reflexivity].
      exfalso. apply Hno. now left.
    - clear n. induction t as [| c t IH]; [reflexivity|].
      cbn [without_hashes filter].
      destruct (Ascii.eqb_spec c hash) as [-> | _];
        [exfalso; apply Hno; now left|].
      cbn [negb]. f_equal. apply IH. intros Hin. apply Hno. now right. }
  induction n as [| n IH]; [exact Ht|].
  cbn [repeat app Memos.lstrip_hash without_hashes filter].
  destruct (ascii_dec hash (ascii_of_N 35)) as [_ | N]; [|now elim N].
  rewrite Ascii.eqb_refl. cbn [negb]. exact IH.
Qed.

(** X27. The two clients agree on a tag that has its marks in front
    only: every record the enhanced client selects for it (the tag
    without marks is one of the record's tags) is one the first client
    matches too; the first client matches in addition the records that
    have the marked tag in their content. *)
Theorem X27_tag_match_compatible :
  forall (n : nat) (t : str) (m : memo),
    ~ In hash t ->
    let tag := repeat hash n ++ t in
    let tag' := if negb (startswith tag (lit "#")) then lit "#" ++ tag
                else tag in
    replace tag' (lit "#") [] = t /\
    Memos.lstrip_hash tag' = t /\
    (existsb (str_eqb (replace tag' (lit "#") [])) (get_tags m) = true ->
     Memos.tag_matches tag' m = true) /\
    (Memos.tag_matches tag' m = true <->
     In t (get_tags m) \/ Substring tag' (get_str (m_content m))).
Proof.
  intros n t m Hno tag tag'.
  assert (Hr : replace tag' (lit "#") [] = t).
  { unfold tag'. rewrite normalized_tag. now apply lstrip_hash_repeat. }
  assert (Hl : Memos.lstrip_hash tag' = t).
  { unfold tag'. destruct (negb (startswith tag (lit "#"))).
    - change (lit "#" ++ tag) with (repeat hash (S n) ++ t).
      now apply lstrip_hash_repeat.
    - now apply lstrip_hash_repeat. }
  split; [exact Hr|]. split; [exact Hl|].
  assert (Hiff : Memos.tag_matches tag' m = true <->
                 In t (get_tags m) \/ Substring tag' (get_str (m_content m))).
  { unfold Memos.tag_matches. rewrite Hl.
    destruct (existsb (str_eqb t) (get_tags m)) eqn:E.
    - apply existsb_str_eqb_In in E. tauto.
    - rewrite contains_spec. split; [tauto|].
      intros [Hin | Hs]; [|exact Hs].
      apply existsb_str_eqb_In in Hin. congruence. }
  split; [|exact Hiff].
  rewrite Hr. intros E. apply Hiff. left. now apply existsb_str_eqb_In.
Qed.

Lemma X27_tag_match_compatible_witness :
  let m := Examples.note "memos/1" "text" "2024-01-01" [lit "work"] in
  Memos.tag_matches (lit "#work") m = true.
Proof.
  intros m.
  assert (Hno : ~ In hash (lit "work")).
  { cbn. intros [H | [H | [H | [H | []]]]]; discriminate H. }
  apply (proj1 (proj2 (proj2 (X27_tag_match_compatible 1 (lit "work") m Hno)))).
  reflexivity.
Defined.

(** ** The scan on ASCII text *)

(** X28. On ASCII text the scan returns: the empty list for an empty
    query or an empty content, and otherwise one snippet for each
    position at which the lowercased query occurs in the lowercased
    content, in increasing order of position and overlapping occurrences
    included (the query "aa" gives two snippets in "aaa", where [count]
    sees one occurrence); "hello" in "hello world hello" gives exactly
    two entries. *)
Theorem X28_ascii_one_snippet_per_occurrence :
  forall (content query : str) (context_chars : Z),
    isascii content = true -> isascii query = true ->
    0 <= context_chars ->
    (query = [] \/ content = [] ->
     _extract_snippet_around_match content query context_chars = Ok []) /\
    (query <> [] -> content <> [] ->
     exists snippets,
       _extract_snippet_around_match content query context_chars = Ok snippets /\
       Forall2 (fun pos snippet =>
                  snippet_at content query context_chars pos = Ok snippet)
               (occurrences (lower content) (lower query)) snippets /\
       length snippets = length (occurrences (lower content) (lower query)) /\
       StronglySorted Z.lt (occurrences (lower content) (lower query)) /\
       (forall k : nat,
           In (Z.of_nat k) (occurrences (lower content) (lower query))
           <-> OccursAt (lower query) (lower content) k)) /\
    (exists a b,
        _extract_snippet_around_match (lit "hello world hello") (lit "hello") 50
        = Ok [a; b]) /\
    (exists a b,
        _extract_snippet_around_match (lit "aaa") (lit "aa") 50 = Ok [a; b] /\
        count (lit "aaa") (lit "aa") = 1).
Proof.
  intros content query ctx _ _ Hctx. split; [|split; [|split]].
  - intros [-> | ->]; [reflexivity|].
    unfold _extract_snippet_around_match. simpl. now rewrite orb_true_r.
  - intros Hq Hc.
    destruct (_extract_snippet_around_match_total content query ctx Hctx)
      as [snippets H].
    exists snippets. split; [exact H|].
    rewrite _extract_snippet_around_match_occurrences in H by trivial.
    split; [now apply mapM_Ok_inv|].
    split; [now apply mapM_length in H|].
    split; [apply occurrences_from_increasing|].
    intros k. apply (occurrences_from_spec _ _ 0 k).
  - eexists; eexists. vm_compute. reflexivity.
  - eexists; eexists. vm_compute. split; reflexivity.
Qed.

Lemma X28_ascii_one_snippet_per_occurrence_witness :
  exists snippets,
    _extract_snippet_around_match (lit "hello world hello") (lit "hello") 50
    = Ok snippets /\
    length snippets = 2%nat.
Proof.
  assert (Hctx : 0 <= 50) by (vm_compute; discriminate).
  assert (Hq : lit "hello" <> []) by discriminate.
  assert (Hc : lit "hello world hello" <> []) by discriminate.
  destruct (proj1 (proj2 (X28_ascii_one_snippet_per_occurrence
                            (lit "hello world hello") (lit "hello") 50
                            eq_refl eq_refl Hctx))
              Hq Hc) as (snippets & H & _ & Hlen & _).
  exists snippets. split; [exact H|]. rewrite Hlen. reflexivity.
Defined.
